(** * GrowLocal360 SDK: webhook verification, slugs, catalog and image sync

    A shallow embedding of the SDK class of [src/index.ts], of its second
    copy, of [createWebhookHandler], of the webhook route helpers
    ([handleJobCreatedOrUpdated], [handleJobDeleted], [createSlug]) and of
    the readers of [lib/jobs.js], together with the parts of the
    JavaScript and Node.js runtime they call.

    Conventions.
    - A JavaScript string is the list of its UTF-16 code units ([jsstring]).
    - A [Buffer] is a list of bytes.
    - Code inside [try { ... } catch] runs in the exception monad [Exc];
      the function that owns the [catch] is total. *)

From Stdlib Require Import ZArith NArith List Ascii String Bool Lia.
From Stdlib Require Import Strings.Byte DecimalString.
From Stdlib Require DecimalN.
From stdpp Require Import base option list gmap.
Import ListNotations.

Local Open Scope N_scope.
Local Open Scope list_scope.

(** ** JavaScript strings *)

Module JS.

Definition jsstring := list N.

(** A literal of Basic Latin characters, as code units. *)
Definition js (s : string) : jsstring :=
  List.map N_of_ascii (list_ascii_of_string s).

(** [!s] for a string: only the empty string is falsy. *)
Definition truthy (s : jsstring) : bool :=
  match s with [] => false | _ :: _ => true end.

Definition in_range (lo hi c : N) : bool := (lo <=? c) && (c <=? hi).

Definition is_digit (c : N) : bool := in_range 48 57 c.
Definition is_upper (c : N) : bool := in_range 65 90 c.
Definition is_lower (c : N) : bool := in_range 97 122 c.
Definition is_alnum (c : N) : bool := is_digit c || is_upper c || is_lower c.

Definition underscore : N := 95.
Definition hyphen : N := 45.

(** [\w] without the [u] and [i] flags: [A-Za-z0-9_]. *)
Definition is_word (c : N) : bool := is_alnum c || (c =? underscore).

(** [\s]: WhiteSpace and LineTerminator of ECMA-262. *)
Definition is_space (c : N) : bool :=
  in_range 9 13 c || (c =? 32) || (c =? 160) || (c =? 5760)
  || in_range 8192 8202 c || (c =? 8232) || (c =? 8233) || (c =? 8239)
  || (c =? 8287) || (c =? 12288) || (c =? 65279).

Definition is_hyphen (c : N) : bool := c =? hyphen.

(** [String.prototype.toLowerCase], one code unit at a time.  Basic Latin
    capitals are shifted; U+0130 and U+212A are the two code units whose
    lower-case form contains a Basic Latin letter.  The lower-case form
    of any other code unit lies, like the unit itself, outside [\w] and
    [-], and white space has no case: such units are left as they are,
    which none of the functions below can tell from the full Unicode
    mapping. *)
Definition lower_unit (c : N) : jsstring :=
  if is_upper c then [c + 32]
  else if c =? 304 then [105; 775]
  else if c =? 8490 then [107]
  else [c].

Definition toLowerCase (s : jsstring) : jsstring := flat_map lower_unit s.

Fixpoint starts_with (pat s : jsstring) : bool :=
  match pat, s with
  | [], _ => true
  | _ :: _, [] => false
  | a :: pat', b :: s' => (a =? b) && starts_with pat' s'
  end.

(** [s.replace(pat, rep)] for a string pattern: the first occurrence of
    [pat] only ([rep] holds no [$]). *)
Fixpoint replace_str (pat rep s : jsstring) : jsstring :=
  if starts_with pat s then rep ++ drop (List.length pat) s
  else match s with
       | [] => []
       | c :: s' => c :: replace_str pat rep s'
       end.

(** [s.split(sep)] for a one-unit separator; never empty. *)
Fixpoint split (sep : N) (s : jsstring) : list jsstring :=
  match s with
  | [] => [[]]
  | c :: s' =>
      if c =? sep then [] :: split sep s'
      else match split sep s' with
           | [] => [[c]]
           | w :: ws => (c :: w) :: ws
           end
  end.

(** [arr.pop()]: the last element, [undefined] on an empty array. *)
Definition pop {A} (l : list A) : option A := last l.

(** [arr.includes(x)] on strings. *)
Definition includes (l : list jsstring) (x : jsstring) : bool :=
  existsb (fun y => bool_decide (y = x)) l.

(** *** Regular expressions

    The fragment the code uses: character classes, greedy [+] over a class,
    the anchors [^] and [$] (no [m] flag), sequence and ordered choice.
    The matcher backtracks as ECMA-262 prescribes: [+] tries the longest
    run first, [|] its left branch first.  Positions are absolute
    ([lastIndex]); the continuation receives the end of the match. *)

Inductive regex : Type :=
| Class (p : N -> bool)
| Plus (p : N -> bool)
| Bol
| Eol
| Seq (r1 r2 : regex)
| Alt (r1 r2 : regex).

Definition first_of {A} (x y : option A) : option A :=
  match x with Some _ => x | None => y end.

Fixpoint plus_match (p : N -> bool) (pos : nat) (s : jsstring)
    (k : nat -> jsstring -> option nat) : option nat :=
  match s with
  | [] => None
  | c :: s' =>
      if p c then first_of (plus_match p (S pos) s' k) (k (S pos) s')
      else None
  end.

Fixpoint rmatch (r : regex) (pos : nat) (s : jsstring)
    (k : nat -> jsstring -> option nat) : option nat :=
  match r with
  | Class p =>
      match s with
      | [] => None
      | c :: s' => if p c then k (S pos) s' else None
      end
  | Plus p => plus_match p pos s k
  | Bol => match pos with O => k pos s | S _ => None end
  | Eol => match s with [] => k pos s | _ :: _ => None end
  | Seq r1 r2 => rmatch r1 pos s (fun e s' => rmatch r2 e s' k)
  | Alt r1 r2 => first_of (rmatch r1 pos s k) (rmatch r2 pos s k)
  end.

(** One [exec] at [pos]: the end position of the match found there. *)
Definition exec_at (r : regex) (pos : nat) (s : jsstring) : option nat :=
  rmatch r pos s (fun e _ => Some e).

(** [s.replace(/r/g, rep)] from position [pos], [s] being what is left of
    the subject; [skip] counts the units of the current match still to be
    consumed.  An empty match is replaced and the scan moves on by one
    unit, as [lastIndex] does. *)
Fixpoint replace_from (r : regex) (rep : jsstring) (pos skip : nat)
    (s : jsstring) {struct s} : jsstring :=
  match skip with
  | S n =>
      match s with
      | [] => []
      | _ :: s' => replace_from r rep (S pos) n s'
      end
  | O =>
      match exec_at r pos s with
      | Some e =>
          rep ++ match s with
                 | [] => []
                 | c :: s' =>
                     if (e <=? pos)%nat then c :: replace_from r rep (S pos) 0 s'
                     else replace_from r rep (S pos) (e - pos - 1) s'
                 end
      | None =>
          match s with
          | [] => []
          | c :: s' => c :: replace_from r rep (S pos) 0 s'
          end
      end
  end.

Definition replace_g (r : regex) (rep s : jsstring) : jsstring :=
  replace_from r rep 0 0 s.

End JS.

Import JS.

(** ** The slug of a title *)

(** [/[^\w\s-]/g] *)
Definition re_not_word_space_hyphen : regex :=
  Class (fun c => negb (is_word c || is_space c || is_hyphen c)).

(** [/[\s_-]+/g] *)
Definition re_separators : regex :=
  Plus (fun c => is_space c || (c =? underscore) || is_hyphen c).

(** [/^-+|-+$/g] *)
Definition re_edge_hyphens : regex :=
  Alt (Seq Bol (Plus is_hyphen)) (Seq (Plus is_hyphen) Eol).

(** [title.toLowerCase().replace(/[^\w\s-]/g, '').replace(/[\s_-]+/g, '-')
    .replace(/^-+|-+$/g, '')] *)
Definition createSlug (title : jsstring) : jsstring :=
  replace_g re_edge_hyphens []
    (replace_g re_separators (js "-")
       (replace_g re_not_word_space_hyphen []
          (toLowerCase title))).


(** ** Buffers, hex and UTF-8 *)

Module Buffer.

#[global] Instance byte_eq_decision : EqDecision byte := byte_eq_dec.

Definition byte_of_N (n : N) : byte :=
  match Byte.of_N (n mod 256) with Some b => b | None => x00 end.

(** A lower-case hex digit, as [digest('hex')] prints it. *)
Definition hex_digit (n : N) : N := if n <? 10 then 48 + n else 87 + n.

Definition hex_of_byte (b : byte) : jsstring :=
  [hex_digit (Byte.to_N b / 16); hex_digit (Byte.to_N b mod 16)].

(** [buf.toString('hex')] *)
Definition to_hex (buf : list byte) : jsstring := flat_map hex_of_byte buf.

Definition hex_val (c : N) : option N :=
  if is_digit c then Some (c - 48)
  else if in_range 97 102 c then Some (c - 87)
  else if in_range 65 70 c then Some (c - 55)
  else None.

(** The decoder reads a code unit through a [uint8_t]: only its low
    eight bits count, so U+0131 reads as the digit 1. *)
Definition low_byte (c : N) : N := c mod 256.

(** [Buffer.from(s, 'hex')]: pairs of hex digits are decoded from the left,
    each code unit by its low byte; decoding stops at the first pair that
    is not two hex digits, and a single trailing digit is dropped
    (Node.js: "data truncation may occur").  It never throws. *)
Fixpoint from_hex (s : jsstring) : list byte :=
  match s with
  | a :: b :: s' =>
      match hex_val (low_byte a), hex_val (low_byte b) with
      | Some x, Some y => byte_of_N (16 * x + y) :: from_hex s'
      | _, _ => []
      end
  | _ => []
  end.

Definition is_high_surrogate (c : N) : bool := in_range 55296 56319 c.
Definition is_low_surrogate (c : N) : bool := in_range 56320 57343 c.

Definition utf8_of_code_point (c : N) : list byte :=
  if c <? 128 then [byte_of_N c]
  else if c <? 2048 then
    [byte_of_N (192 + c / 64); byte_of_N (128 + c mod 64)]
  else if c <? 65536 then
    [byte_of_N (224 + c / 4096); byte_of_N (128 + (c / 64) mod 64);
     byte_of_N (128 + c mod 64)]
  else
    [byte_of_N (240 + c / 262144); byte_of_N (128 + (c / 4096) mod 64);
     byte_of_N (128 + (c / 64) mod 64); byte_of_N (128 + c mod 64)].

(** The UTF-8 bytes of a string ([update(body, 'utf8')], string keys):
    a surrogate pair is one code point, a lone surrogate becomes U+FFFD. *)
Fixpoint utf8 (s : jsstring) : list byte :=
  match s with
  | [] => []
  | c :: s' =>
      if is_high_surrogate c then
        match s' with
        | d :: s'' =>
            if is_low_surrogate d then
              utf8_of_code_point (65536 + (c - 55296) * 1024 + (d - 56320))
                ++ utf8 s''
            else utf8_of_code_point 65533 ++ utf8 s'
        | [] => utf8_of_code_point 65533
        end
      else if is_low_surrogate c then utf8_of_code_point 65533 ++ utf8 s'
      else utf8_of_code_point c ++ utf8 s'
  end.

End Buffer.

Import Buffer.

(** ** SHA-256 and HMAC (FIPS 180-4, RFC 2104), as [crypto.createHmac] *)

Module Crypto.

Definition mask32 : N := 4294967295.
Definition w32 (x : N) : N := N.land x mask32.
Definition add32 (x y : N) : N := w32 (x + y).
Definition rotr (n x : N) : N :=
  N.lor (N.shiftr x n) (w32 (N.shiftl x (32 - n))).
Definition not32 (x : N) : N := N.lxor x mask32.

Definition ch (x y z : N) : N := N.lxor (N.land x y) (N.land (not32 x) z).
Definition maj (x y z : N) : N :=
  N.lxor (N.lxor (N.land x y) (N.land x z)) (N.land y z).
Definition bsig0 (x : N) : N := N.lxor (N.lxor (rotr 2 x) (rotr 13 x)) (rotr 22 x).
Definition bsig1 (x : N) : N := N.lxor (N.lxor (rotr 6 x) (rotr 11 x)) (rotr 25 x).
Definition ssig0 (x : N) : N := N.lxor (N.lxor (rotr 7 x) (rotr 18 x)) (N.shiftr x 3).
Definition ssig1 (x : N) : N := N.lxor (N.lxor (rotr 17 x) (rotr 19 x)) (N.shiftr x 10).

(** Big-endian 32-bit words of a byte sequence (whole words only). *)
Fixpoint be_words (l : list byte) : list N :=
  match l with
  | a :: b :: c :: d :: l' =>
      (((Byte.to_N a * 256 + Byte.to_N b) * 256 + Byte.to_N c) * 256
       + Byte.to_N d) :: be_words l'
  | _ => []
  end.

Definition word_bytes (x : N) : list byte :=
  [byte_of_N (x / 16777216); byte_of_N (x / 65536); byte_of_N (x / 256);
   byte_of_N x].

Definition round_constants : list N :=
  Eval vm_compute in be_words (from_hex (js
    ("428a2f9871374491b5c0fbcfe9b5dba53956c25b59f111f1923f82a4ab1c5ed5"
  ++ "d807aa9812835b01243185be550c7dc372be5d7480deb1fe9bdc06a7c19bf174"
  ++ "e49b69c1efbe47860fc19dc6240ca1cc2de92c6f4a7484aa5cb0a9dc76f988da"
  ++ "983e5152a831c66db00327c8bf597fc7c6e00bf3d5a7914706ca635114292967"
  ++ "27b70a852e1b21384d2c6dfc53380d13650a7354766a0abb81c2c92e92722c85"
  ++ "a2bfe8a1a81a664bc24b8b70c76c51a3d192e819d6990624f40e3585106aa070"
  ++ "19a4c1161e376c082748774c34b0bcb5391c0cb34ed8aa4a5b9cca4f682e6ff3"
  ++ "748f82ee78a5636f84c878148cc7020890befffaa4506cebbef9a3f7c67178f2")%string)).

Record hstate : Type := HState {
  ha : N; hb : N; hc : N; hd : N; he : N; hf : N; hg : N; hh : N }.

Definition initial_hash : hstate :=
  HState 1779033703 3144134277 1013904242 2773480762
         1359893119 2600822924 528734635 1541459225.

(** The message schedule: sixteen block words extended to sixty-four. *)
Fixpoint extend (n : nat) (w : list N) : list N :=
  match n with
  | O => w
  | S n' =>
      let t := List.length w in
      let at_ (i : nat) := nth (t - i) w 0 in
      extend n' (w ++ [add32 (add32 (ssig1 (at_ 2%nat)) (at_ 7%nat))
                             (add32 (ssig0 (at_ 15%nat)) (at_ 16%nat))])
  end.

Definition round (s : hstate) (kw : N * N) : hstate :=
  let t1 := add32 (add32 (add32 (hh s) (bsig1 (he s)))
                         (add32 (ch (he s) (hf s) (hg s)) (fst kw))) (snd kw) in
  let t2 := add32 (bsig0 (ha s)) (maj (ha s) (hb s) (hc s)) in
  HState (add32 t1 t2) (ha s) (hb s) (hc s) (add32 (hd s) t1) (he s) (hf s) (hg s).

Definition compress (h : hstate) (block : list byte) : hstate :=
  let w := extend 48 (be_words block) in
  let s := fold_left round (combine round_constants w) h in
  HState (add32 (ha h) (ha s)) (add32 (hb h) (hb s)) (add32 (hc h) (hc s))
         (add32 (hd h) (hd s)) (add32 (he h) (he s)) (add32 (hf h) (hf s))
         (add32 (hg h) (hg s)) (add32 (hh h) (hh s)).

(** Padding to a multiple of 64 bytes: 0x80, zeros, the bit length on 8 bytes. *)
Definition pad (msg : list byte) : list byte :=
  let len := List.length msg in
  let zeros := ((64 - (len + 9) mod 64) mod 64)%nat in
  let bits := N.of_nat len * 8 in
  msg ++ [x80] ++ repeat x00 zeros
      ++ word_bytes (bits / 4294967296) ++ word_bytes bits.

Definition hash_bytes (h : hstate) : list byte :=
  word_bytes (ha h) ++ word_bytes (hb h) ++ word_bytes (hc h) ++ word_bytes (hd h)
  ++ word_bytes (he h) ++ word_bytes (hf h) ++ word_bytes (hg h) ++ word_bytes (hh h).

Definition sha256 (msg : list byte) : list byte :=
  let p := pad msg in
  hash_bytes
    (fold_left (fun h i => compress h (take 64 (drop (64 * i) p)))
               (seq 0 (List.length p / 64)) initial_hash).

Definition xor_byte (k : N) (b : byte) : byte := byte_of_N (N.lxor (Byte.to_N b) k).

(** [createHmac('sha256', key).update(msg).digest()] on bytes. *)
Definition hmac_sha256 (key msg : list byte) : list byte :=
  let k0 := if (64 <? List.length key)%nat then sha256 key else key in
  let k := k0 ++ repeat x00 (64 - List.length k0) in
  sha256 (List.map (xor_byte 92) k ++ sha256 (List.map (xor_byte 54) k ++ msg)).

(** [timingSafeEqual(a, b)] on buffers of equal length. *)
Definition bytes_equal (a b : list byte) : bool := bool_decide (a = b).

End Crypto.

Import Crypto.

(** ** Exceptions *)

Module Exn.

(** Errors raised by the runtime itself; the text of their [message] is
    the engine's and is kept symbolic. *)
Inductive runtime_error : Type :=
| UnequalByteLength   (* RangeError of crypto.timingSafeEqual *)
| JsonSyntax          (* SyntaxError of JSON.parse *)
| NullishProperty     (* TypeError: property read on null or undefined *)
| NotBufferLike.      (* TypeError of Buffer.from *)

(** What an HTTP error response carries: [status] and [statusText]. *)
Record http_status : Type := HttpStatus { status : N; statusText : jsstring }.

(** A thrown value.  axios rejects with an AxiosError, which holds the
    response when the server answered and none when the request never
    got one; any other [Error], and values that are no [Error] at all
    (never [null] or [undefined]), complete the picture. *)
Inductive thrown : Type :=
| Runtime (e : runtime_error)
| AxiosError (message : jsstring) (response : option http_status)
| ErrorObject (message : jsstring)
| NonError.

Inductive text : Type :=
| Text (s : jsstring)
| RuntimeText (e : runtime_error).

(** [error instanceof Error] *)
Definition instanceof_Error (t : thrown) : bool :=
  match t with NonError => false | _ => true end.

(** [axios.isAxiosError(error)] *)
Definition isAxiosError (t : thrown) : bool :=
  match t with AxiosError _ _ => true | _ => false end.

(** [error.message] of an [Error]. *)
Definition message (t : thrown) : text :=
  match t with
  | Runtime e => RuntimeText e
  | AxiosError m _ => Text m
  | ErrorObject m => Text m
  | NonError => Text []
  end.

(** [error.response] *)
Definition response (t : thrown) : option http_status :=
  match t with AxiosError _ r => r | _ => None end.

Inductive Exc (A : Type) : Type :=
| Ret (a : A)
| Throw (t : thrown).
Arguments Ret {A} a.
Arguments Throw {A} t.

Definition bind {A B} (m : Exc A) (f : A -> Exc B) : Exc B :=
  match m with Ret a => f a | Throw t => Throw t end.

(** [try { m } catch (error) { h error }] *)
Definition try_catch {A} (m : Exc A) (h : thrown -> A) : A :=
  match m with Ret a => a | Throw t => h t end.

End Exn.

Import Exn.

#[global] Instance Exc_bind : MBind Exc := fun A B f m => bind m f.
#[global] Instance Exc_ret : MRet Exc := fun A a => Ret a.

(** [timingSafeEqual(a, b)]: throws a RangeError on unequal byte lengths. *)
Definition timingSafeEqual (a b : list byte) : Exc bool :=
  if (List.length a =? List.length b)%nat then Ret (bytes_equal a b)
  else Throw (Runtime UnequalByteLength).

(** ** JSON.parse *)

Module Json.

(** A parsed JSON text.  A number keeps its lexeme, an object its members
    in source order. *)
#[warnings="-register-all"] Inductive json : Type :=
| JNull
| JBool (b : bool)
| JNumber (lexeme : jsstring)
| JString (s : jsstring)
| JArray (items : list json)
| JObject (members : list (jsstring * json)).

Definition is_ws (c : N) : bool :=
  (c =? 32) || (c =? 9) || (c =? 10) || (c =? 13).

Fixpoint skip_ws (s : jsstring) : jsstring :=
  match s with
  | c :: s' => if is_ws c then skip_ws s' else s
  | [] => []
  end.

Fixpoint span (p : N -> bool) (s : jsstring) : jsstring * jsstring :=
  match s with
  | c :: s' => if p c then let (a, b) := span p s' in (c :: a, b) else ([], s)
  | [] => ([], [])
  end.

Definition escape (e : N) : option N :=
  if e =? 34 then Some 34 else if e =? 92 then Some 92
  else if e =? 47 then Some 47 else if e =? 98 then Some 8
  else if e =? 102 then Some 12 else if e =? 110 then Some 10
  else if e =? 114 then Some 13 else if e =? 116 then Some 9
  else None.

Definition hex4 (a b c d : N) : option N :=
  match hex_val a, hex_val b, hex_val c, hex_val d with
  | Some x, Some y, Some z, Some t => Some (((x * 16 + y) * 16 + z) * 16 + t)
  | _, _, _, _ => None
  end.

(** The body of a string, after its opening quote. *)
Fixpoint string_body (s acc : jsstring) : option (jsstring * jsstring) :=
  match s with
  | [] => None
  | c :: r =>
      if c =? 34 then Some (rev acc, r)
      else if c =? 92 then
        match r with
        | [] => None
        | e :: r1 =>
            if e =? 117 then
              match r1 with
              | a :: b :: c' :: d :: r2 =>
                  match hex4 a b c' d with
                  | Some u => string_body r2 (u :: acc)
                  | None => None
                  end
              | _ => None
              end
            else match escape e with
                 | Some u => string_body r1 (u :: acc)
                 | None => None
                 end
        end
      else if c <? 32 then None
      else string_body r (c :: acc)
  end.

Definition digits1 (s : jsstring) : option (jsstring * jsstring) :=
  match span is_digit s with
  | ([], _) => None
  | (d, r) => Some (d, r)
  end.

(** A number: an optional minus sign; zero, or a non-zero digit and more
    digits; an optional fraction of a dot and digits; an optional exponent
    of e or E, a sign and digits. *)
Definition number (s : jsstring) : option (jsstring * jsstring) :=
  let (sign, s1) := match s with
                    | c :: r => if c =? 45 then ([c], r) else ([], s)
                    | [] => ([], s)
                    end in
  match s1 with
  | [] => None
  | c :: r =>
      let int := if c =? 48 then Some ([c], r) else digits1 s1 in
      match int with
      | None => None
      | Some (i, s2) =>
          let frac := match s2 with
                      | c2 :: r2 =>
                          if c2 =? 46 then
                            match digits1 r2 with
                            | Some (d, r3) => Some (c2 :: d, r3)
                            | None => None
                            end
                          else Some ([], s2)
                      | [] => Some ([], s2)
                      end in
          match frac with
          | None => None
          | Some (f, s3) =>
              let exp := match s3 with
                         | c3 :: r3 =>
                             if (c3 =? 101) || (c3 =? 69) then
                               let (sg, r4) :=
                                 match r3 with
                                 | c4 :: r5 =>
                                     if (c4 =? 43) || (c4 =? 45) then ([c4], r5)
                                     else ([], r3)
                                 | [] => ([], r3)
                                 end in
                               match digits1 r4 with
                               | Some (d, r6) => Some (c3 :: sg ++ d, r6)
                               | None => None
                               end
                             else Some ([], s3)
                         | [] => Some ([], s3)
                         end in
              match exp with
              | None => None
              | Some (e, s4) => Some (sign ++ i ++ f ++ e, s4)
              end
          end
      end
  end.

Definition literal (word : string) (v : json) (s : jsstring) : option (json * jsstring) :=
  if starts_with (js word) s then Some (v, drop (String.length word) s) else None.

(** Recursive descent.  Every call that spends fuel has consumed input or
    is followed by one that does, so the fuel [parse] gives, twice the
    length of the text and two more, never runs out. *)
Fixpoint value (fuel : nat) (s : jsstring) : option (json * jsstring) :=
  match fuel with
  | O => None
  | S f =>
      match skip_ws s with
      | [] => None
      | c :: r =>
          if c =? 123 then
            match skip_ws r with
            | d :: r' => if d =? 125 then Some (JObject [], r') else members f r []
            | [] => None
            end
          else if c =? 91 then
            match skip_ws r with
            | d :: r' => if d =? 93 then Some (JArray [], r') else elements f r []
            | [] => None
            end
          else if c =? 34 then
            match string_body r [] with
            | Some (str, r') => Some (JString str, r')
            | None => None
            end
          else if c =? 116 then literal "true" (JBool true) (c :: r)
          else if c =? 102 then literal "false" (JBool false) (c :: r)
          else if c =? 110 then literal "null" JNull (c :: r)
          else match number (c :: r) with
               | Some (n, r') => Some (JNumber n, r')
               | None => None
               end
      end
  end
with elements (fuel : nat) (s : jsstring) (acc : list json) : option (json * jsstring) :=
  match fuel with
  | O => None
  | S f =>
      match value f s with
      | None => None
      | Some (v, r) =>
          match skip_ws r with
          | c :: r' =>
              if c =? 44 then elements f r' (v :: acc)
              else if c =? 93 then Some (JArray (rev (v :: acc)), r')
              else None
          | [] => None
          end
      end
  end
with members (fuel : nat) (s : jsstring) (acc : list (jsstring * json))
    : option (json * jsstring) :=
  match fuel with
  | O => None
  | S f =>
      match skip_ws s with
      | c :: r =>
          if c =? 34 then
            match string_body r [] with
            | None => None
            | Some (key, r1) =>
                match skip_ws r1 with
                | c1 :: r2 =>
                    if c1 =? 58 then
                      match value f r2 with
                      | None => None
                      | Some (v, r3) =>
                          match skip_ws r3 with
                          | c3 :: r4 =>
                              if c3 =? 44 then members f r4 ((key, v) :: acc)
                              else if c3 =? 125 then
                                Some (JObject (rev ((key, v) :: acc)), r4)
                              else None
                          | [] => None
                          end
                      end
                    else None
                | [] => None
                end
            end
          else None
      | [] => None
      end
  end.

(** [JSON.parse(text)]: the value, or a SyntaxError. *)
Definition parse (s : jsstring) : Exc json :=
  match value (2 * List.length s + 2) s with
  | Some (v, r) =>
      match skip_ws r with
      | [] => Ret v
      | _ :: _ => Throw (Runtime JsonSyntax)
      end
  | None => Throw (Runtime JsonSyntax)
  end.

End Json.

Import Json.

(** ** Types of the SDK ([types.ts]) *)

Record SDKConfig : Type := {
  apiUrl : jsstring;
  apiKey : option jsstring;
  secret : option jsstring }.

Record WebhookVerificationResult : Type := {
  isValid : bool;
  payload : option json;
  error : option text }.

Record WebhookRegistrationResponse : Type := {
  success : bool;
  webhook_id : option jsstring;
  reg_error : option text }.

(** [a || b] on optional strings: [undefined] and the empty string are falsy. *)
Definition or_else (a b : option jsstring) : option jsstring :=
  match a with
  | Some s => if truthy s then a else b
  | None => b
  end.

(** [error instanceof Error ? error.message : fallback] *)
Definition message_or (fallback : string) (t : thrown) : text :=
  if instanceof_Error t then message t else Text (js fallback).

(** ** [verifyWebhook], in [src/index.ts] *)

Module IndexTs.

Definition verifyWebhook_try (config : SDKConfig) (body signature : jsstring)
    (secret_arg : option jsstring) : Exc WebhookVerificationResult :=
  match or_else secret_arg (secret config) with
  | None =>
      Ret {| isValid := false; payload := None;
             error := Some (Text (js "No webhook secret provided")) |}
  | Some webhookSecret =>
      if negb (truthy webhookSecret) then
        Ret {| isValid := false; payload := None;
               error := Some (Text (js "No webhook secret provided")) |}
      else
        let expectedSignature :=
          to_hex (hmac_sha256 (utf8 webhookSecret) (utf8 body)) in
        let cleanSignature := replace_str (js "sha256=") [] signature in
        ok ← timingSafeEqual (from_hex expectedSignature) (from_hex cleanSignature);
        if negb ok then
          Ret {| isValid := false; payload := None;
                 error := Some (Text (js "Invalid signature")) |}
        else
          parsed ← Json.parse body;
          Ret {| isValid := true; payload := Some parsed; error := None |}
  end.

Definition verifyWebhook (config : SDKConfig) (body signature : jsstring)
    (secret_arg : option jsstring) : WebhookVerificationResult :=
  try_catch (verifyWebhook_try config body signature secret_arg)
    (fun e => {| isValid := false; payload := None;
                 error := Some (message_or "Failed to verify webhook" e) |}).

End IndexTs.

(** ** [verifyWebhook], in the second copy of the SDK class *)

Module SecondCopy.

Definition no_secret : WebhookVerificationResult :=
  {| isValid := false; payload := None;
     error := Some (Text (js "No webhook secret provided")) |}.

Definition verifyWebhook (config : SDKConfig) (body signature : jsstring)
    (secret_arg : option jsstring) : WebhookVerificationResult :=
  let attempt : Exc WebhookVerificationResult :=
    let webhookSecret := or_else secret_arg (secret config) in
    match webhookSecret with
    | Some key =>
        if truthy key then
          let expectedSignature := to_hex (hmac_sha256 (utf8 key) (utf8 body)) in
          let cleanSignature := replace_str (js "sha256=") [] signature in
          match timingSafeEqual (from_hex expectedSignature)
                                (from_hex cleanSignature) with
          | Throw t => Throw t
          | Ret false =>
              Ret {| isValid := false; payload := None;
                     error := Some (Text (js "Invalid signature")) |}
          | Ret true =>
              match Json.parse body with
              | Throw t => Throw t
              | Ret p => Ret {| isValid := true; payload := Some p; error := None |}
              end
          end
        else Ret no_secret
    | None => Ret no_secret
    end in
  match attempt with
  | Ret r => r
  | Throw t =>
      {| isValid := false; payload := None;
         error := Some (if instanceof_Error t then message t
                        else Text (js "Failed to verify webhook")) |}
  end.

End SecondCopy.

(** ** Paths, numbers and objects of the runtime *)

Module Node.

(** [String(n)] for a natural number (an array position, a status code). *)
Definition decimal (n : N) : jsstring :=
  js (NilEmpty.string_of_uint (N.to_uint n)).

Fixpoint intercalate (sep : jsstring) (l : list jsstring) : jsstring :=
  match l with
  | [] => []
  | [x] => x
  | x :: l' => x ++ sep ++ intercalate sep l'
  end.

(** One segment of [normalizeString]; the stack holds the segments kept
    so far, the last one first. *)
Definition norm_step (allowAboveRoot : bool) (stack : list jsstring)
    (seg : jsstring) : list jsstring :=
  if bool_decide (seg = []) || bool_decide (seg = js ".") then stack
  else if bool_decide (seg = js "..") then
    match stack with
    | top :: below =>
        if bool_decide (top = js "..") then seg :: stack else below
    | [] => if allowAboveRoot then [seg] else []
    end
  else seg :: stack.

(** [path.posix.normalize] *)
Definition normalize (path : jsstring) : jsstring :=
  match path with
  | [] => js "."
  | c :: _ =>
      let isAbsolute := c =? 47 in
      let trailingSeparator :=
        match last path with Some d => d =? 47 | None => false end in
      let segs := rev (fold_left (norm_step (negb isAbsolute)) (split 47 path) []) in
      let p := intercalate (js "/") segs in
      match p with
      | [] => if isAbsolute then js "/"
              else if trailingSeparator then js "./" else js "."
      | _ :: _ =>
          let p' := if trailingSeparator then p ++ js "/" else p in
          if isAbsolute then js "/" ++ p' else p'
      end
  end.

(** [path.posix.join(...args)] *)
Definition join (args : list jsstring) : jsstring :=
  match List.filter truthy args with
  | [] => js "."
  | parts => normalize (intercalate (js "/") parts)
  end.

(** The value of a property read [obj[key]] on an object literal whose
    own properties are strings: an own string, or a member inherited
    from [Object.prototype]. *)
Inductive property : Type :=
| Own (s : jsstring)
| Inherited (name : jsstring).

Definition object_prototype_keys : list jsstring :=
  List.map js
    ["constructor"; "__defineGetter__"; "__defineSetter__"; "hasOwnProperty";
     "__lookupGetter__"; "__lookupSetter__"; "isPrototypeOf";
     "propertyIsEnumerable"; "toString"; "valueOf"; "__proto__";
     "toLocaleString"]%string.

Fixpoint assoc (table : list (jsstring * jsstring)) (key : jsstring)
    : option jsstring :=
  match table with
  | [] => None
  | (k, v) :: rest => if bool_decide (k = key) then Some v else assoc rest key
  end.

(** [obj[key]] *)
Definition get (own : list (jsstring * jsstring)) (key : jsstring)
    : option property :=
  match assoc own key with
  | Some v => Some (Own v)
  | None => if includes object_prototype_keys key then Some (Inherited key)
            else None
  end.

(** A property value inside a template literal.  The members of
    [Object.prototype] are native functions, but for [__proto__], which
    is the prototype object itself. *)
Definition to_string (p : property) : jsstring :=
  match p with
  | Own s => s
  | Inherited name =>
      if bool_decide (name = js "__proto__") then js "[object Object]"
      else if bool_decide (name = js "constructor")
      then js "function Object() { [native code] }"
      else js "function " ++ name ++ js "() { [native code] }"
  end.

End Node.

Import Node.

(** ** Job data ([types.ts]) *)

Record JobData : Type := {
  job_id : jsstring;
  job_title : jsstring;
  job_description : jsstring;
  job_city : jsstring;
  job_state : jsstring;
  job_date : jsstring;
  job_created_at : jsstring;
  job_images : list jsstring;
  job_site : jsstring;
  job_tags : jsstring;
  job_categories : jsstring;
  job_brand : jsstring;
  job_service : jsstring;
  job_zipcode : jsstring;
  job_brands : list jsstring;
  job_services : list jsstring;
  job_street : jsstring;
  employee : option jsstring }.

(** A job with an id and a title, every other field empty. *)
Definition example_job (id title : jsstring) : JobData :=
  {| job_id := id; job_title := title; job_description := []; job_city := [];
     job_state := []; job_date := []; job_created_at := []; job_images := [];
     job_site := []; job_tags := []; job_categories := []; job_brand := [];
     job_service := []; job_zipcode := []; job_brands := [];
     job_services := []; job_street := []; employee := None |}.

(** ** Image download ([downloadImage], [downloadJobImages]) *)

Module Images.

(** What [axios.get(url, { responseType: 'arraybuffer' })] resolves to:
    the body ([None] when it is nothing [Buffer.from] accepts) and the
    [content-type] header. *)
Record response : Type := {
  resp_data : option (list byte);
  content_type : option jsstring }.

(** The world outside the process.  Every operation is asked with the
    number of the download it belongs to, so the same URL or path may
    succeed once and fail later. *)
Record Env : Type := {
  cwd : jsstring;
  http_get : nat -> jsstring -> Exc response;
  mkdir_ok : nat -> jsstring -> bool;
  writeFile_ok : nat -> jsstring -> bool }.

Record Disk : Type := {
  tick : nat;
  dirs : gset jsstring;
  files : gmap jsstring (list byte) }.

Definition next (d : Disk) : Disk :=
  {| tick := S (tick d); dirs := dirs d; files := files d |}.

(** [Buffer.from(response.data)] *)
Definition buffer_from (data : option (list byte)) : Exc (list byte) :=
  match data with
  | Some b => Ret b
  | None => Throw (Runtime NotBufferLike)
  end.

(** [await mkdir(dir, { recursive: true })] *)
Definition mkdir (env : Env) (dir : jsstring) (d : Disk) : Exc Disk :=
  if mkdir_ok env (tick d) dir then
    Ret {| tick := tick d; dirs := {[dir]} ∪ dirs d; files := files d |}
  else Throw (ErrorObject (js "mkdir")).

(** [await writeFile(path, buffer)] *)
Definition writeFile (env : Env) (path : jsstring) (buffer : list byte)
    (d : Disk) : Exc Disk :=
  if writeFile_ok env (tick d) path then
    Ret {| tick := tick d; dirs := dirs d; files := <[path := buffer]> (files d) |}
  else Throw (ErrorObject (js "writeFile")).

Definition allowed_extensions : list jsstring :=
  List.map js ["jpg"; "jpeg"; "png"; "gif"; "webp"; "svg"]%string.

Definition extMap : list (jsstring * jsstring) :=
  [(js "image/jpeg", js "jpg"); (js "image/png", js "png");
   (js "image/gif", js "gif"); (js "image/webp", js "webp");
   (js "image/svg+xml", js "svg")].

(** [imageUrl.split('.').pop()?.split('?')[0]] *)
Definition urlExtension (imageUrl : jsstring) : option jsstring :=
  match pop (split 46 imageUrl) with
  | Some tail => head (split 63 tail)
  | None => None
  end.

(** Lines 127 to 140: the extension, as the value later interpolated. *)
Definition extension_of (imageUrl : jsstring) (contentType : option jsstring)
    : property :=
  let fromContentType :=
    match contentType with
    | Some ct =>
        if truthy ct then
          match get extMap ct with
          | Some (Own v) => if truthy v then Own v else Own (js "jpg")
          | Some (Inherited name) => Inherited name
          | None => Own (js "jpg")
          end
        else Own (js "jpg")
    | None => Own (js "jpg")
    end in
  match urlExtension imageUrl with
  | Some ext =>
      if truthy ext && includes allowed_extensions (toLowerCase ext)
      then Own (toLowerCase ext)
      else fromContentType
  | None => fromContentType
  end.

(** [`job-${jobId}-${index}.${extension}`] *)
Definition filename_of (jobId : jsstring) (index : nat) (extension : property)
    : jsstring :=
  js "job-" ++ jobId ++ js "-" ++ decimal (N.of_nat index) ++ js "."
    ++ to_string extension.

(** [`/${publicDir.replace('public/', '')}/${filename}`] *)
Definition public_path (publicDir filename : jsstring) : jsstring :=
  js "/" ++ replace_str (js "public/") [] publicDir ++ js "/" ++ filename.

(** The body of the [try] of [downloadImage]; the disk it leaves behind
    is returned also when it throws. *)
Definition downloadImage_try (env : Env) (imageUrl jobId : jsstring)
    (index : nat) (publicDir : jsstring) (d : Disk) : Exc jsstring * Disk :=
  match http_get env (tick d) imageUrl with
  | Throw t => (Throw t, d)
  | Ret response =>
      match buffer_from (resp_data response) with
      | Throw t => (Throw t, d)
      | Ret buffer =>
          let extension := extension_of imageUrl (content_type response) in
          let filename := filename_of jobId index extension in
          let fullPublicDir := join [cwd env; publicDir] in
          let filePath := join [fullPublicDir; filename] in
          match mkdir env fullPublicDir d with
          | Throw t => (Throw t, d)
          | Ret d1 =>
              match writeFile env filePath buffer d1 with
              | Throw t => (Throw t, d1)
              | Ret d2 => (Ret (public_path publicDir filename), d2)
              end
          end
      end
  end.

(** [downloadImage]: the [catch] returns the original URL. *)
Definition downloadImage (env : Env) (imageUrl jobId : jsstring)
    (index : nat) (publicDir : jsstring) (d : Disk) : jsstring * Disk :=
  let (r, d') := downloadImage_try env imageUrl jobId index publicDir d in
  (try_catch r (fun _ => imageUrl), next d').

(** The [for] loop of [downloadJobImages], from position [i]. *)
Fixpoint download_loop (env : Env) (jobId publicDir : jsstring)
    (images : list jsstring) (i : nat) (localImagePaths : list jsstring)
    (d : Disk) : list jsstring * Disk :=
  match images with
  | [] => (localImagePaths, d)
  | imageUrl :: rest =>
      let (localPath, d') := downloadImage env imageUrl jobId i publicDir d in
      download_loop env jobId publicDir rest (S i) (localImagePaths ++ [localPath]) d'
  end.

Definition downloadJobImages (env : Env) (jobData : JobData)
    (publicDir : jsstring) (d : Disk) : list jsstring * Disk :=
  if (0 <? List.length (job_images jobData))%nat then
    download_loop env (job_id jobData) publicDir (job_images jobData) 0 [] d
  else ([], d).

(** The disk after the downloads of [images], numbered from [i]. *)
Fixpoint disk_after (env : Env) (jobId publicDir : jsstring)
    (images : list jsstring) (i : nat) (d : Disk) : Disk :=
  match images with
  | [] => d
  | imageUrl :: rest =>
      disk_after env jobId publicDir rest (S i)
        (snd (downloadImage env imageUrl jobId i publicDir d))
  end.

(** The disk as the download of position [i] finds it. *)
Definition disk_before (env : Env) (jobData : JobData) (publicDir : jsstring)
    (d : Disk) (i : nat) : Disk :=
  disk_after env (job_id jobData) publicDir (take i (job_images jobData)) 0 d.

(** The paths of [images], each downloaded on the disk its predecessors left. *)
Fixpoint paths_of (env : Env) (jobId publicDir : jsstring)
    (images : list jsstring) (i : nat) (d : Disk) : list jsstring :=
  match images with
  | [] => []
  | imageUrl :: rest =>
      fst (downloadImage env imageUrl jobId i publicDir d)
        :: paths_of env jobId publicDir rest (S i)
             (snd (downloadImage env imageUrl jobId i publicDir d))
  end.

End Images.

(** ** The catalog file ([handleJobCreatedOrUpdated], [handleJobDeleted]) *)

Module Catalog.

(** [{ ...jobData, slug }] *)
Record StoredJob : Type := {
  data : JobData;
  slug : jsstring }.

Definition stored_id (j : StoredJob) : jsstring := job_id (data j).

(** [data/jobs.json]: absent, unreadable or not JSON, or an array of jobs. *)
Inductive jobs_file : Type :=
| Unreadable
| Holds (jobs : list StoredJob).

Record Site : Type := {
  jobs_json : jobs_file;
  revalidated : list jsstring }.

Record Io : Type := {
  mkdir_succeeds : bool;
  write_succeeds : bool }.

(** The catalog as a reader sees it ([getAllJobs]). *)
Definition catalog (s : Site) : list StoredJob :=
  match jobs_json s with
  | Holds jobs => jobs
  | Unreadable => []
  end.

(** The ids of a catalog, in its order. *)
Definition ids (jobs : list StoredJob) : list jsstring := stored_id <$> jobs.

(** [{ ...jobData, slug }] with the slug of the title. *)
Definition stored (jobData : JobData) : StoredJob :=
  {| data := jobData; slug := createSlug (job_title jobData) |}.

(** [jobs.findIndex(j => j.job_id === id)], [None] for [-1]. *)
Definition findIndex (id : jsstring) (jobs : list StoredJob) : option nat :=
  fst <$> list_find (fun j => stored_id j = id) jobs.

(** Lines 115 to 123 of [handleJobCreatedOrUpdated]. *)
Definition upsert (jobs : list StoredJob) (jobData : JobData) : list StoredJob :=
  let slug := createSlug (job_title jobData) in
  let existingIndex := findIndex (job_id jobData) jobs in
  let jobWithSlug := {| data := jobData; slug := slug |} in
  match existingIndex with
  | Some i => <[i := jobWithSlug]> jobs
  | None => jobs ++ [jobWithSlug]
  end.

(** Nothing in [handleJobCreatedOrUpdated] catches a failing [mkdir] or
    [writeFile]: the caller does. *)
Definition handleJobCreatedOrUpdated (io : Io) (jobData : JobData) (s : Site)
    : Exc unit * Site :=
  if negb (mkdir_succeeds io) then (Throw (ErrorObject (js "mkdir")), s)
  else
    let jobs := catalog s in
    let jobs' := upsert jobs jobData in
    if negb (write_succeeds io) then (Throw (ErrorObject (js "writeFile")), s)
    else
      (Ret tt,
       {| jobs_json := Holds jobs';
          revalidated := revalidated s
            ++ [js "/jobs/" ++ createSlug (job_title jobData); js "/jobs"] |}).

(** The [try] of [handleJobDeleted]. *)
Definition handleJobDeleted_try (io : Io) (jobData : JobData) (s : Site)
    : Exc unit * Site :=
  match jobs_json s with
  | Unreadable => (Throw (ErrorObject (js "readFile")), s)
  | Holds jobs =>
      let jobs' := filter (fun j => stored_id j ≠ job_id jobData) jobs in
      if negb (write_succeeds io) then (Throw (ErrorObject (js "writeFile")), s)
      else (Ret tt, {| jobs_json := Holds jobs';
                       revalidated := revalidated s ++ [js "/jobs"] |})
  end.

(** [handleJobDeleted]: the [catch] only logs. *)
Definition handleJobDeleted (io : Io) (jobData : JobData) (s : Site)
    : Exc unit * Site :=
  let (r, s') := handleJobDeleted_try io jobData s in
  (Ret (try_catch r (fun _ => tt)), s').

End Catalog.

(** ** Registration ([registerWebhook], [unregisterWebhook]) *)

Module Http.

Record request : Type := {
  method : jsstring;
  url : jsstring;
  webhook_url : option jsstring;
  events : option (list jsstring);
  authorization : jsstring;
  json_content_type : bool }.

(** [response.data] of a resolved call: [null] or [undefined], or an
    object with its [webhook_id], if any. *)
Inductive response_data : Type :=
| Nullish
| Object (webhook_id : option jsstring).

(** A string or [undefined] inside a template literal. *)
Definition interpolate (s : option jsstring) : jsstring :=
  match s with Some x => x | None => js "undefined" end.

Definition bearer (config : SDKConfig) : jsstring :=
  js "Bearer " ++ interpolate (apiKey config).

Definition register_request (config : SDKConfig) (webhookUrl : jsstring)
    (evs : list jsstring) : request :=
  {| method := js "POST";
     url := apiUrl config ++ js "/api/webhooks/register";
     webhook_url := Some webhookUrl; events := Some evs;
     authorization := bearer config; json_content_type := true |}.

Definition unregister_request (config : SDKConfig) (webhookId : jsstring)
    : request :=
  {| method := js "DELETE";
     url := apiUrl config ++ js "/api/webhooks/" ++ webhookId;
     webhook_url := None; events := None;
     authorization := bearer config; json_content_type := false |}.

(** [response.data.webhook_id] *)
Definition read_webhook_id (d : response_data) : Exc (option jsstring) :=
  match d with
  | Nullish => Throw (Runtime NullishProperty)
  | Object id => Ret id
  end.

(** [events: string[] = ['job.created']]: the default replaces [undefined]. *)
Definition events_or_default (evs : option (list jsstring)) : list jsstring :=
  match evs with Some l => l | None => [js "job.created"] end.

Definition failure (t : text) : WebhookRegistrationResponse :=
  {| success := false; webhook_id := None; reg_error := Some t |}.

End Http.

Import Http.

Module IndexTsClient.

(** [`HTTP ${error.response?.status}: ${error.response?.statusText}`] *)
Definition http_text (r : option http_status) : text :=
  Text (js "HTTP " ++ interpolate (decimal ∘ status <$> r) ++ js ": "
        ++ interpolate (statusText <$> r)).

Definition on_error (t : thrown) : WebhookRegistrationResponse :=
  if isAxiosError t then failure (http_text (response t))
  else failure (message_or "Unknown error" t).

Definition registerWebhook (config : SDKConfig)
    (axios : request -> Exc response_data) (webhookUrl : jsstring)
    (evs : option (list jsstring)) : WebhookRegistrationResponse :=
  try_catch
    (r ← axios (register_request config webhookUrl (events_or_default evs));
     id ← read_webhook_id r;
     Ret {| success := true; webhook_id := id; reg_error := None |})
    on_error.

Definition unregisterWebhook (config : SDKConfig)
    (axios : request -> Exc response_data) (webhookId : jsstring)
    : WebhookRegistrationResponse :=
  try_catch
    (_ ← axios (unregister_request config webhookId);
     Ret {| success := true; webhook_id := None; reg_error := None |})
    on_error.

End IndexTsClient.

Module SecondCopyClient.

(** [`HTTP ${error.response.status}: ${error.response.statusText}`] *)
Definition http_text (r : http_status) : text :=
  Text (js "HTTP " ++ decimal (status r) ++ js ": " ++ statusText r).

Definition on_error (t : thrown) : WebhookRegistrationResponse :=
  match response t with
  | Some r => failure (http_text r)
  | None => failure (message_or "Unknown error" t)
  end.

Definition registerWebhook (config : SDKConfig)
    (axios : request -> Exc response_data) (webhookUrl : jsstring)
    (evs : option (list jsstring)) : WebhookRegistrationResponse :=
  try_catch
    (r ← axios (register_request config webhookUrl (events_or_default evs));
     id ← read_webhook_id r;
     Ret {| success := true; webhook_id := id; reg_error := None |})
    on_error.

Definition unregisterWebhook (config : SDKConfig)
    (axios : request -> Exc response_data) (webhookId : jsstring)
    : WebhookRegistrationResponse :=
  try_catch
    (_ ← axios (unregister_request config webhookId);
     Ret {| success := true; webhook_id := None; reg_error := None |})
    on_error.

End SecondCopyClient.

(** ** Reference definitions *)

(** A string of hex digits only, of any length. *)
Definition is_hex_digit (c : N) : bool :=
  match hex_val c with Some _ => true | None => false end.

Definition is_hex_string (s : jsstring) : bool := forallb is_hex_digit s.


(** The signature that [verifyWebhook] expects for a body and a secret. *)
Definition signature_of (secret_ body : jsstring) : jsstring :=
  to_hex (hmac_sha256 (utf8 secret_) (utf8 body)).

(** The secret that [verifyWebhook] ends up using, if any. *)
Definition effective_secret (config : SDKConfig) (secret_arg : option jsstring)
    : option jsstring :=
  match or_else secret_arg (secret config) with
  | Some s => if truthy s then Some s else None
  | None => None
  end.

(** A failed verification. *)
Definition rejected (t : text) : WebhookVerificationResult :=
  {| isValid := false; payload := None; error := Some t |}.

(** The slug in four steps, on lists. *)
Module SlugSteps.

Fixpoint strip_leading (p : N -> bool) (s : jsstring) : jsstring :=
  match s with
  | c :: s' => if p c then strip_leading p s' else s
  | [] => []
  end.

Definition strip_trailing (p : N -> bool) (s : jsstring) : jsstring :=
  rev (strip_leading p (rev s)).

(** Every maximal run of units satisfying [sep] becomes one hyphen;
    [in_run] tells that the run at hand has its hyphen already. *)
Fixpoint collapse (sep : N -> bool) (in_run : bool) (s : jsstring) : jsstring :=
  match s with
  | [] => []
  | c :: s' =>
      if sep c then (if in_run then [] else [hyphen]) ++ collapse sep true s'
      else c :: collapse sep false s'
  end.

(** Length of the leading run of units satisfying [p]. *)
Fixpoint run_length (p : N -> bool) (s : jsstring) : nat :=
  match s with
  | c :: s' => if p c then S (run_length p s') else O
  | [] => O
  end.

(** [s] without its trailing run of units satisfying [p], read from the left. *)
Fixpoint cut_final_run (p : N -> bool) (s : jsstring) : jsstring :=
  match s with
  | [] => []
  | c :: s' => if forallb p s then [] else c :: cut_final_run p s'
  end.

Definition is_separator (c : N) : bool :=
  is_space c || (c =? underscore) || is_hyphen c.

(** Lowercase; keep the units satisfying [keep]; collapse the runs of
    white space, underscores and hyphens; trim the hyphens at both ends. *)
Definition four_steps (keep : N -> bool) (title : jsstring) : jsstring :=
  strip_trailing is_hyphen
    (strip_leading is_hyphen
       (collapse is_separator false
          (List.filter keep (toLowerCase title)))).

(** Step 2 as the specification words it: what is not alphanumeric,
    white space or a hyphen goes. *)
Definition slugify_spec : jsstring -> jsstring :=
  four_steps (fun c => is_alnum c || is_space c || is_hyphen c).

(** Step 2 as [\w] has it: the underscore stays until step 3. *)
Definition slugify_word : jsstring -> jsstring :=
  four_steps (fun c => is_word c || is_space c || is_hyphen c).

End SlugSteps.

(** The extension of an image file, rule by rule. *)
Module ExtensionRules.

Import Images.

Definition occurs (c : N) (s : jsstring) : bool := existsb (fun x => x =? c) s.

(** What follows the last [c] of [s]; all of [s] when it holds no [c]. *)
Fixpoint after_last (c : N) (s : jsstring) : jsstring :=
  match s with
  | [] => []
  | a :: s' =>
      if occurs c s' then after_last c s'
      else if a =? c then s' else s
  end.

(** What precedes the first [c] of [s]. *)
Definition before_first (c : N) (s : jsstring) : jsstring :=
  fst (Json.span (fun x => negb (x =? c)) s).

(** The candidate of [downloadImage]: the text after the last dot of the
    whole URL, up to its first question mark, in lower case. *)
Definition candidate (imageUrl : jsstring) : jsstring :=
  toLowerCase (before_first 63 (after_last 46 imageUrl)).






(** A server that answers every request with one byte of the given
    content type, on a disk that accepts everything. *)
Definition always (contentType : jsstring) : Env :=
  {| cwd := js "/app";
     http_get := fun _ _ =>
       Ret {| resp_data := Some [x00]; content_type := Some contentType |};
     mkdir_ok := fun _ _ => true;
     writeFile_ok := fun _ _ => true |}.

Definition empty_disk : Disk := {| tick := 0; dirs := ∅; files := ∅ |}.

End ExtensionRules.

(** ** The Next.js handler ([createWebhookHandler]) *)

Module Handler.

(** [WebhookConfig] of [types.ts]. *)
Record WebhookConfig : Type := {
  secret : option jsstring;
  endpoint : option jsstring;
  generateStaticPages : option bool;
  pageTemplate : option jsstring;
  outputDir : option jsstring }.

(** [config: WebhookConfig = {}] *)
Definition no_config : WebhookConfig :=
  {| secret := None; endpoint := None; generateStaticPages := None;
     pageTemplate := None; outputDir := None |}.

(** What the handler reads of [req]: the method, the header
    [x-growlocal360-signature] (a string or [undefined]), and what
    [JSON.stringify(req.body)] gives for the body the framework parsed,
    a string unless it throws. *)
Record request : Type := {
  method : jsstring;
  signature_header : option jsstring;
  stringified : Exc jsstring }.

(** [res.status(code).json(...)] with [{ error }] or [{ success: true }]. *)
Inductive reply : Type :=
| Failed (code : N) (error : text)
| Succeeded (code : N).

Definition code_of (r : reply) : N :=
  match r with Failed c _ => c | Succeeded c => c end.

(** [!t] is false for an error text: the engine's messages are not empty. *)
Definition truthy_text (t : text) : bool :=
  match t with Text s => truthy s | RuntimeText _ => true end.

(** [verification.error || 'Invalid signature'] *)
Definition error_or_default (e : option text) : text :=
  match e with
  | Some t => if truthy_text t then t else Text (js "Invalid signature")
  | None => Text (js "Invalid signature")
  end.

Definition createWebhookHandler (sdk : SDKConfig) (config : WebhookConfig)
    (req : request) : reply :=
  if negb (bool_decide (method req = js "POST")) then
    Failed 405 (Text (js "Method not allowed"))
  else
    try_catch
      (match signature_header req with
       | None => Ret (Failed 400 (Text (js "Missing signature header")))
       | Some signature =>
           if negb (truthy signature) then
             Ret (Failed 400 (Text (js "Missing signature header")))
           else
             body ← stringified req;
             let verification :=
               IndexTs.verifyWebhook sdk body signature (secret config) in
             if negb (isValid verification) then
               Ret (Failed 401 (error_or_default (error verification)))
             else Ret (Succeeded 200)
       end)
      (fun _ => Failed 500 (Text (js "Internal server error"))).

End Handler.

(** The handler of the second copy: the same text, over the
    [verifyWebhook] of that copy. *)
Module SecondCopyHandler.

Import Handler.

Definition createWebhookHandler (sdk : SDKConfig) (config : WebhookConfig)
    (req : request) : reply :=
  if negb (bool_decide (method req = js "POST")) then
    Failed 405 (Text (js "Method not allowed"))
  else
    try_catch
      (match signature_header req with
       | None => Ret (Failed 400 (Text (js "Missing signature header")))
       | Some signature =>
           if negb (truthy signature) then
             Ret (Failed 400 (Text (js "Missing signature header")))
           else
             body ← stringified req;
             let verification :=
               SecondCopy.verifyWebhook sdk body signature (secret config) in
             if negb (isValid verification) then
               Ret (Failed 401 (error_or_default (error verification)))
             else Ret (Succeeded 200)
       end)
      (fun _ => Failed 500 (Text (js "Internal server error"))).

End SecondCopyHandler.

(** ** Reading the catalog ([lib/jobs.js], [generateStaticParams],
    [generateMetadata]) *)

Module Readers.

Import Catalog.

(** [getAllJobs]: the array of the file, [[]] when reading or parsing fails. *)
Definition getAllJobs (s : Site) : list StoredJob :=
  match jobs_json s with
  | Holds jobs => jobs
  | Unreadable => []
  end.

(** [jobs.find(job => job.slug === slug)] *)
Definition getJobBySlug (s : Site) (sl : jsstring) : option StoredJob :=
  snd <$> list_find (fun job => slug job = sl) (getAllJobs s).

(** [jobs.map(job => job.slug)] *)
Definition getAllJobSlugs (s : Site) : list jsstring :=
  slug <$> getAllJobs s.

Record params : Type := { param_slug : jsstring }.

(** [slugs.map((slug) => ({ slug: slug }))] *)
Definition generateStaticParams (s : Site) : list params :=
  (fun sl => {| param_slug := sl |}) <$> getAllJobSlugs s.

Record metadata : Type := {
  title : jsstring;
  description : option jsstring }.

(** [str.substring(0, n)] *)
Definition substring0 (n : nat) (str : jsstring) : jsstring := take n str.

Definition generateMetadata (s : Site) (p : params) : metadata :=
  match getJobBySlug s (param_slug p) with
  | None => {| title := js "Job Not Found"; description := None |}
  | Some job =>
      {| title := job_title (data job) ++ js " - " ++ job_city (data job)
                  ++ js ", " ++ job_state (data job);
         description := Some (substring0 160 (job_description (data job))) |}
  end.

End Readers.

(** ** Shapes used by the statements below *)

(** A slug unit: a small Basic Latin letter, a digit or a hyphen. *)
Definition is_slug_unit (c : N) : bool := is_lower c || is_digit c || is_hyphen c.

(** No two hyphens in a row. *)
Fixpoint no_hyphen_pair (s : jsstring) : bool :=
  match s with
  | a :: s' =>
      match s' with
      | b :: _ => negb (is_hyphen a && is_hyphen b)
      | [] => true
      end && no_hyphen_pair s'
  | [] => true
  end.

Definition no_hyphen_first (s : jsstring) : bool :=
  match s with c :: _ => negb (is_hyphen c) | [] => true end.

Definition no_hyphen_last (s : jsstring) : bool :=
  match last s with Some c => negb (is_hyphen c) | None => true end.

(** A well-formed slug: slug units only, no hyphen at either end, no two
    hyphens in a row.  The empty string is one. *)
Definition is_slug (s : jsstring) : bool :=
  forallb is_slug_unit s && no_hyphen_first s && no_hyphen_last s
  && no_hyphen_pair s.

(** A code unit whose lower-case form holds a Basic Latin letter or
    digit: the letters and digits themselves, U+0130 and the Kelvin sign. *)
Definition gives_alnum (c : N) : bool :=
  is_alnum c || (c =? 304) || (c =? 8490).

(** What step 2 of [createSlug] keeps. *)
Definition keeps (c : N) : bool := is_word c || is_space c || is_hyphen c.

(** A hex digit in upper case. *)
Definition hex_upper (c : N) : N := if in_range 97 102 c then c - 32 else c.

(** Every stored job carries the slug of its title. *)
Definition slugs_derived (jobs : list Catalog.StoredJob) : Prop :=
  Forall (fun j => Catalog.slug j = createSlug (job_title (Catalog.data j))) jobs.

(** * Properties *)

(** ** Facts about the runtime model *)

Lemma from_hex_hex_of_byte (b : byte) (s : jsstring) :
  from_hex (hex_of_byte b ++ s) = b :: from_hex s.
Proof. destruct b; reflexivity. Qed.

Lemma from_hex_to_hex (buf : list byte) : from_hex (to_hex buf) = buf.
Proof.
  induction buf as [|b buf IH]; [reflexivity|].
  change (to_hex (b :: buf)) with (hex_of_byte b ++ to_hex buf).
  now rewrite from_hex_hex_of_byte, IH.
Qed.

Lemma hex_of_byte_is_hex (b : byte) : is_hex_string (hex_of_byte b) = true.
Proof. destruct b; reflexivity. Qed.

Lemma to_hex_is_hex (buf : list byte) : is_hex_string (to_hex buf) = true.
Proof.
  induction buf as [|b buf IH]; [reflexivity|].
  change (to_hex (b :: buf)) with (hex_of_byte b ++ to_hex buf).
  pose proof (hex_of_byte_is_hex b) as Hb.
  unfold is_hex_string in *. now rewrite forallb_app, Hb, IH.
Qed.

Lemma hex_digit_not_s (c : N) : is_hex_digit c = true -> (115 =? c) = false.
Proof.
  unfold is_hex_digit, hex_val, is_digit, in_range. intros H.
  apply N.eqb_neq. intros <-. discriminate H.
Qed.

(** A pattern whose first unit does not occur is not found. *)
Lemma replace_str_absent (p0 : N) (pat rep s : jsstring) :
  forallb (fun c => negb (p0 =? c)) s = true ->
  replace_str (p0 :: pat) rep s = s.
Proof.
  induction s as [|c s IH]; intros H; [reflexivity|].
  cbn in H. apply andb_prop in H as [Hc Hs].
  cbn [replace_str starts_with].
  apply negb_true_iff in Hc. rewrite Hc. cbn. now rewrite IH.
Qed.

(** A string of hex digits holds no [sha256=]: [replace] leaves it alone. *)
Lemma replace_str_hex (rep s : jsstring) :
  is_hex_string s = true -> replace_str (js "sha256=") rep s = s.
Proof.
  intros H. apply (replace_str_absent 115 (js "ha256=")).
  unfold is_hex_string in H. rewrite forallb_forall in *.
  intros c Hc. now rewrite hex_digit_not_s by auto.
Qed.

Lemma starts_with_app (pat s : jsstring) : starts_with pat (pat ++ s) = true.
Proof.
  induction pat as [|a pat IH]; [reflexivity|].
  cbn. now rewrite N.eqb_refl, IH.
Qed.

(** The prefix, when it leads the string, is what [replace] removes. *)
Lemma replace_str_found (pat rep s : jsstring) :
  starts_with pat s = true ->
  replace_str pat rep s = rep ++ drop (List.length pat) s.
Proof. intros H. destruct s; cbn [replace_str]; now rewrite H. Qed.

Lemma replace_str_prefix (pat s : jsstring) :
  replace_str pat [] (pat ++ s) = s.
Proof.
  rewrite replace_str_found by apply starts_with_app.
  now rewrite drop_app_length.
Qed.

Lemma word_bytes_length (x : N) : List.length (word_bytes x) = 4%nat.
Proof. reflexivity. Qed.

Lemma sha256_length (msg : list byte) : List.length (sha256 msg) = 32%nat.
Proof. reflexivity. Qed.

Lemma hmac_sha256_length (key msg : list byte) :
  List.length (hmac_sha256 key msg) = 32%nat.
Proof. apply sha256_length. Qed.

Lemma timingSafeEqual_refl (a : list byte) : timingSafeEqual a a = Ret true.
Proof.
  unfold timingSafeEqual, bytes_equal. rewrite Nat.eqb_refl.
  now rewrite bool_decide_eq_true_2.
Qed.

Lemma timingSafeEqual_lengths (a b : list byte) :
  List.length a <> List.length b ->
  timingSafeEqual a b = Throw (Runtime UnequalByteLength).
Proof.
  intros H. unfold timingSafeEqual.
  now destruct (Nat.eqb_spec (List.length a) (List.length b)).
Qed.

(** ** The runtime model on known values *)

(** FIPS 180-4, the one-block message "abc". *)
Example sha256_abc :
  to_hex (sha256 (utf8 (js "abc")))
  = js "ba7816bf8f01cfea414140de5dae2223b00361a396177a9cb410ff61f20015ad".
Proof. vm_compute. reflexivity. Qed.

(** FIPS 180-4, the two-block message. *)
Example sha256_two_blocks :
  to_hex (sha256 (utf8
    (js "abcdbcdecdefdefgefghfghighijhijkijkljklmklmnlmnomnopnopq")))
  = js "248d6a61d20638b8e5c026930c3e6039a33ce45964ff2167f6ecedd419db06c1".
Proof. vm_compute. reflexivity. Qed.

(** RFC 4231, test case 2. *)
Example hmac_sha256_rfc4231_2 :
  signature_of (js "Jefe") (js "what do ya want for nothing?")
  = js "5bdcc146bf60754e6a042426089575c75a003f089d2739839dec58b964ec3843".
Proof. vm_compute. reflexivity. Qed.

(** RFC 4231, test case 6: a key longer than a block is hashed first. *)
Example hmac_sha256_rfc4231_6 :
  to_hex (hmac_sha256 (repeat xaa 131)
            (utf8 (js "Test Using Larger Than Block-Size Key - Hash Key First")))
  = js "60e431591ee0b67f0d8a26aacbf5b77f8e0bc6213728c5140546040f0ee37f54".
Proof. vm_compute. reflexivity. Qed.

(** An en dash, an e with acute accent, a surrogate pair, a lone surrogate. *)
Example utf8_samples :
  to_hex (utf8 [8211; 233; 55357; 56832; 55357]) = js "e28093c3a9f09f9880efbfbd".
Proof. vm_compute. reflexivity. Qed.

Example from_hex_truncates :
  from_hex (js "1ag123") = [x1a] /\ from_hex (js "1a7") = [x1a]
  /\ from_hex (js "1634") = [x16; x34].
Proof. repeat split. Qed.

(** Code units above 255 are decoded by their low byte. *)
Example from_hex_low_byte :
  from_hex [305; 305] = [x11] /\ from_hex [353; 304] = [xa0]
  /\ from_hex (List.map (fun c => c + 256) (js "1a2B")) = [x1a; x2b].
Proof. repeat split. Qed.

Example parse_samples :
  Json.parse (js " [1, -2.5e3, true, null, {}] ")
  = Ret (JArray [JNumber (js "1"); JNumber (js "-2.5e3"); JBool true; JNull;
                 JObject []])
  /\ Json.parse (js "[1,]") = Throw (Runtime JsonSyntax)
  /\ Json.parse (js "01") = Throw (Runtime JsonSyntax)
  /\ Json.parse [] = Throw (Runtime JsonSyntax).
Proof. repeat split. Qed.

Example join_samples :
  join [js "/app"; js "public/jobs"] = js "/app/public/jobs"
  /\ join [js "/app/public/jobs"; js "job-x/../y-0.jpg"]
     = js "/app/public/jobs/y-0.jpg"
  /\ join [js "a"; js "../../b"] = js "../b".
Proof. repeat split. Qed.

Example createSlug_samples :
  createSlug (js "Roof Repair") = js "roof-repair"
  /\ createSlug (js "--A  b_-c--") = js "a-b-c"
  /\ createSlug (js "---") = []
  /\ createSlug (js "a" ++ [160] ++ js "b") = js "a-b".
Proof. repeat split. Qed.

(** ** The fuel of the JSON parser *)

Section JsonFuel.

Import Json.

Lemma skip_ws_length (s : jsstring) :
  (List.length (skip_ws s) <= List.length s)%nat.
Proof.
  induction s as [|c s IH]; [reflexivity|].
  cbn [skip_ws]. destruct (is_ws c); cbn [List.length]; lia.
Qed.

Lemma skip_ws_cons (s r : jsstring) (c : N) :
  skip_ws s = c :: r -> (List.length r < List.length s)%nat.
Proof.
  intros H. pose proof (skip_ws_length s) as L. rewrite H in L.
  cbn [List.length] in L. lia.
Qed.

Lemma string_body_length (s acc str r : jsstring) :
  string_body s acc = Some (str, r) -> (List.length r < List.length s)%nat.
Proof.
  revert acc. induction s as [s IH] using (induction_ltof1 _ (@List.length N)).
  unfold ltof in IH. intros acc H. destruct s as [|c s]; [discriminate|].
  cbn [string_body] in H. destruct (c =? 34).
  { injection H as _ <-. cbn [List.length]. lia. }
  destruct (c =? 92).
  - destruct s as [|e r1]; [discriminate|]. destruct (e =? 117).
    + destruct r1 as [|a [|b [|c' [|d r2]]]]; try discriminate.
      destruct (hex4 a b c' d); [|discriminate].
      apply IH in H; cbn [List.length] in *; lia.
    + destruct (escape e); [|discriminate].
      apply IH in H; cbn [List.length] in *; lia.
  - destruct (c <? 32); [discriminate|].
    apply IH in H; cbn [List.length] in *; lia.
Qed.

Lemma span_length (p : N -> bool) (s : jsstring) :
  (List.length (fst (span p s)) + List.length (snd (span p s)))%nat
  = List.length s.
Proof.
  induction s as [|c s IH]; [reflexivity|].
  cbn [span]. destruct (p c); [|reflexivity].
  destruct (span p s) as [a b]. cbn [fst snd List.length] in *. lia.
Qed.

Lemma digits1_length (s d r : jsstring) :
  digits1 s = Some (d, r) -> (List.length r < List.length s)%nat.
Proof.
  unfold digits1. pose proof (span_length is_digit s) as L.
  destruct (span is_digit s) as [[|x a] b]; [discriminate|].
  intros [= <- <-]. cbn [fst snd List.length] in L. lia.
Qed.

Lemma number_length (s n r : jsstring) :
  number s = Some (n, r) -> (List.length r < List.length s)%nat.
Proof.
  unfold number.
  set (p := match s with
            | c :: r0 => if c =? 45 then ([c], r0) else ([], s)
            | [] => ([], s)
            end).
  assert (Hp : (List.length (snd p) <= List.length s)%nat).
  { subst p. destruct s as [|c r0]; [reflexivity|].
    destruct (c =? 45); cbn [snd List.length]; lia. }
  destruct p as [sign s1]. cbn [snd] in Hp.
  destruct s1 as [|c r0]; [discriminate|].
  set (int := if c =? 48 then Some ([c], r0) else digits1 (c :: r0)).
  assert (Hi : forall i s2, int = Some (i, s2) ->
                            (List.length s2 < List.length (c :: r0))%nat).
  { subst int. intros i s2. destruct (c =? 48).
    - intros [= <- <-]. cbn [List.length]. lia.
    - apply digits1_length. }
  destruct int as [[i s2]|]; [|discriminate].
  specialize (Hi i s2 eq_refl).
  set (frac := match s2 with
               | c2 :: r2 =>
                   if c2 =? 46 then
                     match digits1 r2 with
                     | Some (d, r3) => Some (c2 :: d, r3)
                     | None => None
                     end
                   else Some ([], s2)
               | [] => Some ([], s2)
               end).
  assert (Hf : forall f s3, frac = Some (f, s3) ->
                            (List.length s3 <= List.length s2)%nat).
  { subst frac. intros f s3. destruct s2 as [|c2 r2]; [now intros [= <- <-]|].
    destruct (c2 =? 46); [|now intros [= <- <-]].
    destruct (digits1 r2) as [[d r3]|] eqn:E; [|discriminate].
    intros [= <- <-]. apply digits1_length in E. cbn [List.length]. lia. }
  destruct frac as [[f s3]|]; [|discriminate].
  specialize (Hf f s3 eq_refl).
  match goal with
  | |- match ?e with _ => _ end = _ -> _ => set (exp := e)
  end.
  assert (He : forall e s4, exp = Some (e, s4) ->
                            (List.length s4 <= List.length s3)%nat).
  { subst exp. intros e s4. destruct s3 as [|c3 r3]; [now intros [= <- <-]|].
    destruct ((c3 =? 101) || (c3 =? 69)); [|now intros [= <- <-]].
    match goal with
    | |- (let (_, _) := ?q in _) = _ -> _ => set (sg := q)
    end.
    assert (Hs : (List.length (snd sg) <= List.length r3)%nat).
    { subst sg. destruct r3 as [|c4 r5]; [reflexivity|].
      destruct ((c4 =? 43) || (c4 =? 45)); cbn [snd List.length]; lia. }
    destruct sg as [sg r4]. cbn [snd] in Hs.
    destruct (digits1 r4) as [[d r6]|] eqn:E; [|discriminate].
    intros [= <- <-]. apply digits1_length in E. cbn [List.length]. lia. }
  destruct exp as [[e s4]|]; [|discriminate].
  specialize (He e s4 eq_refl). intros [= <- <-]. lia.
Qed.

Lemma starts_with_length (pat s : jsstring) :
  starts_with pat s = true -> (List.length pat <= List.length s)%nat.
Proof.
  revert s. induction pat as [|a pat IH]; intros s H; [cbn; lia|].
  destruct s as [|b s]; [discriminate|]. cbn in H.
  apply andb_prop in H as [_ H]. apply IH in H. cbn [List.length]. lia.
Qed.

Lemma literal_length (w : string) (v x : json) (s r : jsstring) :
  w <> EmptyString -> literal w v s = Some (x, r) ->
  (List.length r < List.length s)%nat.
Proof.
  unfold literal. intros Hw. destruct (starts_with (js w) s) eqn:E; [|discriminate].
  intros [= _ <-]. apply starts_with_length in E. rewrite length_drop.
  assert (List.length (js w) = String.length w) as L.
  { unfold js. rewrite length_map. clear. induction w; cbn; congruence. }
  destruct w; [congruence|]. cbn [String.length] in *. lia.
Qed.

(** Collects what the hypotheses say about lengths. *)
Ltac lengths :=
  repeat match goal with
    | H : skip_ws ?s = _ :: ?r |- _ =>
        lazymatch goal with
        | _ : (List.length r < List.length s)%nat |- _ => fail
        | _ => pose proof (skip_ws_cons s r _ H)
        end
    | H : string_body ?s ?acc = Some (_, ?r) |- _ =>
        lazymatch goal with
        | _ : (List.length r < List.length s)%nat |- _ => fail
        | _ => pose proof (string_body_length s acc _ r H)
        end
    | H : number ?s = Some (_, ?r) |- _ =>
        lazymatch goal with
        | _ : (List.length r < List.length s)%nat |- _ => fail
        | _ => pose proof (number_length s _ r H)
        end
    | H : literal ?w ?v ?s = Some (_, ?r) |- _ =>
        lazymatch goal with
        | _ : (List.length r < List.length s)%nat |- _ => fail
        | _ => pose proof (literal_length w v _ s r ltac:(discriminate) H)
        end
    end.

(** Splits the matches of a hypothesis [H : ... = Some _]. *)
Ltac cases H :=
  repeat match type of H with
    | match ?e with _ => _ end = _ => destruct e eqn:?; try discriminate H
    | (if ?e then _ else _) = _ => destruct e eqn:?; try discriminate H
    end.

(** A successful parse consumes input. *)
Lemma parse_consumes (f : nat) :
  (forall s v r, value f s = Some (v, r) ->
                 (List.length r < List.length s)%nat)
  /\ (forall s acc v r, elements f s acc = Some (v, r) ->
                        (List.length r < List.length s)%nat)
  /\ (forall s acc v r, members f s acc = Some (v, r) ->
                        (List.length r < List.length s)%nat).
Proof.
  induction f as [|f (IHv & IHe & IHm)]; [repeat split; discriminate|].
  repeat split.
  - intros s v r H. cbn [value] in H. cases H;
      try (injection H as <- <-); subst; lengths;
      try (apply IHm in H); try (apply IHe in H);
      cbn [List.length] in *; lia.
  - intros s acc v r H. cbn [elements] in H.
    destruct (value f s) as [[v0 r0]|] eqn:E; [|discriminate].
    apply IHv in E. cases H; try (injection H as <- <-); subst; lengths;
      try (apply IHe in H); cbn [List.length] in *; lia.
  - intros s acc v r H. cbn [members] in H.
    destruct (skip_ws s) as [|c r0] eqn:E0; [discriminate|].
    destruct (c =? 34); [|discriminate].
    destruct (string_body r0 []) as [[key r1]|] eqn:E1; [|discriminate].
    destruct (skip_ws r1) as [|c1 r2] eqn:E2; [discriminate|].
    destruct (c1 =? 58); [|discriminate].
    destruct (value f r2) as [[v0 r3]|] eqn:E3; [|discriminate].
    apply IHv in E3. cases H; try (injection H as <- <-); subst; lengths;
      try (apply IHm in H); cbn [List.length] in *; lia.
Qed.

(** More fuel does not change a successful parse. *)
Lemma parse_fuel_step (f : nat) :
  (forall s x, value f s = Some x -> value (S f) s = Some x)
  /\ (forall s acc x, elements f s acc = Some x -> elements (S f) s acc = Some x)
  /\ (forall s acc x, members f s acc = Some x -> members (S f) s acc = Some x).
Proof.
  induction f as [|f (IHv & IHe & IHm)]; [repeat split; discriminate|].
  repeat split.
  - intros s x H. cbn [value] in H |- *.
    destruct (skip_ws s) as [|c r]; [discriminate|].
    destruct (c =? 123).
    { destruct (skip_ws r) as [|d r']; [discriminate|].
      destruct (d =? 125); [exact H|]. now apply IHm. }
    destruct (c =? 91); [|exact H].
    destruct (skip_ws r) as [|d r']; [discriminate|].
    destruct (d =? 93); [exact H|]. now apply IHe.
  - intros s acc x H. cbn [elements] in H. change (elements (S (S f)) s acc) with
      (match value (S f) s with
       | None => None
       | Some (v, r) =>
           match skip_ws r with
           | c :: r' =>
               if c =? 44 then elements (S f) r' (v :: acc)
               else if c =? 93 then Some (JArray (rev (v :: acc)), r')
               else None
           | [] => None
           end
       end).
    destruct (value f s) as [[v r]|] eqn:E; [|discriminate].
    rewrite (IHv _ _ E).
    destruct (skip_ws r) as [|c r']; [discriminate|].
    destruct (c =? 44); [now apply IHe|exact H].
  - intros s acc x H. cbn [members] in H. change (members (S (S f)) s acc) with
      (match skip_ws s with
       | c :: r =>
           if c =? 34 then
             match string_body r [] with
             | None => None
             | Some (key, r1) =>
                 match skip_ws r1 with
                 | c1 :: r2 =>
                     if c1 =? 58 then
                       match value (S f) r2 with
                       | None => None
                       | Some (v, r3) =>
                           match skip_ws r3 with
                           | c3 :: r4 =>
                               if c3 =? 44 then members (S f) r4 ((key, v) :: acc)
                               else if c3 =? 125 then
                                 Some (JObject (rev ((key, v) :: acc)), r4)
                               else None
                           | [] => None
                           end
                       end
                     else None
                 | [] => None
                 end
             end
           else None
       | [] => None
       end).
    destruct (skip_ws s) as [|c r]; [discriminate|].
    destruct (c =? 34); [|discriminate].
    destruct (string_body r []) as [[key r1]|]; [|discriminate].
    destruct (skip_ws r1) as [|c1 r2]; [discriminate|].
    destruct (c1 =? 58); [|discriminate].
    destruct (value f r2) as [[v r3]|] eqn:E; [|discriminate].
    rewrite (IHv _ _ E).
    destruct (skip_ws r3) as [|c3 r4]; [discriminate|].
    destruct (c3 =? 44); [now apply IHm|exact H].
Qed.

Lemma value_fuel_more (f f' : nat) (s : jsstring) (x : json * jsstring) :
  (f <= f')%nat -> value f s = Some x -> value f' s = Some x.
Proof.
  induction 1 as [|f' _ IH]; [easy|].
  intros H. now apply parse_fuel_step, IH.
Qed.

(** A parse that succeeds with some fuel succeeds with twice the length
    of the input and a little more. *)
Lemma parse_fuel_bound (f' : nat) :
  (forall s x, value f' s = Some x ->
     forall f, (2 * List.length s + 2 <= f)%nat -> value f s = Some x)
  /\ (forall s acc x, elements f' s acc = Some x ->
     forall f, (2 * List.length s + 3 <= f)%nat -> elements f s acc = Some x)
  /\ (forall s acc x, members f' s acc = Some x ->
     forall f, (2 * List.length s + 3 <= f)%nat -> members f s acc = Some x).
Proof.
  induction f' as [|f' (IHv & IHe & IHm)]; [repeat split; discriminate|].
  repeat split.
  - intros s x H [|g] Hf; [lia|]. cbn [value] in H |- *.
    destruct (skip_ws s) as [|c r] eqn:E0; [discriminate|]. lengths.
    destruct (c =? 123).
    { destruct (skip_ws r) as [|d r']; [discriminate|].
      destruct (d =? 125); [exact H|]. apply (IHm _ _ _ H). lia. }
    destruct (c =? 91); [|exact H].
    destruct (skip_ws r) as [|d r']; [discriminate|].
    destruct (d =? 93); [exact H|]. apply (IHe _ _ _ H). lia.
  - intros s acc x H [|g] Hf; [lia|]. cbn [elements] in H |- *.
    destruct (value f' s) as [[v r]|] eqn:E; [|discriminate].
    rewrite (IHv _ _ E g) by lia.
    apply (proj1 (parse_consumes f')) in E.
    destruct (skip_ws r) as [|c r'] eqn:E1; [discriminate|]. lengths.
    destruct (c =? 44); [|exact H]. apply (IHe _ _ _ H). lia.
  - intros s acc x H [|g] Hf; [lia|]. cbn [members] in H |- *.
    destruct (skip_ws s) as [|c r] eqn:E0; [discriminate|].
    destruct (c =? 34); [|discriminate].
    destruct (string_body r []) as [[key r1]|] eqn:E1; [|discriminate].
    destruct (skip_ws r1) as [|c1 r2] eqn:E2; [discriminate|].
    destruct (c1 =? 58); [|discriminate]. lengths.
    destruct (value f' r2) as [[v r3]|] eqn:E; [|discriminate].
    rewrite (IHv _ _ E g) by lia.
    apply (proj1 (parse_consumes f')) in E.
    destruct (skip_ws r3) as [|c3 r4] eqn:E3; [discriminate|]. lengths.
    destruct (c3 =? 44); [|exact H]. apply (IHm _ _ _ H). lia.
Qed.

(** The fuel [JSON.parse] is given is enough: more of it gives the same
    result, be it a value or a SyntaxError. *)
Lemma parse_fuel_enough (s : jsstring) (f : nat) :
  (2 * List.length s + 2 <= f)%nat ->
  value f s = value (2 * List.length s + 2) s.
Proof.
  intros Hf. destruct (value (2 * List.length s + 2) s) as [x|] eqn:E.
  - now apply (value_fuel_more _ f) in E.
  - destruct (value f s) as [x|] eqn:E'; [|reflexivity].
    apply (proj1 (parse_fuel_bound f)) with (f := (2 * List.length s + 2)%nat) in E';
      [congruence|lia].
Qed.

End JsonFuel.

(** ** The slug *)

Section Slug.

Import SlugSteps.

Lemma replace_class (p : N -> bool) (s : jsstring) (pos : nat) :
  replace_from (Class p) [] pos 0 s = List.filter (fun c => negb (p c)) s.
Proof.
  revert pos. induction s as [|c s IH]; intros pos; [reflexivity|].
  cbn [replace_from exec_at rmatch List.filter].
  destruct (p c); cbn [negb app].
  - destruct (Nat.leb_spec (S pos) pos); [exfalso; lia|].
    replace (S pos - pos - 1)%nat with 0%nat by lia. apply IH.
  - f_equal. apply IH.
Qed.

(** With nothing to follow, [+] takes the whole run. *)
Lemma plus_match_greedy (p : N -> bool) (s : jsstring) (pos : nat) :
  plus_match p pos s (fun e _ => Some e) =
  match run_length p s with
  | O => None
  | S n => Some (pos + S n)%nat
  end.
Proof.
  revert pos. induction s as [|c s IH]; intros pos; [reflexivity|].
  cbn [plus_match run_length]. destruct (p c); [|reflexivity].
  rewrite IH. destruct (run_length p s); cbn [first_of]; f_equal; lia.
Qed.

Lemma leb_after (pos n : nat) : (pos + S n <=? pos)%nat = false.
Proof. apply Nat.leb_gt. lia. Qed.

Lemma leb_past (e pos : nat) : (pos < e)%nat -> (e <=? pos)%nat = false.
Proof. apply Nat.leb_gt. Qed.

Lemma replace_plus (p : N -> bool) (s : jsstring) (pos : nat) :
  replace_from (Plus p) [hyphen] pos (run_length p s) s = collapse p true s
  /\ replace_from (Plus p) [hyphen] pos 0 s = collapse p false s.
Proof.
  revert pos. induction s as [|c s IH]; intros pos; [split; reflexivity|].
  destruct (IH (S pos)) as [IHrun IH0].
  cbn [run_length collapse].
  destruct (p c) eqn:Hp.
  - split; [exact IHrun|].
    cbn [replace_from]. unfold exec_at. cbn [rmatch].
    rewrite plus_match_greedy. cbn [run_length]. rewrite Hp, leb_after.
    replace (pos + S (run_length p s) - pos - 1)%nat with (run_length p s) by lia.
    now rewrite IHrun.
  - assert (H0 : replace_from (Plus p) [hyphen] pos 0 (c :: s)
                 = c :: collapse p false s).
    { cbn [replace_from]. unfold exec_at. cbn [rmatch].
      rewrite plus_match_greedy. cbn [run_length]. rewrite Hp.
      now rewrite IH0. }
    split; exact H0.
Qed.

(** With the end of the string to follow, [+] must reach it. *)
Lemma plus_match_to_end (p : N -> bool) (s : jsstring) (pos : nat) :
  plus_match p pos s
    (fun e s' => rmatch Eol e s' (fun e' _ => Some e')) =
  match s with
  | [] => None
  | _ :: _ => if forallb p s then Some (pos + List.length s)%nat else None
  end.
Proof.
  revert pos. induction s as [|c s IH]; intros pos; [reflexivity|].
  cbn [plus_match forallb]. destruct (p c); [|reflexivity].
  rewrite IH. cbn [andb]. destruct s as [|d s]; cbn [first_of rmatch forallb].
  - f_equal. cbn. lia.
  - destruct (p d && forallb p s); cbn [first_of]; [|reflexivity].
    f_equal. cbn [List.length]. lia.
Qed.

Lemma exec_edge_inside (s : jsstring) (pos : nat) :
  exec_at re_edge_hyphens (S pos) s =
  match s with
  | [] => None
  | _ :: _ => if forallb is_hyphen s then Some (S pos + List.length s)%nat else None
  end.
Proof.
  unfold exec_at, re_edge_hyphens. cbn [rmatch first_of].
  apply plus_match_to_end.
Qed.

Lemma replace_edge_skip_all (s : jsstring) (pos : nat) :
  replace_from re_edge_hyphens [] (S pos) (List.length s) s = [].
Proof.
  revert pos. induction s as [|c s IH]; intros pos; [reflexivity|].
  cbn [List.length replace_from]. apply IH.
Qed.

Lemma replace_edge_inside (s : jsstring) (pos : nat) :
  replace_from re_edge_hyphens [] (S pos) 0 s = cut_final_run is_hyphen s.
Proof.
  revert pos. induction s as [|c s IH]; intros pos; [reflexivity|].
  unfold replace_from; fold replace_from. rewrite exec_edge_inside.
  cbn [cut_final_run]. destruct (forallb is_hyphen (c :: s)).
  - rewrite leb_past by (cbn [List.length]; lia). cbn [app].
    replace (S pos + List.length (c :: s) - S pos - 1)%nat with (List.length s)
      by (cbn [List.length]; lia).
    apply replace_edge_skip_all.
  - f_equal. apply IH.
Qed.
Lemma replace_edge_skip_run (s : jsstring) (pos : nat) :
  replace_from re_edge_hyphens [] (S pos) (run_length is_hyphen s) s =
  cut_final_run is_hyphen (strip_leading is_hyphen s).
Proof.
  revert pos. induction s as [|c s IH]; intros pos; [reflexivity|].
  cbn [run_length strip_leading]. destruct (is_hyphen c) eqn:Hc.
  - cbn [replace_from]. apply IH.
  - apply replace_edge_inside.
Qed.

Lemma replace_edge (s : jsstring) :
  replace_g re_edge_hyphens [] s =
  cut_final_run is_hyphen (strip_leading is_hyphen s).
Proof.
  unfold replace_g. destruct s as [|c s]; [reflexivity|].
  unfold replace_from; fold replace_from.
  unfold exec_at, re_edge_hyphens; cbn [rmatch]. fold re_edge_hyphens.
  rewrite plus_match_greedy.
  change (fun e s' => rmatch Eol e s' (fun e' _ => Some e'))
    with (fun e s' => rmatch Eol e s' (fun e' (_ : jsstring) => Some e')).
  rewrite plus_match_to_end.
  cbn [run_length strip_leading forallb]. destruct (is_hyphen c) eqn:Hc.
  - cbn [first_of app Nat.add]. rewrite leb_past by lia.
    replace (S (run_length is_hyphen s) - 0 - 1)%nat
      with (run_length is_hyphen s) by lia.
    apply replace_edge_skip_run.
  - cbn [andb first_of cut_final_run forallb]. rewrite Hc. cbn [andb].
    f_equal. apply replace_edge_inside.
Qed.

Lemma strip_leading_snoc (p : N -> bool) (l : jsstring) (c : N) :
  strip_leading p (l ++ [c]) =
  if forallb p l then (if p c then [] else [c]) else strip_leading p l ++ [c].
Proof.
  induction l as [|a l IH]; [reflexivity|].
  cbn [app strip_leading forallb]. destruct (p a); [exact IH|reflexivity].
Qed.

Lemma forallb_rev (p : N -> bool) (l : jsstring) :
  forallb p (rev l) = forallb p l.
Proof.
  induction l as [|a l IH]; [reflexivity|].
  cbn [rev forallb]. rewrite forallb_app, IH. cbn. 
  destruct (p a), (forallb p l); reflexivity.
Qed.

Lemma cut_final_run_all (p : N -> bool) (s : jsstring) :
  forallb p s = true -> cut_final_run p s = [].
Proof. destruct s; intros H; [reflexivity|]. cbn [cut_final_run]. now rewrite H. Qed.

Lemma cut_final_run_strip (p : N -> bool) (s : jsstring) :
  cut_final_run p s = strip_trailing p s.
Proof.
  unfold strip_trailing. induction s as [|c s IH]; [reflexivity|].
  cbn [cut_final_run rev]. rewrite strip_leading_snoc, forallb_rev.
  cbn [forallb]. destruct (forallb p s) eqn:Hs.
  - rewrite andb_true_r. destruct (p c); [reflexivity|].
    now rewrite cut_final_run_all.
  - rewrite andb_false_r, rev_app_distr. cbn [rev app]. now rewrite IH.
Qed.

End Slug.

(** C5, as the code has it: [createSlug] is a function of the title alone
    and equals the four steps, step 2 removing every unit that is not a
    word unit of the regular expression (a Basic Latin letter or digit, or
    the underscore), white space or a hyphen; the title
    "Plumbing Repair – 4th St!" gives "plumbing-repair-4th-st". *)
Theorem createSlug_four_steps :
  (forall title, createSlug title = SlugSteps.slugify_word title)
  /\ createSlug (js "Plumbing Repair " ++ [8211] ++ js " 4th St!")
     = js "plumbing-repair-4th-st".
Proof.
  split; [|reflexivity]. intros title.
  unfold createSlug, SlugSteps.slugify_word, SlugSteps.four_steps.
  rewrite replace_edge, cut_final_run_strip. do 2 f_equal.
  unfold replace_g at 1.
  change (js "-") with [hyphen]. unfold re_separators.
  rewrite (proj2 (replace_plus _ _ 0%nat)).
  change (fun c => is_space c || (c =? underscore) || is_hyphen c)
    with SlugSteps.is_separator.
  f_equal. unfold replace_g, re_not_word_space_hyphen.
  rewrite replace_class. apply filter_ext. intros c. apply negb_involutive.
Qed.

(** C5 as stated fails at the title "a_b": the code keeps the underscore in
    step 2 and turns it into a hyphen in step 3, the four steps of the
    specification remove it in step 2. *)
Lemma createSlug_underscore_counterexample :
  createSlug (js "a_b") = js "a-b"
  /\ SlugSteps.slugify_spec (js "a_b") = js "ab"
  /\ createSlug (js "a_b") <> SlugSteps.slugify_spec (js "a_b").
Proof. repeat split. discriminate. Qed.

(** ** Webhook verification *)

Section Verify.

Import IndexTs.

Variable config : SDKConfig.

Lemma or_else_truthy (s : jsstring) (fallback : option jsstring) :
  s <> [] -> or_else (Some s) fallback = Some s.
Proof. destruct s; [congruence|reflexivity]. Qed.

(** The three outcomes of [verifyWebhook] once a secret is at hand. *)
Lemma verifyWebhook_with_secret (body signature key : jsstring)
    (secret_arg : option jsstring) :
  effective_secret config secret_arg = Some key ->
  verifyWebhook config body signature secret_arg =
  let given := from_hex (replace_str (js "sha256=") [] signature) in
  let expected := hmac_sha256 (utf8 key) (utf8 body) in
  if negb (List.length given =? 32)%nat
  then rejected (RuntimeText UnequalByteLength)
  else if negb (bool_decide (expected = given))
  then rejected (Text (js "Invalid signature"))
  else match Json.parse body with
       | Ret v => {| isValid := true; payload := Some v; error := None |}
       | Throw _ => rejected (RuntimeText JsonSyntax)
       end.
Proof.
  unfold effective_secret, verifyWebhook, verifyWebhook_try. intros Hk.
  destruct (or_else secret_arg (secret config)) as [s|]; [|discriminate].
  destruct (truthy s) eqn:Hs; [|discriminate].
  injection Hk as ->. cbn [negb].
  rewrite from_hex_to_hex. unfold timingSafeEqual.
  rewrite hmac_sha256_length.
  generalize (hmac_sha256 (utf8 key) (utf8 body)); intros expected.
  generalize (from_hex (replace_str (js "sha256=") [] signature)); intros given.
  cbn zeta. rewrite (Nat.eqb_sym (List.length given)).
  destruct (32 =? List.length given)%nat; cbn [negb]; [|reflexivity].
  unfold bytes_equal. cbn [mbind Exc_bind bind].
  destruct (bool_decide (expected = given)); cbn [negb]; [|reflexivity].
  unfold Json.parse.
  destruct (value _ body) as [[v r]|]; [|reflexivity].
  destruct (skip_ws r); reflexivity.
Qed.

Lemma verifyWebhook_without_secret (body signature : jsstring)
    (secret_arg : option jsstring) :
  effective_secret config secret_arg = None ->
  verifyWebhook config body signature secret_arg =
  rejected (Text (js "No webhook secret provided")).
Proof.
  unfold effective_secret, verifyWebhook, verifyWebhook_try. intros Hk.
  destruct (or_else secret_arg (secret config)) as [s|]; [|reflexivity].
  destruct (truthy s); [discriminate|reflexivity].
Qed.

Lemma effective_secret_arg (s : jsstring) :
  s <> [] -> effective_secret config (Some s) = Some s.
Proof.
  intros H. unfold effective_secret. rewrite or_else_truthy by exact H.
  destruct s; [congruence|reflexivity].
Qed.

Lemma own_signature_decodes (key body : jsstring) :
  from_hex (replace_str (js "sha256=") [] (signature_of key body))
  = hmac_sha256 (utf8 key) (utf8 body).
Proof.
  unfold signature_of. rewrite replace_str_hex by apply to_hex_is_hex.
  apply from_hex_to_hex.
Qed.

End Verify.

(** C1, as the code has it: for every body and every non-empty secret,
    [verifyWebhook] called with the hex HMAC-SHA256 of the body under that
    secret returns [isValid = true], with the parsed body as payload and no
    error, when [JSON.parse] accepts the body; when it does not, the result
    is [isValid = false] with the message of the SyntaxError. *)
Theorem verifyWebhook_accepts_own_signature
    (config : SDKConfig) (body secret_ : jsstring) :
  secret_ <> [] ->
  IndexTs.verifyWebhook config body (signature_of secret_ body) (Some secret_)
  = match Json.parse body with
    | Ret v => {| isValid := true; payload := Some v; error := None |}
    | Throw _ => rejected (RuntimeText JsonSyntax)
    end.
Proof.
  intros Hs.
  rewrite (verifyWebhook_with_secret config body _ secret_)
    by now apply effective_secret_arg.
  cbn zeta. rewrite own_signature_decodes, hmac_sha256_length.
  cbn [Nat.eqb negb]. rewrite bool_decide_eq_true_2 by reflexivity.
  reflexivity.
Qed.

Lemma verifyWebhook_accepts_own_signature_witness :
  js "test-secret" <> []
  /\ IndexTs.verifyWebhook
       {| apiUrl := js "https://api.example.com"; apiKey := None; secret := None |}
       (js "{}") (signature_of (js "test-secret") (js "{}"))
       (Some (js "test-secret"))
     = {| isValid := true; payload := Some (JObject []); error := None |}.
Proof.
  assert (H : js "test-secret" <> []) by discriminate.
  split; [exact H|].
  exact (verifyWebhook_accepts_own_signature
           {| apiUrl := js "https://api.example.com"; apiKey := None;
              secret := None |}
           (js "{}") (js "test-secret") H).
Defined.

(** C1 as stated fails at the body "hello" with the secret "test-secret":
    the signature is the right one, but the body is no JSON text and the
    SyntaxError of [JSON.parse] turns into [isValid = false]. *)
Lemma verifyWebhook_non_json_counterexample :
  js "test-secret" <> []
  /\ IndexTs.verifyWebhook
       {| apiUrl := js "https://api.example.com"; apiKey := None; secret := None |}
       (js "hello") (signature_of (js "test-secret") (js "hello"))
       (Some (js "test-secret"))
     = {| isValid := false; payload := None;
          error := Some (RuntimeText JsonSyntax) |}.
Proof. split; [discriminate|]. vm_compute. reflexivity. Qed.




(** [Buffer.from] reads code units above 255 by their low byte: the right
    signature with 256 added to each digit is accepted, and the right
    signature followed by two U+0131 decodes to 33 bytes. *)
Example verifyWebhook_wide_digits :
  let config := {| apiUrl := js "https://api.example.com"; apiKey := None;
                   secret := None |} in
  let h := signature_of (js "test-secret") (js "{}") in
  IndexTs.verifyWebhook config (js "{}") (List.map (fun c => c + 256) h)
    (Some (js "test-secret"))
  = {| isValid := true; payload := Some (JObject []); error := None |}
  /\ IndexTs.verifyWebhook config (js "{}") (h ++ [305; 305])
       (Some (js "test-secret"))
     = rejected (RuntimeText UnequalByteLength).
Proof. cbv zeta. split; vm_compute; reflexivity. Qed.

Lemma verifyWebhook_clean_signature
    (config : SDKConfig) (body s1 s2 : jsstring) (secret_arg : option jsstring) :
  replace_str (js "sha256=") [] s1 = replace_str (js "sha256=") [] s2 ->
  IndexTs.verifyWebhook config body s1 secret_arg
  = IndexTs.verifyWebhook config body s2 secret_arg.
Proof.
  intros H. unfold IndexTs.verifyWebhook, IndexTs.verifyWebhook_try.
  now rewrite H.
Qed.

(** C6, as the code has it: for every string [h] of hex digits,
    [verifyWebhook] returns the same result for [sha256=h] and for [h],
    whatever the body and the secrets.  When [h] is the right signature
    of the body under a non-empty secret, that result is, in both forms,
    [isValid = true] with the parsed body if [JSON.parse] accepts the
    body, and [isValid = false] with the message of the SyntaxError if it
    does not. *)
Theorem verifyWebhook_prefix_optional
    (config : SDKConfig) (body h : jsstring) (secret_arg : option jsstring) :
  is_hex_string h = true ->
  IndexTs.verifyWebhook config body (js "sha256=" ++ h) secret_arg
  = IndexTs.verifyWebhook config body h secret_arg
  /\ (forall secret_,
        secret_ <> [] -> h = signature_of secret_ body ->
        let result :=
          match Json.parse body with
          | Ret v => {| isValid := true; payload := Some v; error := None |}
          | Throw _ => rejected (RuntimeText JsonSyntax)
          end in
        IndexTs.verifyWebhook config body (js "sha256=" ++ h) (Some secret_) = result
        /\ IndexTs.verifyWebhook config body h (Some secret_) = result).
Proof.
  intros Hh.
  assert (Hsame : forall arg,
             IndexTs.verifyWebhook config body (js "sha256=" ++ h) arg
             = IndexTs.verifyWebhook config body h arg).
  { intros arg. apply verifyWebhook_clean_signature.
    now rewrite replace_str_prefix, replace_str_hex. }
  split; [apply Hsame|]. intros secret_ Hs -> result.
  assert (Hbare : IndexTs.verifyWebhook config body (signature_of secret_ body)
                    (Some secret_) = result).
  { rewrite (verifyWebhook_with_secret config body _ secret_)
      by now apply effective_secret_arg.
    cbn zeta. rewrite own_signature_decodes, hmac_sha256_length.
    cbn [Nat.eqb negb]. rewrite bool_decide_eq_true_2 by reflexivity.
    reflexivity. }
  split; [|exact Hbare]. now rewrite Hsame.
Qed.

(** Both forms of the right signature of the body [{}] are accepted. *)
Lemma verifyWebhook_prefix_optional_witness :
  let config := {| apiUrl := js "https://api.example.com"; apiKey := None;
                   secret := None |} in
  let h := signature_of (js "test-secret") (js "{}") in
  let accepted := {| isValid := true; payload := Some (JObject []);
                     error := None |} in
  is_hex_string h = true
  /\ IndexTs.verifyWebhook config (js "{}") (js "sha256=" ++ h)
       (Some (js "test-secret"))
     = IndexTs.verifyWebhook config (js "{}") h (Some (js "test-secret"))
  /\ IndexTs.verifyWebhook config (js "{}") (js "sha256=" ++ h)
       (Some (js "test-secret")) = accepted
  /\ IndexTs.verifyWebhook config (js "{}") h (Some (js "test-secret")) = accepted.
Proof.
  cbv zeta.
  assert (H : is_hex_string (signature_of (js "test-secret") (js "{}")) = true)
    by (vm_compute; reflexivity).
  assert (Hs : js "test-secret" <> []) by discriminate.
  destruct (verifyWebhook_prefix_optional
              {| apiUrl := js "https://api.example.com"; apiKey := None;
                 secret := None |}
              (js "{}") _ (Some (js "test-secret")) H) as [Heq Hacc].
  destruct (Hacc (js "test-secret") Hs eq_refl) as [H1 H2].
  split; [exact H|]. split; [exact Heq|]. split; [exact H1|exact H2].
Defined.

(** C6 as stated fails at the body "hello": its right signature is
    rejected in both forms, the body being no JSON text. *)
Lemma verifyWebhook_prefix_non_json_counterexample :
  let config := {| apiUrl := js "https://api.example.com"; apiKey := None;
                   secret := None |} in
  let h := signature_of (js "test-secret") (js "hello") in
  is_hex_string h = true
  /\ IndexTs.verifyWebhook config (js "hello") (js "sha256=" ++ h)
       (Some (js "test-secret"))
     = {| isValid := false; payload := None;
          error := Some (RuntimeText JsonSyntax) |}
  /\ IndexTs.verifyWebhook config (js "hello") h (Some (js "test-secret"))
     = {| isValid := false; payload := None;
          error := Some (RuntimeText JsonSyntax) |}.
Proof. cbv zeta. repeat split; vm_compute; reflexivity. Qed.

(** C10: the two copies of [verifyWebhook] return the same result for
    every body, signature, secret argument and configuration. *)
Theorem verifyWebhook_copies_agree
    (config : SDKConfig) (body signature : jsstring)
    (secret_arg : option jsstring) :
  IndexTs.verifyWebhook config body signature secret_arg
  = SecondCopy.verifyWebhook config body signature secret_arg.
Proof.
  unfold IndexTs.verifyWebhook, IndexTs.verifyWebhook_try,
    SecondCopy.verifyWebhook, SecondCopy.no_secret, message_or.
  destruct (or_else secret_arg (secret config)) as [key|]; [|reflexivity].
  destruct (truthy key); cbn [negb]; [|reflexivity].
  destruct (timingSafeEqual _ _) as [[|]|t]; cbn; try reflexivity.
  all: destruct (Json.parse body); reflexivity.
Qed.

(** ** The catalog *)

Section CatalogFacts.

Import Catalog.

Implicit Types (jobs : list StoredJob) (jobData : JobData) (s : Site).

Lemma findIndex_None jobs id :
  findIndex id jobs = None <-> id ∉ ids jobs.
Proof.
  unfold findIndex, ids. rewrite fmap_None, list_find_None, Forall_forall.
  rewrite list_elem_of_fmap. split.
  - intros H (j & -> & Hj). now apply (H j).
  - intros H j Hj E. apply H. exists j. now split.
Qed.

Lemma findIndex_Some jobs id i :
  findIndex id jobs = Some i ->
  exists old, jobs !! i = Some old /\ stored_id old = id.
Proof.
  unfold findIndex. intros H. apply fmap_Some in H as ([i' old] & H & ->).
  apply list_find_Some in H as (H1 & H2 & _). now exists old.
Qed.

(** Where ids are unique, [findIndex] finds the one record with the id. *)
Lemma findIndex_unique jobs id i old :
  NoDup (ids jobs) -> jobs !! i = Some old -> stored_id old = id ->
  findIndex id jobs = Some i.
Proof.
  intros Hnd Hi Hid.
  destruct (findIndex id jobs) as [i'|] eqn:E.
  - apply findIndex_Some in E as (old' & Hi' & Hid').
    f_equal. apply (NoDup_lookup (ids jobs) i' i id Hnd); unfold ids;
      rewrite list_lookup_fmap; [rewrite Hi'|rewrite Hi]; cbn; congruence.
  - apply findIndex_None in E. exfalso. apply E. unfold ids.
    apply list_elem_of_fmap. exists old. split; [easy|].
    apply list_elem_of_lookup. now exists i.
Qed.

(** An update in place leaves the sequence of ids as it was. *)
Lemma ids_upsert_found jobs jobData i :
  findIndex (job_id jobData) jobs = Some i ->
  ids (<[i := stored jobData]> jobs) = ids jobs.
Proof.
  intros H. apply findIndex_Some in H as (old & Hi & Hid).
  unfold ids. rewrite list_fmap_insert. apply list_insert_id.
  rewrite list_lookup_fmap, Hi. cbn. f_equal. exact Hid.
Qed.

Lemma upsert_NoDup jobs jobData :
  NoDup (ids jobs) -> NoDup (ids (upsert jobs jobData)).
Proof.
  intros Hnd. unfold upsert. cbn zeta. fold (stored jobData).
  destruct (findIndex (job_id jobData) jobs) as [i|] eqn:E.
  - now rewrite ids_upsert_found.
  - apply findIndex_None in E. unfold ids in *. rewrite fmap_app.
    apply NoDup_app. split; [exact Hnd|]. split; [|apply NoDup_singleton].
    intros x Hx Hx'. apply list_elem_of_singleton in Hx'. subst x. now apply E.
Qed.

Lemma upsert_absent jobs jobData :
  job_id jobData ∉ ids jobs -> upsert jobs jobData = jobs ++ [stored jobData].
Proof.
  intros H. apply findIndex_None in H. unfold upsert. now rewrite H.
Qed.

Lemma upsert_present jobs jobData i old :
  NoDup (ids jobs) -> jobs !! i = Some old -> stored_id old = job_id jobData ->
  upsert jobs jobData = <[i := stored jobData]> jobs.
Proof.
  intros Hnd Hi Hid. unfold upsert.
  now rewrite (findIndex_unique jobs (job_id jobData) i old).
Qed.

(** After an upsert the record is there. *)
Lemma upsert_lookup jobs jobData :
  exists i, upsert jobs jobData !! i = Some (stored jobData).
Proof.
  unfold upsert. cbn zeta. fold (stored jobData).
  destruct (findIndex (job_id jobData) jobs) as [i|] eqn:E.
  - exists i. apply findIndex_Some in E as (old & Hi & _).
    apply list_lookup_insert_eq. now apply lookup_lt_Some in Hi.
  - exists (List.length jobs). apply list_lookup_middle. reflexivity.
Qed.

Lemma filter_none jobs id :
  id ∉ ids jobs -> filter (fun j => stored_id j = id) jobs = [].
Proof.
  induction jobs as [|y jobs IH]; intros H; [reflexivity|].
  unfold ids in H. rewrite fmap_cons in H. apply not_elem_of_cons in H as [Hy H].
  rewrite filter_cons, decide_False by congruence. now apply IH.
Qed.

(** Where ids are unique, the records with a given id are one at most. *)
Lemma filter_unique jobs i x :
  NoDup (ids jobs) -> jobs !! i = Some x ->
  filter (fun j => stored_id j = stored_id x) jobs = [x].
Proof.
  revert i. induction jobs as [|y jobs IH]; intros i Hnd Hi; [discriminate|].
  unfold ids in Hnd. rewrite fmap_cons in Hnd. apply NoDup_cons in Hnd as [Hy Hnd].
  rewrite filter_cons. destruct i as [|i]; cbn in Hi.
  - injection Hi as ->. rewrite decide_True by reflexivity. f_equal.
    now apply filter_none.
  - rewrite decide_False; [now apply (IH i)|].
    intros E. apply Hy. rewrite E. apply list_elem_of_fmap. exists x.
    split; [easy|]. apply list_elem_of_lookup. now exists i.
Qed.

Lemma filter_absent jobs id :
  id ∉ ids jobs -> filter (fun j => stored_id j ≠ id) jobs = jobs.
Proof.
  induction jobs as [|y jobs IH]; intros H; [reflexivity|].
  unfold ids in H. rewrite fmap_cons in H. apply not_elem_of_cons in H as [Hy H].
  rewrite filter_cons, decide_True by congruence. f_equal. now apply IH.
Qed.

Lemma created_catalog io jobData s :
  fst (handleJobCreatedOrUpdated io jobData s) = Ret tt ->
  catalog (snd (handleJobCreatedOrUpdated io jobData s))
  = upsert (catalog s) jobData.
Proof.
  unfold handleJobCreatedOrUpdated.
  destruct (mkdir_succeeds io), (write_succeeds io); cbn; congruence.
Qed.

(** A run either succeeds or leaves the site as it was. *)
Lemma created_cases io jobData s :
  fst (handleJobCreatedOrUpdated io jobData s) = Ret tt
  \/ snd (handleJobCreatedOrUpdated io jobData s) = s.
Proof.
  unfold handleJobCreatedOrUpdated.
  destruct (mkdir_succeeds io), (write_succeeds io); cbn; auto.
Qed.

(** A run succeeds exactly when both the directory and the file can be
    written. *)
Lemma created_succeeds io jobData s :
  fst (handleJobCreatedOrUpdated io jobData s) = Ret tt
  <-> mkdir_succeeds io = true /\ write_succeeds io = true.
Proof.
  unfold handleJobCreatedOrUpdated.
  destruct (mkdir_succeeds io), (write_succeeds io); cbn;
    split; try discriminate; try tauto; intros [? ?]; discriminate.
Qed.

End CatalogFacts.

(** C3: in a catalog whose [job_id]s are pairwise distinct, a run of
    [handleJobCreatedOrUpdated] leaves them pairwise distinct; it succeeds
    exactly when the directory can be made and the file written; when it
    succeeds, a record with a new id is appended at the end, a record
    with a known id replaces the old one at its position, and a second
    successful run for the same id leaves exactly one record with that id,
    the second one, with the slug of its own title, the order of ids
    unchanged. *)
Theorem upsert_keeps_job_id_unique
    (io : Catalog.Io) (jobData : JobData) (s : Catalog.Site) :
  NoDup (Catalog.ids (Catalog.catalog s)) ->
  let run := Catalog.handleJobCreatedOrUpdated io jobData s in
  NoDup (Catalog.ids (Catalog.catalog (snd run)))
  /\ (fst run = Ret tt
      <-> Catalog.mkdir_succeeds io = true /\ Catalog.write_succeeds io = true)
  /\ (fst run = Ret tt ->
      (job_id jobData ∉ Catalog.ids (Catalog.catalog s) ->
       Catalog.catalog (snd run)
       = Catalog.catalog s ++ [Catalog.stored jobData])
      /\ (forall i old,
             Catalog.catalog s !! i = Some old ->
             Catalog.stored_id old = job_id jobData ->
             Catalog.catalog (snd run)
             = <[i := Catalog.stored jobData]> (Catalog.catalog s))
      /\ (forall io' jobData',
             job_id jobData' = job_id jobData ->
             let run' := Catalog.handleJobCreatedOrUpdated io' jobData' (snd run) in
             fst run' = Ret tt ->
             filter (fun j => Catalog.stored_id j = job_id jobData)
                    (Catalog.catalog (snd run'))
             = [{| Catalog.data := jobData';
                   Catalog.slug := createSlug (job_title jobData') |}]
             /\ Catalog.ids (Catalog.catalog (snd run'))
                = Catalog.ids (Catalog.catalog (snd run)))).
Proof.
  intros Hnd run.
  assert (Hnd' : NoDup (Catalog.ids (Catalog.catalog (snd run)))).
  { destruct (created_cases io jobData s) as [Hok|Hko]; subst run.
    - rewrite created_catalog by exact Hok. now apply upsert_NoDup.
    - now rewrite Hko. }
  split; [exact Hnd'|]. split; [apply created_succeeds|]. intros Hok.
  assert (Hcat : Catalog.catalog (snd run) = Catalog.upsert (Catalog.catalog s) jobData)
    by now apply created_catalog.
  split; [|split].
  - intros Habs. rewrite Hcat. now apply upsert_absent.
  - intros i old Hi Hid. rewrite Hcat. now apply (upsert_present _ _ i old).
  - intros io' jobData' Hsame run' Hok'.
    assert (Hcat' : Catalog.catalog (snd run')
                    = Catalog.upsert (Catalog.catalog (snd run)) jobData')
      by now apply created_catalog.
    destruct (upsert_lookup (Catalog.catalog s) jobData) as [i Hi].
    rewrite <- Hcat in Hi.
    assert (Hup : Catalog.upsert (Catalog.catalog (snd run)) jobData'
                  = <[i := Catalog.stored jobData']> (Catalog.catalog (snd run)))
      by (apply (upsert_present _ _ i (Catalog.stored jobData)); easy).
    rewrite Hcat', Hup. split.
    + rewrite <- Hsame.
      apply (filter_unique _ i (Catalog.stored jobData')).
      * rewrite <- Hup. now apply upsert_NoDup.
      * apply list_lookup_insert_eq. now apply lookup_lt_Some in Hi.
    + unfold Catalog.ids. rewrite list_fmap_insert. apply list_insert_id.
      rewrite list_lookup_fmap, Hi. cbn. f_equal. exact (eq_sym Hsame).
Qed.

(** On the catalog of jobs 41 and 42, a run for job 42 with a new title
    succeeds and replaces the record of 42 in place; a run for job 43
    after it appends; a second run for 42 leaves one record of 42, the
    last one. *)
Lemma upsert_keeps_job_id_unique_witness :
  let io := {| Catalog.mkdir_succeeds := true; Catalog.write_succeeds := true |} in
  let job41 := example_job (js "41") (js "Roof Repair") in
  let s := {| Catalog.jobs_json :=
                Catalog.Holds [Catalog.stored job41;
                               Catalog.stored (example_job (js "42") (js "Old title"))];
              Catalog.revalidated := [] |} in
  let job := example_job (js "42") (js "New Title") in
  let job' := example_job (js "42") (js "Newer Title") in
  let run := Catalog.handleJobCreatedOrUpdated io job s in
  let run' := Catalog.handleJobCreatedOrUpdated io job' (snd run) in
  NoDup (Catalog.ids (Catalog.catalog s))
  /\ NoDup (Catalog.ids (Catalog.catalog (snd run)))
  /\ fst run = Ret tt
  /\ Catalog.catalog (snd run)
     = [Catalog.stored job41;
        {| Catalog.data := job; Catalog.slug := js "new-title" |}]
  /\ fst run' = Ret tt
  /\ filter (fun j => Catalog.stored_id j = js "42") (Catalog.catalog (snd run'))
     = [{| Catalog.data := job'; Catalog.slug := js "newer-title" |}]
  /\ Catalog.ids (Catalog.catalog (snd run')) = [js "41"; js "42"].
Proof.
  cbv zeta.
  set (io := {| Catalog.mkdir_succeeds := true; Catalog.write_succeeds := true |}).
  set (s := {| Catalog.jobs_json :=
                 Catalog.Holds [Catalog.stored (example_job (js "41") (js "Roof Repair"));
                                Catalog.stored (example_job (js "42") (js "Old title"))];
               Catalog.revalidated := [] |}).
  set (job := example_job (js "42") (js "New Title")).
  set (job' := example_job (js "42") (js "Newer Title")).
  assert (H : NoDup (Catalog.ids (Catalog.catalog s))).
  { refine (bool_decide_unpack _ _). vm_compute. exact I. }
  destruct (upsert_keeps_job_id_unique io job s H) as (Hnd & Hiff & Hrest).
  pose proof (proj2 Hiff (conj eq_refl eq_refl)) as Hok.
  destruct (Hrest Hok) as (_ & Hplace & Htwice).
  destruct (upsert_keeps_job_id_unique io job'
              (snd (Catalog.handleJobCreatedOrUpdated io job s)) Hnd)
    as (_ & Hiff' & _).
  pose proof (proj2 Hiff' (conj eq_refl eq_refl)) as Hok'.
  destruct (Htwice io job' eq_refl Hok') as (Hone & Hids).
  split; [exact H|]. split; [exact Hnd|]. split; [exact Hok|].
  split; [exact (Hplace 1%nat _ eq_refl eq_refl)|].
  split; [exact Hok'|]. split; [exact Hone|].
  rewrite Hids, (Hplace 1%nat _ eq_refl eq_refl). reflexivity.
Defined.

(** C7: when the [job_id] is not in the catalog, [handleJobDeleted] leaves
    the file with the same records in the same order, whether or not its
    write succeeds, and returns without an error. *)
Theorem handleJobDeleted_absent_is_noop
    (io : Catalog.Io) (jobData : JobData) (s : Catalog.Site) :
  job_id jobData ∉ Catalog.ids (Catalog.catalog s) ->
  let run := Catalog.handleJobDeleted io jobData s in
  fst run = Ret tt
  /\ Catalog.jobs_json (snd run) = Catalog.jobs_json s
  /\ Catalog.catalog (snd run) = Catalog.catalog s.
Proof.
  intros Habs. cbv zeta.
  unfold Catalog.handleJobDeleted, Catalog.handleJobDeleted_try, Catalog.catalog in *.
  destruct (Catalog.jobs_json s) as [|jobs] eqn:E; cbn.
  - now rewrite E.
  - destruct (Catalog.write_succeeds io); cbn.
    + rewrite filter_absent by exact Habs. auto.
    + now rewrite E.
Qed.

Lemma handleJobDeleted_absent_is_noop_witness :
  let s := {| Catalog.jobs_json :=
                Catalog.Holds [Catalog.stored (example_job (js "41") (js "Roof Repair"))];
              Catalog.revalidated := [] |} in
  let run := Catalog.handleJobDeleted
               {| Catalog.mkdir_succeeds := true; Catalog.write_succeeds := true |}
               (example_job (js "42") (js "Gone")) s in
(js "42" ∉ Catalog.ids (Catalog.catalog s))
  /\ fst run = Ret tt
  /\ Catalog.jobs_json (snd run) = Catalog.jobs_json s
  /\ Catalog.catalog (snd run) = Catalog.catalog s.
Proof.
  cbv zeta.
  assert (H : job_id (example_job (js "42") (js "Gone")) ∉ Catalog.ids (Catalog.catalog
    {| Catalog.jobs_json :=
         Catalog.Holds [Catalog.stored (example_job (js "41") (js "Roof Repair"))];
       Catalog.revalidated := [] |})).
  { refine (bool_decide_unpack _ _). vm_compute. exact I. }
  split; [exact H|].
  exact (handleJobDeleted_absent_is_noop
           {| Catalog.mkdir_succeeds := true; Catalog.write_succeeds := true |}
           (example_job (js "42") (js "Gone")) _ H).
Defined.

(** ** Image download *)

Section ImageFacts.

Import Images ExtensionRules.

Variable env : Env.

Lemma download_loop_split (jobId publicDir : jsstring) (images : list jsstring)
    (i : nat) (acc : list jsstring) (d : Disk) :
  download_loop env jobId publicDir images i acc d
  = (acc ++ paths_of env jobId publicDir images i d,
     disk_after env jobId publicDir images i d).
Proof.
  revert i acc d. induction images as [|u rest IH]; intros i acc d.
  - cbn. now rewrite app_nil_r.
  - cbn [download_loop paths_of disk_after].
    destruct (downloadImage env u jobId i publicDir d) as [p d'] eqn:E.
    rewrite IH. cbn [fst snd]. now rewrite <- app_assoc.
Qed.

Lemma paths_of_length (jobId publicDir : jsstring) (images : list jsstring)
    (i : nat) (d : Disk) :
  List.length (paths_of env jobId publicDir images i d) = List.length images.
Proof.
  revert i d. induction images as [|u rest IH]; intros i d; [reflexivity|].
  cbn [paths_of List.length]. now rewrite IH.
Qed.

Lemma paths_of_lookup (jobId publicDir : jsstring) (images : list jsstring)
    (i k : nat) (d : Disk) (url : jsstring) :
  images !! k = Some url ->
  paths_of env jobId publicDir images i d !! k
  = Some (fst (downloadImage env url jobId (i + k) publicDir
                 (disk_after env jobId publicDir (take k images) i d))).
Proof.
  revert i k d. induction images as [|u rest IH]; intros i k d Hk; [discriminate|].
  destruct k as [|k]; cbn in Hk.
  - injection Hk as ->. cbn. now rewrite Nat.add_0_r.
  - cbn [paths_of take disk_after lookup list_lookup].
    rewrite (IH (S i) k _ Hk). now rewrite Nat.add_succ_r.
Qed.

Lemma downloadJobImages_paths (jobData : JobData) (publicDir : jsstring) (d : Disk) :
  fst (downloadJobImages env jobData publicDir d)
  = paths_of env (job_id jobData) publicDir (job_images jobData) 0 d.
Proof.
  unfold downloadJobImages.
  destruct (job_images jobData) as [|u rest] eqn:E; [reflexivity|].
  cbn [List.length Nat.ltb Nat.leb]. now rewrite download_loop_split.
Qed.

(** [downloadImage] returns the local path when its [try] ends, and the
    original URL when anything in it throws. *)
Lemma downloadImage_result (imageUrl jobId : jsstring) (index : nat)
    (publicDir : jsstring) (d : Disk) :
  fst (downloadImage env imageUrl jobId index publicDir d)
  = match fst (downloadImage_try env imageUrl jobId index publicDir d) with
    | Ret p => p
    | Throw _ => imageUrl
    end.
Proof.
  unfold downloadImage.
  now destruct (downloadImage_try env imageUrl jobId index publicDir d) as [[p|t] d'].
Qed.

End ImageFacts.

(** C4: [downloadJobImages] returns as many paths as the job has images;
    the path at position [i] is what [downloadImage] returns for image [i]
    with index [i], on the disk the earlier downloads left, so a failed
    download does not stop the later ones; and [downloadImage], a total
    function, returns the original URL whenever its [try] throws: when the
    fetch fails, when the body cannot be made a buffer, when the directory
    cannot be created, when the file cannot be written. *)
Theorem downloadJobImages_in_order
    (env : Images.Env) (jobData : JobData) (publicDir : jsstring)
    (d : Images.Disk) :
  let paths := fst (Images.downloadJobImages env jobData publicDir d) in
  List.length paths = List.length (job_images jobData)
  /\ (forall i url,
         job_images jobData !! i = Some url ->
         paths !! i
         = Some (fst (Images.downloadImage env url (job_id jobData) i publicDir
                        (Images.disk_before env jobData publicDir d i))))
  /\ (forall imageUrl jobId index dir d0,
         let result := fst (Images.downloadImage env imageUrl jobId index dir d0) in
         let fullPublicDir := join [Images.cwd env; dir] in
         (forall t, fst (Images.downloadImage_try env imageUrl jobId index dir d0)
                    = Throw t -> result = imageUrl)
         /\ (forall t, Images.http_get env (Images.tick d0) imageUrl = Throw t ->
                       result = imageUrl)
         /\ (forall ct, Images.http_get env (Images.tick d0) imageUrl
                        = Ret {| Images.resp_data := None;
                                 Images.content_type := ct |} ->
                        result = imageUrl)
         /\ (Images.mkdir_ok env (Images.tick d0) fullPublicDir = false ->
             result = imageUrl)
         /\ (forall resp buffer,
                Images.http_get env (Images.tick d0) imageUrl = Ret resp ->
                Images.resp_data resp = Some buffer ->
                Images.writeFile_ok env (Images.tick d0)
                  (join [fullPublicDir;
                         Images.filename_of jobId index
                           (Images.extension_of imageUrl (Images.content_type resp))])
                = false ->
                result = imageUrl)).
Proof.
  cbv zeta. rewrite downloadJobImages_paths. split; [apply paths_of_length|].
  split.
  - intros i url Hi. now rewrite (paths_of_lookup env _ _ _ 0 i d url Hi).
  - intros imageUrl jobId index dir d0. rewrite downloadImage_result.
    unfold Images.downloadImage_try, Images.mkdir, Images.writeFile.
    repeat split.
    + now intros t ->.
    + now intros t ->.
    + now intros ct ->.
    + intros H. rewrite H.
      destruct (Images.http_get env _ imageUrl) as [resp|t]; [|reflexivity].
      now destruct (Images.buffer_from (Images.resp_data resp)).
    + intros resp buffer -> Hb Hw. rewrite Hb. cbn [Images.buffer_from].
      destruct (Images.mkdir_ok env _ _); [|reflexivity].
      cbn [Images.tick]. now rewrite Hw.
Qed.

(** The scenario of three images whose second fetch fails. *)
Example downloadJobImages_second_fails :
  let env := {| Images.cwd := js "/app";
                Images.http_get := fun n _ =>
                  if (n =? 1)%nat then Throw (AxiosError (js "timeout") None)
                  else Ret {| Images.resp_data := Some [x00];
                              Images.content_type := Some (js "image/png") |};
                Images.mkdir_ok := fun _ _ => true;
                Images.writeFile_ok := fun _ _ => true |} in
  let job := {| job_id := js "42"; job_title := []; job_description := [];
                job_city := []; job_state := []; job_date := [];
                job_created_at := [];
                job_images := [js "http://h/a.jpg"; js "http://h/b.jpg";
                               js "http://h/c"];
                job_site := []; job_tags := []; job_categories := [];
                job_brand := []; job_service := []; job_zipcode := [];
                job_brands := []; job_services := []; job_street := [];
                employee := None |} in
  fst (Images.downloadJobImages env job (js "public/jobs")
         {| Images.tick := 0; Images.dirs := ∅; Images.files := ∅ |})
  = [js "/jobs/job-42-0.jpg"; js "http://h/b.jpg"; js "/jobs/job-42-2.png"].
Proof. vm_compute. reflexivity. Qed.

(** ** The extension and the name of an image file *)

Section ExtensionFacts.

Import Images ExtensionRules.

Lemma split_no_separator (c : N) (s : jsstring) :
  occurs c s = false -> split c s = [s].
Proof.
  unfold occurs. induction s as [|a s IH]; intros H; [reflexivity|].
  cbn [existsb] in H. apply orb_false_iff in H as [Ha Hs].
  cbn [split]. rewrite Ha, IH by exact Hs. reflexivity.
Qed.


Lemma split_not_nil (c : N) (s : jsstring) : split c s <> [].
Proof.
  destruct s as [|a s]; cbn [split]; [discriminate|].
  destruct (a =? c); [discriminate|]. now destruct (split c s).
Qed.

Lemma last_cons_not_nil {A} (x : A) (l : list A) :
  l <> [] -> last (x :: l) = last l.
Proof. destruct l; [congruence|reflexivity]. Qed.

(** A string that holds the separator splits in two parts at least. *)
Lemma split_two_parts (c : N) (s w : jsstring) :
  occurs c s = true -> split c s <> [w].
Proof.
  unfold occurs. revert w. induction s as [|a s IH]; intros w H E; [discriminate|].
  cbn [existsb] in H. cbn [split] in E. destruct (a =? c).
  - injection E as _ E. now apply split_not_nil in E.
  - cbn [orb] in H.
    destruct (split c s) as [|v vs] eqn:E'; [now apply split_not_nil in E'|].
    injection E as <- ->. now apply (IH v).
Qed.

(** [split('.').pop()] is what follows the last dot. *)
Lemma pop_split (c : N) (s : jsstring) :
  pop (split c s) = Some (after_last c s).
Proof.
  unfold pop. induction s as [|a s IH]; [reflexivity|].
  cbn [split after_last]. destruct (occurs c s) eqn:Hs.
  - destruct (a =? c).
    + rewrite last_cons_not_nil by apply split_not_nil. exact IH.
    + destruct (split c s) as [|w ws] eqn:E; [now apply split_not_nil in E|].
      destruct ws as [|w' ws]; [now apply split_two_parts in E|].
      rewrite last_cons_not_nil by discriminate. exact IH.
  - rewrite (split_no_separator c s Hs). destruct (a =? c); reflexivity.
Qed.

(** [split('?')[0]] is what precedes the first question mark. *)
Lemma head_split (c : N) (s : jsstring) :
  head (split c s) = Some (before_first c s).
Proof.
  unfold before_first. induction s as [|a s IH]; [reflexivity|].
  cbn [split Json.span]. destruct (a =? c); cbn [negb]; [reflexivity|].
  destruct (split c s) as [|w ws]; [discriminate|].
  cbn in IH. injection IH as ->.
  now destruct (Json.span _ s).
Qed.

Lemma urlExtension_candidate (imageUrl : jsstring) :
  toLowerCase <$> urlExtension imageUrl = Some (candidate imageUrl).
Proof.
  unfold urlExtension, candidate. now rewrite pop_split, head_split.
Qed.

Lemma includes_In (l : list jsstring) (x : jsstring) :
  includes l x = true <-> In x l.
Proof.
  unfold includes. rewrite existsb_exists. split.
  - intros (y & Hy & E). apply bool_decide_eq_true in E. now subst.
  - intros H. exists x. split; [exact H|]. now apply bool_decide_eq_true.
Qed.

Lemma includes_not_In (l : list jsstring) (x : jsstring) :
  includes l x = false <-> ~ In x l.
Proof.
  rewrite <- includes_In. now destruct (includes l x).
Qed.



Lemma extMap_values_truthy (ct v : jsstring) :
  assoc extMap ct = Some v -> truthy v = true.
Proof.
  unfold extMap. cbn [assoc].
  repeat (case_bool_decide; [now intros [= <-]|]). discriminate.
Qed.

(** [String(n)] holds digits only. *)
Lemma decimal_digits (n : N) : Forall (fun c => is_digit c = true) (decimal n).
Proof.
  unfold decimal. generalize (N.to_uint n) as u.
  induction u; cbn; repeat constructor; assumption.
Qed.



(** *** The last segment of a joined path *)








(** *** The extension *)











End ExtensionFacts.



(** A content type that names a member of [Object.prototype] gives the
    text of that member as extension; a job id with slashes and dot
    segments moves the file out of the public directory. *)
Example downloadImage_odd_names :
  let get env url id := Images.downloadImage env url id 0 (js "public/jobs")
                          ExtensionRules.empty_disk in
  fst (get (ExtensionRules.always (js "constructor")) (js "http://h/a") (js "42"))
  = js "/jobs/job-42-0.function Object() { [native code] }"
  /\ Images.files
       (snd (get (ExtensionRules.always (js "image/png")) (js "http://h/a")
               (js "/../../../../etc/cron.d/x")))
     !! js "/etc/cron.d/x-0.png" = Some [x00].
Proof. cbv zeta. split; vm_compute; reflexivity. Qed.


(** ** Registration *)

Section Registration.

Variable config : SDKConfig.

(** What [registerWebhook] of [src/index.ts] returns, outcome by outcome. *)
Lemma registerWebhook_outcomes (webhookUrl : jsstring)
    (evs : option (list jsstring)) (axios : request -> Exc response_data) :
  IndexTsClient.registerWebhook config axios webhookUrl evs =
  match axios (register_request config webhookUrl (events_or_default evs)) with
  | Ret (Object id) => {| success := true; webhook_id := id; reg_error := None |}
  | Ret Nullish => failure (RuntimeText NullishProperty)
  | Throw (AxiosError _ (Some r)) =>
      failure (Text (js "HTTP " ++ decimal (status r) ++ js ": " ++ statusText r))
  | Throw (AxiosError _ None) => failure (Text (js "HTTP undefined: undefined"))
  | Throw (ErrorObject m) => failure (Text m)
  | Throw (Runtime e) => failure (RuntimeText e)
  | Throw NonError => failure (Text (js "Unknown error"))
  end.
Proof.
  unfold IndexTsClient.registerWebhook.
  destruct (axios _) as [[|id]|[e|m [r|]|m|]]; reflexivity.
Qed.


Lemma unregisterWebhook_outcomes (webhookId : jsstring)
    (axios : request -> Exc response_data) :
  IndexTsClient.unregisterWebhook config axios webhookId =
  match axios (unregister_request config webhookId) with
  | Ret _ => {| success := true; webhook_id := None; reg_error := None |}
  | Throw (AxiosError _ (Some r)) =>
      failure (Text (js "HTTP " ++ decimal (status r) ++ js ": " ++ statusText r))
  | Throw (AxiosError _ None) => failure (Text (js "HTTP undefined: undefined"))
  | Throw (ErrorObject m) => failure (Text m)
  | Throw (Runtime e) => failure (RuntimeText e)
  | Throw NonError => failure (Text (js "Unknown error"))
  end.
Proof.
  unfold IndexTsClient.unregisterWebhook.
  destruct (axios _) as [d|[e|m [r|]|m|]]; reflexivity.
Qed.


End Registration.

(** C9 at a transport failure: when the HTTP call is rejected with an
    AxiosError that holds no response, [registerWebhook] and
    [unregisterWebhook] of [src/index.ts] return the failure
    "HTTP undefined: undefined", whatever the cause was, while the second
    copy returns the message of the cause. *)
Theorem registration_transport_failure
    (config : SDKConfig) (cause webhookUrl webhookId : jsstring)
    (evs : option (list jsstring)) :
  let refused := fun _ : request => Throw (AxiosError cause None) in
  IndexTsClient.registerWebhook config refused webhookUrl evs
  = failure (Text (js "HTTP undefined: undefined"))
  /\ IndexTsClient.unregisterWebhook config refused webhookId
     = failure (Text (js "HTTP undefined: undefined"))
  /\ SecondCopyClient.registerWebhook config refused webhookUrl evs
     = failure (Text cause)
  /\ SecondCopyClient.unregisterWebhook config refused webhookId
     = failure (Text cause).
Proof. repeat split. Qed.

(** * More properties of the code *)

(** ** The shape of a slug *)

Section SlugShape.

Import SlugSteps.

Lemma createSlug_cut (title : jsstring) :
  createSlug title
  = cut_final_run is_hyphen
      (strip_leading is_hyphen
         (collapse is_separator false (List.filter keeps (toLowerCase title)))).
Proof.
  unfold createSlug. rewrite replace_edge. do 2 f_equal.
  unfold replace_g at 1. change (js "-") with [hyphen]. unfold re_separators.
  rewrite (proj2 (replace_plus _ _ 0%nat)).
  change (fun c => is_space c || (c =? underscore) || is_hyphen c)
    with is_separator.
  f_equal. unfold replace_g, re_not_word_space_hyphen.
  rewrite replace_class. apply filter_ext. intros c. apply negb_involutive.
Qed.

Lemma range_spec (lo hi c : N) :
  in_range lo hi c = true <-> lo <= c /\ c <= hi.
Proof.
  unfold in_range. rewrite andb_true_iff, !N.leb_le. reflexivity.
Qed.

Lemma range_false (lo hi c : N) :
  in_range lo hi c = false <-> c < lo \/ hi < c.
Proof.
  unfold in_range. rewrite andb_false_iff, !N.leb_gt. reflexivity.
Qed.

Lemma lower_unit_not_upper (c : N) :
  forallb (fun x => negb (is_upper x)) (lower_unit c) = true.
Proof.
  unfold lower_unit. destruct (is_upper c) eqn:Hu.
  - cbn [forallb]. rewrite andb_true_r. apply negb_true_iff.
    apply range_spec in Hu. apply range_false. lia.
  - destruct (c =? 304); [reflexivity|]. destruct (c =? 8490); [reflexivity|].
    cbn [forallb]. now rewrite Hu.
Qed.

Lemma toLowerCase_not_upper (s : jsstring) :
  forallb (fun x => negb (is_upper x)) (toLowerCase s) = true.
Proof.
  induction s as [|c s IH]; [reflexivity|].
  unfold toLowerCase in *. cbn [flat_map].
  now rewrite forallb_app, lower_unit_not_upper, IH.
Qed.

(** What step 2 keeps and step 3 does not turn into a hyphen is a small
    letter or a digit, capitals being gone. *)
Lemma kept_unit (c : N) :
  keeps c = true -> is_separator c = false -> is_upper c = false ->
  is_slug_unit c = true.
Proof.
  unfold keeps, is_separator, is_word, is_alnum, is_slug_unit.
  destruct (is_digit c), (is_upper c), (is_lower c), (c =? underscore),
    (is_space c), (is_hyphen c); cbn; congruence.
Qed.

Lemma hyphen_is_separator (c : N) : is_separator c = false -> is_hyphen c = false.
Proof.
  unfold is_separator. destruct (is_space c), (c =? underscore), (is_hyphen c);
    cbn; congruence.
Qed.

Lemma collapse_units (s : jsstring) (b : bool) :
  forallb (fun x => negb (is_upper x)) s = true ->
  forallb is_slug_unit (collapse is_separator b (List.filter keeps s)) = true.
Proof.
  revert b. induction s as [|c s IH]; intros b H; [reflexivity|].
  cbn [forallb] in H. apply andb_prop in H as [Hc Hs].
  apply negb_true_iff in Hc. cbn [List.filter].
  destruct (keeps c) eqn:Hk; [|now apply IH].
  cbn [collapse]. destruct (is_separator c) eqn:Hsep.
  - rewrite forallb_app, IH by exact Hs. now destruct b.
  - cbn [forallb]. now rewrite kept_unit, IH.
Qed.

Lemma collapse_hyphens (s : jsstring) :
  (no_hyphen_first (collapse is_separator true s) = true
   /\ no_hyphen_pair (collapse is_separator true s) = true)
  /\ no_hyphen_pair (collapse is_separator false s) = true.
Proof.
  induction s as [|c s [[IHf IHp] IH0]]; [repeat split|].
  cbn [collapse]. destruct (is_separator c) eqn:Hsep; cbn [app].
  - repeat split; try assumption.
    cbn [no_hyphen_pair]. rewrite IHp, andb_true_r.
    destruct (collapse is_separator true s) as [|d r]; [reflexivity|].
    cbn [no_hyphen_first] in IHf. apply negb_true_iff in IHf.
    now rewrite IHf, andb_false_r.
  - apply hyphen_is_separator in Hsep.
    assert (Hp : no_hyphen_pair (c :: collapse is_separator false s) = true).
    { cbn [no_hyphen_pair]. rewrite IH0, andb_true_r, Hsep.
      now destruct (collapse is_separator false s). }
    repeat split; try assumption. cbn [no_hyphen_first]. now rewrite Hsep.
Qed.

Lemma no_hyphen_pair_tail (c : N) (s : jsstring) :
  no_hyphen_pair (c :: s) = true -> no_hyphen_pair s = true.
Proof. cbn [no_hyphen_pair]. intros H. now apply andb_prop in H as [_ H]. Qed.

Lemma strip_leading_shape (s : jsstring) :
  no_hyphen_first (strip_leading is_hyphen s) = true
  /\ (forallb is_slug_unit s = true ->
      forallb is_slug_unit (strip_leading is_hyphen s) = true)
  /\ (no_hyphen_pair s = true ->
      no_hyphen_pair (strip_leading is_hyphen s) = true).
Proof.
  induction s as [|c s (IHf & IHu & IHp)]; [repeat split|].
  cbn [strip_leading]. destruct (is_hyphen c) eqn:Hc.
  - repeat split; [exact IHf| |].
    + intros H. cbn [forallb] in H. apply andb_prop in H as [_ H]. now apply IHu.
    + intros H. apply IHp. now apply no_hyphen_pair_tail in H.
  - repeat split; try easy. cbn [no_hyphen_first]. now rewrite Hc.
Qed.

Lemma cut_final_run_nil (p : N -> bool) (s : jsstring) :
  cut_final_run p s = [] -> forallb p s = true.
Proof.
  destruct s as [|c s]; [reflexivity|]. cbn [cut_final_run].
  now destruct (forallb p (c :: s)).
Qed.

Lemma cut_final_run_shape (s : jsstring) :
  no_hyphen_last (cut_final_run is_hyphen s) = true
  /\ (forallb is_slug_unit s = true ->
      forallb is_slug_unit (cut_final_run is_hyphen s) = true)
  /\ (no_hyphen_pair s = true ->
      no_hyphen_pair (cut_final_run is_hyphen s) = true)
  /\ (no_hyphen_first s = true ->
      no_hyphen_first (cut_final_run is_hyphen s) = true).
Proof.
  induction s as [|c s (IHl & IHu & IHp & IHf)]; [repeat split|].
  cbn [cut_final_run]. destruct (forallb is_hyphen (c :: s)) eqn:Hall;
    [repeat split|].
  repeat split.
  - unfold no_hyphen_last in *. rewrite last_cons.
    destruct (last (cut_final_run is_hyphen s)) as [y|] eqn:El; [exact IHl|].
    apply last_None in El. apply cut_final_run_nil in El.
    cbn [forallb] in Hall. rewrite El, andb_true_r in Hall. now rewrite Hall.
  - intros H. cbn [forallb] in H |- *. apply andb_prop in H as [Hc H].
    now rewrite Hc, IHu.
  - intros H. cbn [no_hyphen_pair] in H |- *. apply andb_prop in H as [Hc H].
    rewrite IHp, andb_true_r by exact H.
    destruct s as [|d s']; [reflexivity|]. cbn [cut_final_run].
    destruct (forallb is_hyphen (d :: s')); [reflexivity|exact Hc].
  - intros H. exact H.
Qed.

Lemma createSlug_shape (title : jsstring) : is_slug (createSlug title) = true.
Proof.
  rewrite createSlug_cut.
  set (c := collapse is_separator false (List.filter keeps (toLowerCase title))).
  assert (Hu : forallb is_slug_unit c = true)
    by (apply collapse_units, toLowerCase_not_upper).
  assert (Hp : no_hyphen_pair c = true) by apply collapse_hyphens.
  destruct (strip_leading_shape c) as (Hf1 & Hu1 & Hp1).
  destruct (cut_final_run_shape (strip_leading is_hyphen c)) as (Hl2 & Hu2 & Hp2 & Hf2).
  unfold is_slug. now rewrite Hu2, Hf2, Hl2, Hp2 by auto.
Qed.

End SlugShape.

Section SlugFixed.

Import SlugSteps.

Lemma slug_unit_bound (c : N) : is_slug_unit c = true -> c <= 122.
Proof.
  unfold is_slug_unit, is_lower, is_digit, is_hyphen, hyphen. intros H.
  apply orb_true_iff in H as [H|H]; [apply orb_true_iff in H as [H|H]|].
  - apply range_spec in H. lia.
  - apply range_spec in H. lia.
  - apply N.eqb_eq in H. lia.
Qed.

(** Decides the range and equality tests on [c] from what is known of it. *)
Ltac decide_unit c :=
  repeat match goal with
    | |- context [in_range ?lo ?hi c] =>
        first [ rewrite (proj2 (range_spec lo hi c)) by lia
              | rewrite (proj2 (range_false lo hi c)) by lia ]
    | |- context [c =? ?k] =>
        first [ rewrite (proj2 (N.eqb_eq c k)) by lia
              | rewrite (proj2 (N.eqb_neq c k)) by lia ]
    end.

Lemma slug_unit_cases (c : N) :
  is_slug_unit c = true -> 97 <= c <= 122 \/ 48 <= c <= 57 \/ c = 45.
Proof.
  unfold is_slug_unit, is_lower, is_digit, is_hyphen, hyphen. intros H.
  apply orb_true_iff in H as [H|H]; [apply orb_true_iff in H as [H|H]|].
  - apply range_spec in H. lia.
  - apply range_spec in H. lia.
  - apply N.eqb_eq in H. lia.
Qed.

Lemma slug_unit_facts (c : N) :
  is_slug_unit c = true ->
  is_upper c = false /\ keeps c = true /\ is_separator c = is_hyphen c.
Proof.
  intros H. apply slug_unit_cases in H.
  unfold keeps, is_separator, is_word, is_alnum, is_space,
    is_upper, is_lower, is_digit, is_hyphen, underscore, hyphen.
  destruct H as [H|[H|H]]; decide_unit c; repeat split.
Qed.

Lemma toLowerCase_slug (s : jsstring) :
  forallb is_slug_unit s = true -> toLowerCase s = s.
Proof.
  induction s as [|c s IH]; intros H; [reflexivity|].
  cbn [forallb] in H. apply andb_prop in H as [Hc Hs].
  unfold toLowerCase in *. cbn [flat_map]. rewrite IH by exact Hs.
  pose proof (slug_unit_bound c Hc) as Hb.
  destruct (slug_unit_facts c Hc) as (Hu & _ & _).
  unfold lower_unit. rewrite Hu.
  destruct (N.eqb_spec c 304); [lia|]. destruct (N.eqb_spec c 8490); [lia|].
  reflexivity.
Qed.

Lemma filter_slug (s : jsstring) :
  forallb is_slug_unit s = true -> List.filter keeps s = s.
Proof.
  induction s as [|c s IH]; intros H; [reflexivity|].
  cbn [forallb] in H. apply andb_prop in H as [Hc Hs].
  destruct (slug_unit_facts c Hc) as (_ & Hk & _).
  cbn [List.filter]. now rewrite Hk, IH.
Qed.

Lemma collapse_slug (s : jsstring) (b : bool) :
  forallb is_slug_unit s = true -> no_hyphen_pair s = true ->
  (b = true -> no_hyphen_first s = true) ->
  collapse is_separator b s = s.
Proof.
  revert b. induction s as [|c s IH]; intros b Hu Hp Hf; [reflexivity|].
  cbn [forallb] in Hu. apply andb_prop in Hu as [Hc Hu].
  destruct (slug_unit_facts c Hc) as (_ & _ & Hsep).
  cbn [collapse]. rewrite Hsep. destruct (is_hyphen c) eqn:Hh.
  - destruct b.
    + specialize (Hf eq_refl). cbn [no_hyphen_first] in Hf. now rewrite Hh in Hf.
    + cbn [app]. apply N.eqb_eq in Hh as ->. f_equal.
      apply IH; [exact Hu|now apply no_hyphen_pair_tail in Hp|].
      intros _. cbn [no_hyphen_pair] in Hp. apply andb_prop in Hp as [Hp _].
      destruct s as [|d s]; [reflexivity|]. cbn [no_hyphen_first].
      apply negb_true_iff in Hp. apply negb_true_iff.
      now destruct (is_hyphen d).
  - f_equal. apply IH; [exact Hu|now apply no_hyphen_pair_tail in Hp|discriminate].
Qed.

Lemma strip_leading_slug (s : jsstring) :
  no_hyphen_first s = true -> strip_leading is_hyphen s = s.
Proof.
  destruct s as [|c s]; [reflexivity|]. cbn [no_hyphen_first strip_leading].
  intros H. apply negb_true_iff in H. now rewrite H.
Qed.

Lemma forallb_last (p : N -> bool) (s : jsstring) (x : N) :
  forallb p s = true -> last s = Some x -> p x = true.
Proof.
  intros H Hl. rewrite forallb_forall in H. apply H.
  apply list_elem_of_In. now apply last_Some_elem_of.
Qed.

Lemma cut_final_run_slug (s : jsstring) :
  no_hyphen_last s = true -> cut_final_run is_hyphen s = s.
Proof.
  induction s as [|c s IH]; intros H; [reflexivity|].
  cbn [cut_final_run]. unfold no_hyphen_last in *.
  destruct (forallb is_hyphen (c :: s)) eqn:Hall.
  - destruct (last (c :: s)) as [x|] eqn:El; [|now apply last_None in El].
    rewrite (forallb_last _ _ _ Hall El) in H. discriminate.
  - f_equal. apply IH. rewrite last_cons in H.
    now destruct (last s).
Qed.

(** A well-formed slug is its own slug. *)
Lemma createSlug_fixed (s : jsstring) : is_slug s = true -> createSlug s = s.
Proof.
  unfold is_slug. intros H.
  apply andb_prop in H as [H Hp]. apply andb_prop in H as [H Hl].
  apply andb_prop in H as [Hu Hf].
  rewrite createSlug_cut, toLowerCase_slug, filter_slug by exact Hu.
  rewrite collapse_slug by (try assumption; discriminate).
  rewrite strip_leading_slug by exact Hf. now apply cut_final_run_slug.
Qed.

End SlugFixed.

(** X1: every slug is well formed: it holds small Basic Latin letters,
    digits and hyphens only, no hyphen at either end and no two hyphens
    in a row. *)
Theorem createSlug_is_slug (title : jsstring) :
  let s := createSlug title in
  forallb (fun c => is_lower c || is_digit c || is_hyphen c) s = true
  /\ head s <> Some hyphen
  /\ last s <> Some hyphen
  /\ (forall i, s !! i = Some hyphen -> s !! S i <> Some hyphen).
Proof.
  cbv zeta. pose proof (createSlug_shape title) as H. unfold is_slug in H.
  apply andb_prop in H as [H Hp]. apply andb_prop in H as [H Hl].
  apply andb_prop in H as [Hu Hf].
  split; [exact Hu|]. split; [|split].
  - destruct (createSlug title) as [|c s]; [discriminate|].
    cbn in Hf |- *. intros [= ->]. discriminate.
  - unfold no_hyphen_last in Hl.
    destruct (last (createSlug title)) as [c|]; [|discriminate].
    intros [= ->]. discriminate.
  - generalize dependent (createSlug title). clear. intros s _ _ _ Hp.
    induction s as [|a s IH]; intros i Hi Hn; [discriminate|].
    cbn [no_hyphen_pair] in Hp. apply andb_prop in Hp as [Ha Hp].
    destruct i as [|i].
    + cbn in Hi, Hn. injection Hi as ->. destruct s as [|b s]; [discriminate|].
      cbn in Hn. injection Hn as ->. discriminate.
    + now apply (IH Hp i).
Qed.

(** X2: the strings that [createSlug] leaves unchanged are exactly the
    well-formed slugs; so [createSlug] is idempotent. *)
Theorem createSlug_fixed_points :
  (forall s, createSlug s = s <-> is_slug s = true)
  /\ (forall title, createSlug (createSlug title) = createSlug title).
Proof.
  split.
  - intros s. split; [|apply createSlug_fixed].
    intros H. rewrite <- H. apply createSlug_shape.
  - intros title. apply createSlug_fixed, createSlug_shape.
Qed.

(** ** More on webhook verification *)

Section VerifyMore.

Lemma effective_secret_cases (config : SDKConfig) (secret_arg : option jsstring) :
  effective_secret config secret_arg
  = match secret_arg with
    | Some (c :: s) => Some (c :: s)
    | _ => match secret config with
           | Some (c :: s) => Some (c :: s)
           | _ => None
           end
    end.
Proof.
  unfold effective_secret, or_else.
  destruct secret_arg as [[|c s]|]; cbn; destruct (secret config) as [[|c' s']|];
    reflexivity.
Qed.

(** [verifyWebhook] sees its two secrets through the one it ends up using. *)
Lemma verifyWebhook_by_secret (c1 c2 : SDKConfig) (a1 a2 : option jsstring)
    (body signature : jsstring) :
  effective_secret c1 a1 = effective_secret c2 a2 ->
  IndexTs.verifyWebhook c1 body signature a1
  = IndexTs.verifyWebhook c2 body signature a2.
Proof.
  intros H. destruct (effective_secret c2 a2) as [key|] eqn:E2.
  - rewrite (verifyWebhook_with_secret c1 body signature key a1) by exact H.
    now rewrite (verifyWebhook_with_secret c2 body signature key a2).
  - rewrite verifyWebhook_without_secret by exact H.
    now rewrite verifyWebhook_without_secret.
Qed.

(** [verifyWebhook] sees the signature through the bytes it decodes to. *)
Lemma verifyWebhook_by_bytes (config : SDKConfig) (body s1 s2 : jsstring)
    (secret_arg : option jsstring) :
  from_hex (replace_str (js "sha256=") [] s1)
  = from_hex (replace_str (js "sha256=") [] s2) ->
  IndexTs.verifyWebhook config body s1 secret_arg
  = IndexTs.verifyWebhook config body s2 secret_arg.
Proof.
  intros H. unfold IndexTs.verifyWebhook, IndexTs.verifyWebhook_try.
  now rewrite H.
Qed.

Lemma verifyWebhook_valid (config : SDKConfig) (body signature : jsstring)
    (secret_arg : option jsstring) :
  isValid (IndexTs.verifyWebhook config body signature secret_arg) = true ->
  exists key v,
    effective_secret config secret_arg = Some key
    /\ from_hex (replace_str (js "sha256=") [] signature)
       = hmac_sha256 (utf8 key) (utf8 body)
    /\ Json.parse body = Ret v
    /\ IndexTs.verifyWebhook config body signature secret_arg
       = {| isValid := true; payload := Some v; error := None |}.
Proof.
  destruct (effective_secret config secret_arg) as [key|] eqn:Hk.
  - rewrite (verifyWebhook_with_secret config body signature key) by exact Hk.
    cbn zeta. destruct (List.length _ =? 32)%nat; cbn [negb]; [|discriminate].
    case_bool_decide as Hd; cbn [negb]; [|discriminate].
    destruct (Json.parse body) as [v|t] eqn:Hp; [|discriminate].
    intros _. exists key, v. auto.
  - now rewrite verifyWebhook_without_secret.
Qed.

Lemma verifyWebhook_authentic (config : SDKConfig) (body signature key : jsstring)
    (secret_arg : option jsstring) (v : json) :
  effective_secret config secret_arg = Some key ->
  from_hex (replace_str (js "sha256=") [] signature)
  = hmac_sha256 (utf8 key) (utf8 body) ->
  Json.parse body = Ret v ->
  IndexTs.verifyWebhook config body signature secret_arg
  = {| isValid := true; payload := Some v; error := None |}.
Proof.
  intros Hk Hd Hp.
  rewrite (verifyWebhook_with_secret config body signature key) by exact Hk.
  cbn zeta. rewrite Hd, hmac_sha256_length. cbn [Nat.eqb negb].
  rewrite bool_decide_eq_true_2 by reflexivity. cbn [negb]. now rewrite Hp.
Qed.

Lemma replace_str_inside (p0 : N) (pat a b : jsstring) :
  forallb (fun c => negb (p0 =? c)) a = true ->
  replace_str (p0 :: pat) [] (a ++ (p0 :: pat) ++ b) = a ++ b.
Proof.
  induction a as [|c a IH]; intros H.
  - cbn [app]. change (p0 :: pat ++ b) with ((p0 :: pat) ++ b).
    apply replace_str_prefix.
  - cbn [forallb] in H. apply andb_prop in H as [Hc Ha].
    apply negb_true_iff in Hc. cbn [app replace_str starts_with].
    rewrite Hc. cbn [andb]. f_equal. now apply IH.
Qed.

Lemma hex_not_s (s : jsstring) :
  is_hex_string s = true -> forallb (fun c => negb (115 =? c)) s = true.
Proof.
  unfold is_hex_string. rewrite !forallb_forall. intros H c Hc.
  now rewrite hex_digit_not_s by auto.
Qed.

Lemma hex_val_upper (c : N) : hex_val (hex_upper c) = hex_val c.
Proof.
  unfold hex_upper. destruct (in_range 97 102 c) eqn:E; [|reflexivity].
  apply range_spec in E. unfold hex_val, is_digit.
  rewrite (proj2 (range_false 48 57 (c - 32))) by lia.
  rewrite (proj2 (range_false 97 102 (c - 32))) by lia.
  rewrite (proj2 (range_spec 65 70 (c - 32))) by lia.
  rewrite (proj2 (range_false 48 57 c)) by lia.
  rewrite (proj2 (range_spec 97 102 c)) by lia.
  f_equal. lia.
Qed.

Lemma low_byte_upper (c : N) :
  hex_val (low_byte (hex_upper c)) = hex_val (low_byte c).
Proof.
  unfold hex_upper. destruct (in_range 97 102 c) eqn:E; [|reflexivity].
  rewrite <- (hex_val_upper (low_byte c)). f_equal.
  apply range_spec in E. unfold hex_upper, low_byte.
  rewrite !N.mod_small by lia.
  now rewrite (proj2 (range_spec 97 102 c)) by lia.
Qed.

Lemma from_hex_upper (s : jsstring) :
  from_hex (List.map hex_upper s) = from_hex s.
Proof.
  assert (H : forall n s, (List.length s <= n)%nat ->
                          from_hex (List.map hex_upper s) = from_hex s).
  { induction n as [|n IH]; intros [|a [|b r]] Hn; try reflexivity;
      cbn [List.length] in Hn; try lia.
    cbn [List.map from_hex]. rewrite !low_byte_upper, IH by lia. reflexivity. }
  now apply (H (List.length s)).
Qed.

Lemma is_hex_upper (s : jsstring) :
  is_hex_string s = true -> is_hex_string (List.map hex_upper s) = true.
Proof.
  unfold is_hex_string, is_hex_digit.
  induction s as [|c s IH]; [reflexivity|].
  cbn [List.map forallb]. rewrite hex_val_upper. intros H.
  apply andb_prop in H as [Hc Hs]. now rewrite Hc, IH.
Qed.

End VerifyMore.

(** X3: [verifyWebhook] accepts exactly when a secret is at hand, the
    signature (its first [sha256=] removed) decodes to the HMAC-SHA256 of
    the body under that secret, and the body is a JSON text; what it then
    returns is the parsed body, without error. *)
Theorem verifyWebhook_accepts_iff
    (config : SDKConfig) (body signature : jsstring)
    (secret_arg : option jsstring) :
  (isValid (IndexTs.verifyWebhook config body signature secret_arg) = true
   <-> exists key v,
         effective_secret config secret_arg = Some key
         /\ from_hex (replace_str (js "sha256=") [] signature)
            = hmac_sha256 (utf8 key) (utf8 body)
         /\ Json.parse body = Ret v)
  /\ (forall v,
        isValid (IndexTs.verifyWebhook config body signature secret_arg) = true ->
        Json.parse body = Ret v ->
        IndexTs.verifyWebhook config body signature secret_arg
        = {| isValid := true; payload := Some v; error := None |}).
Proof.
  split; [split|].
  - intros H. apply verifyWebhook_valid in H as (key & v & Hk & Hd & Hp & _).
    now exists key, v.
  - intros (key & v & Hk & Hd & Hp).
    now rewrite (verifyWebhook_authentic config body signature key _ v Hk Hd Hp).
  - intros v H Hp. apply verifyWebhook_valid in H as (key & v' & _ & _ & Hp' & ->).
    congruence.
Qed.

(** X4: a signature that decodes to 32 bytes other than the expected HMAC
    is rejected with the error 'Invalid signature', whatever the body. *)
Theorem verifyWebhook_rejects_wrong_bytes
    (config : SDKConfig) (body signature key : jsstring)
    (secret_arg : option jsstring) :
  effective_secret config secret_arg = Some key ->
  List.length (from_hex (replace_str (js "sha256=") [] signature)) = 32%nat ->
  from_hex (replace_str (js "sha256=") [] signature)
  <> hmac_sha256 (utf8 key) (utf8 body) ->
  IndexTs.verifyWebhook config body signature secret_arg
  = rejected (Text (js "Invalid signature")).
Proof.
  intros Hk Hl Hd.
  rewrite (verifyWebhook_with_secret config body signature key) by exact Hk.
  cbn zeta. rewrite Hl. cbn [Nat.eqb negb].
  rewrite bool_decide_eq_false_2 by congruence. reflexivity.
Qed.

Lemma verifyWebhook_rejects_wrong_bytes_witness :
  let config := {| apiUrl := js "https://api.example.com"; apiKey := None;
                   secret := Some (js "test-secret") |} in
  let signature :=
    js "sha256=abcd1234abcd1234abcd1234abcd1234abcd1234abcd1234abcd1234abcd1234" in
  effective_secret config None = Some (js "test-secret")
  /\ List.length (from_hex (replace_str (js "sha256=") [] signature)) = 32%nat
  /\ from_hex (replace_str (js "sha256=") [] signature)
     <> hmac_sha256 (utf8 (js "test-secret")) (utf8 (js "{}"))
  /\ IndexTs.verifyWebhook config (js "{}") signature None
     = rejected (Text (js "Invalid signature")).
Proof.
  cbv zeta.
  assert (H3 : from_hex (replace_str (js "sha256=") []
                 (js "sha256=abcd1234abcd1234abcd1234abcd1234abcd1234abcd1234abcd1234abcd1234"))
               <> hmac_sha256 (utf8 (js "test-secret")) (utf8 (js "{}")))
    by (vm_compute; discriminate).
  split; [reflexivity|]. split; [reflexivity|]. split; [exact H3|].
  exact (verifyWebhook_rejects_wrong_bytes
           {| apiUrl := js "https://api.example.com"; apiKey := None;
              secret := Some (js "test-secret") |}
           (js "{}")
           (js "sha256=abcd1234abcd1234abcd1234abcd1234abcd1234abcd1234abcd1234abcd1234")
           (js "test-secret") None eq_refl eq_refl H3).
Defined.

(** X5: a non-empty secret argument makes the configured secret
    irrelevant; an absent or empty one stands for the configured secret;
    with neither, every call is rejected with 'No webhook secret provided',
    whatever the signature. *)
Theorem verifyWebhook_secret_precedence
    (config : SDKConfig) (body signature : jsstring) :
  (forall config' s, s <> [] ->
     IndexTs.verifyWebhook config body signature (Some s)
     = IndexTs.verifyWebhook config' body signature (Some s))
  /\ IndexTs.verifyWebhook config body signature None
     = IndexTs.verifyWebhook config body signature (secret config)
  /\ IndexTs.verifyWebhook config body signature (Some [])
     = IndexTs.verifyWebhook config body signature (secret config)
  /\ (secret config = None \/ secret config = Some [] ->
      IndexTs.verifyWebhook config body signature None
      = rejected (Text (js "No webhook secret provided"))).
Proof.
  repeat split.
  - intros config' s Hs. apply verifyWebhook_by_secret.
    rewrite !effective_secret_cases. now destruct s.
  - apply verifyWebhook_by_secret. rewrite !effective_secret_cases.
    now destruct (secret config) as [[|c s]|].
  - apply verifyWebhook_by_secret. rewrite !effective_secret_cases.
    now destruct (secret config) as [[|c s]|].
  - intros H. apply verifyWebhook_without_secret.
    rewrite effective_secret_cases. now destruct H as [-> | ->].
Qed.

(** X6: the result of [verifyWebhook] is well formed: a valid one carries
    a payload and no error, an invalid one an error and no payload. *)
Theorem verifyWebhook_result_shape
    (config : SDKConfig) (body signature : jsstring)
    (secret_arg : option jsstring) :
  let r := IndexTs.verifyWebhook config body signature secret_arg in
  if isValid r then (exists v, payload r = Some v) /\ error r = None
  else payload r = None /\ exists e, error r = Some e.
Proof.
  cbv zeta. destruct (effective_secret config secret_arg) as [key|] eqn:Hk.
  - rewrite (verifyWebhook_with_secret config body signature key) by exact Hk.
    cbn zeta. destruct (negb _); [cbn; eauto|].
    destruct (negb _); [cbn; eauto|].
    destruct (Json.parse body); cbn; eauto.
  - rewrite verifyWebhook_without_secret by exact Hk. cbn. eauto.
Qed.

(** X7: the marker [sha256=] is removed where it first occurs, not only
    at the start: hex digits with the marker in their middle verify like
    the digits alone. *)
Theorem verifyWebhook_marker_anywhere
    (config : SDKConfig) (body a b : jsstring) (secret_arg : option jsstring) :
  is_hex_string a = true -> is_hex_string b = true ->
  IndexTs.verifyWebhook config body (a ++ js "sha256=" ++ b) secret_arg
  = IndexTs.verifyWebhook config body (a ++ b) secret_arg.
Proof.
  intros Ha Hb. apply verifyWebhook_clean_signature.
  change (js "sha256=") with (115 :: js "ha256=").
  rewrite replace_str_inside by now apply hex_not_s.
  symmetry. apply (replace_str_absent 115 (js "ha256=")).
  apply hex_not_s. unfold is_hex_string in *. now rewrite forallb_app, Ha, Hb.
Qed.

Lemma verifyWebhook_marker_anywhere_witness :
  let config := {| apiUrl := js "https://api.example.com"; apiKey := None;
                   secret := Some (js "test-secret") |} in
  let h := signature_of (js "test-secret") (js "{}") in
  (is_hex_string (take 10 h) = true /\ is_hex_string (drop 10 h) = true)
  /\ IndexTs.verifyWebhook config (js "{}")
       (take 10 h ++ js "sha256=" ++ drop 10 h) None
     = IndexTs.verifyWebhook config (js "{}") (take 10 h ++ drop 10 h) None.
Proof.
  cbv zeta.
  assert (Ha : is_hex_string (take 10 (signature_of (js "test-secret") (js "{}")))
               = true) by (vm_compute; reflexivity).
  assert (Hb : is_hex_string (drop 10 (signature_of (js "test-secret") (js "{}")))
               = true) by (vm_compute; reflexivity).
  split; [now split|].
  exact (verifyWebhook_marker_anywhere _ (js "{}") _ _ None Ha Hb).
Defined.

(** X8: the signature is compared as bytes, so the hex digits may be in
    upper case: a string of hex digits and its upper-case form verify
    alike, with or without the marker. *)
Theorem verifyWebhook_hex_case
    (config : SDKConfig) (body h : jsstring) (secret_arg : option jsstring) :
  is_hex_string h = true ->
  IndexTs.verifyWebhook config body (List.map hex_upper h) secret_arg
  = IndexTs.verifyWebhook config body h secret_arg
  /\ IndexTs.verifyWebhook config body (js "sha256=" ++ List.map hex_upper h)
       secret_arg
     = IndexTs.verifyWebhook config body h secret_arg.
Proof.
  intros Hh. split; apply verifyWebhook_by_bytes.
  - rewrite !replace_str_hex by (try apply is_hex_upper; exact Hh).
    apply from_hex_upper.
  - rewrite replace_str_prefix, replace_str_hex by exact Hh.
    apply from_hex_upper.
Qed.

Lemma verifyWebhook_hex_case_witness :
  let config := {| apiUrl := js "https://api.example.com"; apiKey := None;
                   secret := Some (js "test-secret") |} in
  let h := signature_of (js "test-secret") (js "{}") in
  is_hex_string h = true
  /\ (IndexTs.verifyWebhook config (js "{}") (List.map hex_upper h) None
      = IndexTs.verifyWebhook config (js "{}") h None
      /\ IndexTs.verifyWebhook config (js "{}")
           (js "sha256=" ++ List.map hex_upper h) None
         = IndexTs.verifyWebhook config (js "{}") h None).
Proof.
  cbv zeta.
  assert (H : is_hex_string (signature_of (js "test-secret") (js "{}")) = true)
    by (vm_compute; reflexivity).
  split; [exact H|].
  exact (verifyWebhook_hex_case _ (js "{}") _ None H).
Defined.

(** ** The handler *)

(** X9: [createWebhookHandler] answers 200 exactly to a POST that carries
    a non-empty signature header which decodes to the HMAC-SHA256 of the
    stringified body under the secret of the handler's configuration or,
    failing that, of the SDK, the stringified body being a JSON text; any
    other request gets a failure with code 405, 400, 401 or 500. *)
Theorem createWebhookHandler_accepts_iff
    (sdk : SDKConfig) (config : Handler.WebhookConfig) (req : Handler.request) :
  (Handler.createWebhookHandler sdk config req = Handler.Succeeded 200
   <-> exists signature body key v,
         Handler.method req = js "POST"
         /\ Handler.signature_header req = Some signature
         /\ signature <> []
         /\ Handler.stringified req = Ret body
         /\ effective_secret sdk (Handler.secret config) = Some key
         /\ from_hex (replace_str (js "sha256=") [] signature)
            = hmac_sha256 (utf8 key) (utf8 body)
         /\ Json.parse body = Ret v)
  /\ (Handler.createWebhookHandler sdk config req = Handler.Succeeded 200
      \/ exists code e,
           Handler.createWebhookHandler sdk config req = Handler.Failed code e
           /\ In code [405; 400; 401; 500]).
Proof.
  unfold Handler.createWebhookHandler.
  case_bool_decide as Hm; cbn [negb].
  2:{ split; [|right; eexists _, _; split; [reflexivity|cbn; auto]].
      split; [discriminate|]. intros (? & ? & ? & ? & H & _). congruence. }
  destruct (Handler.signature_header req) as [signature|] eqn:Hsig; cbn [try_catch].
  2:{ split; [|right; eexists _, _; split; [reflexivity|cbn; auto]].
      split; [discriminate|]. intros (? & ? & ? & ? & _ & H & _). congruence. }
  destruct signature as [|c sig]; cbn [truthy negb try_catch].
  { split; [|right; eexists _, _; split; [reflexivity|cbn; auto]].
    split; [discriminate|]. intros (? & ? & ? & ? & _ & H & H' & _). congruence. }
  destruct (Handler.stringified req) as [body|t] eqn:Hbody;
    cbn [mbind Exc_bind bind try_catch].
  2:{ split; [|right; eexists _, _; split; [reflexivity|cbn; auto]].
      split; [discriminate|]. intros (? & ? & ? & ? & _ & _ & _ & H & _). congruence. }
  destruct (isValid (IndexTs.verifyWebhook sdk body (c :: sig) (Handler.secret config)))
    eqn:Hv; cbn [negb try_catch].
  - split; [|now left]. split; [|reflexivity]. intros _.
    apply verifyWebhook_valid in Hv as (key & v & Hk & Hd & Hp & _).
    exists (c :: sig), body, key, v. repeat split; try assumption. discriminate.
  - split; [|right; eexists _, _; split; [reflexivity|cbn; auto]].
    split; [discriminate|].
    intros (s' & b' & key & v & _ & [= <-] & _ & [= <-] & Hk & Hd & Hp).
    rewrite (verifyWebhook_authentic sdk body (c :: sig) key _ v Hk Hd Hp) in Hv.
    discriminate.
Qed.

(** ** More on the catalog *)

Section CatalogMore.

Import Catalog.

Implicit Types (jobs : list StoredJob) (jobData : JobData) (s : Site).

(** [findIndex] is the first position that holds the id. *)
Lemma findIndex_first jobs id i :
  findIndex id jobs = Some i <->
  (exists old, jobs !! i = Some old /\ stored_id old = id)
  /\ (forall j y, jobs !! j = Some y -> (j < i)%nat -> stored_id y <> id).
Proof.
  unfold findIndex. rewrite fmap_Some. split.
  - intros ([i' old] & H & ->). apply list_find_Some in H as (H1 & H2 & H3).
    split; [now exists old|exact H3].
  - intros ((old & H1 & H2) & H3). exists (i, old). split; [|reflexivity].
    apply list_find_Some. auto.
Qed.

Lemma upsert_cases jobs jobData :
  (exists i old, jobs !! i = Some old /\ stored_id old = job_id jobData
                 /\ findIndex (job_id jobData) jobs = Some i
                 /\ upsert jobs jobData = <[i := stored jobData]> jobs)
  \/ ((job_id jobData ∉ ids jobs)
      /\ upsert jobs jobData = jobs ++ [stored jobData]).
Proof.
  unfold upsert. cbn zeta. fold (stored jobData).
  destruct (findIndex (job_id jobData) jobs) as [i|] eqn:E.
  - left. destruct (findIndex_Some _ _ _ E) as (old & Hi & Hid).
    now exists i, old.
  - right. split; [now apply findIndex_None|reflexivity].
Qed.

Lemma upsert_again jobs jobData :
  upsert (upsert jobs jobData) jobData = upsert jobs jobData.
Proof.
  destruct (upsert_cases jobs jobData)
    as [(i & old & Hi & Hid & Hf & ->)|(Habs & ->)].
  - assert (Hlt : (i < List.length jobs)%nat) by now apply lookup_lt_Some in Hi.
    assert (Hf' : findIndex (job_id jobData) (<[i := stored jobData]> jobs) = Some i).
    { apply findIndex_first. apply findIndex_first in Hf as [_ Hfirst]. split.
      - exists (stored jobData). split; [now apply list_lookup_insert_eq|reflexivity].
      - intros j y Hj Hji. rewrite list_lookup_insert_ne in Hj by lia.
        now apply (Hfirst j). }
    unfold upsert at 1. cbn zeta. rewrite Hf'. apply list_insert_insert_eq.
  - assert (Hf' : findIndex (job_id jobData) (jobs ++ [stored jobData])
                  = Some (List.length jobs)).
    { apply findIndex_first. split.
      - exists (stored jobData). split; [now apply list_lookup_middle|reflexivity].
      - intros j y Hj Hlt. rewrite lookup_app_l in Hj by exact Hlt.
        intros E. apply Habs. unfold ids. apply list_elem_of_fmap. exists y.
        split; [easy|]. apply list_elem_of_lookup. now exists j. }
    unfold upsert at 1. cbn zeta. rewrite Hf'. apply list_insert_id.
    now apply list_lookup_middle.
Qed.

Lemma upsert_other jobs jobData i old :
  jobs !! i = Some old -> stored_id old <> job_id jobData ->
  upsert jobs jobData !! i = Some old.
Proof.
  intros Hi Hne.
  destruct (upsert_cases jobs jobData)
    as [(k & old' & Hk & Hid & _ & ->)|(_ & ->)].
  - rewrite list_lookup_insert_ne; [exact Hi|]. intros ->. congruence.
  - rewrite lookup_app_l; [exact Hi|]. now apply lookup_lt_Some in Hi.
Qed.

Lemma upsert_length jobs jobData :
  List.length (upsert jobs jobData)
  = if bool_decide (job_id jobData ∈ ids jobs) then List.length jobs
    else S (List.length jobs).
Proof.
  destruct (upsert_cases jobs jobData)
    as [(k & old & Hk & Hid & _ & ->)|(Habs & ->)].
  - rewrite length_insert, bool_decide_eq_true_2; [reflexivity|].
    unfold ids. apply list_elem_of_fmap. exists old. split; [easy|].
    apply list_elem_of_lookup. now exists k.
  - rewrite bool_decide_eq_false_2 by exact Habs.
    rewrite length_app. cbn. lia.
Qed.

Lemma upsert_elem jobs jobData j :
  j ∈ upsert jobs jobData -> j = stored jobData \/ j ∈ jobs.
Proof.
  destruct (upsert_cases jobs jobData)
    as [(k & old & Hk & Hid & _ & ->)|(Habs & ->)].
  - intros H. apply list_elem_of_lookup in H as [n Hn].
    apply list_lookup_insert_Some in Hn as [(_ & <- & _)|(_ & Hn)]; [now left|].
    right. apply list_elem_of_lookup. now exists n.
  - intros H. apply elem_of_app in H as [H|H]; [now right|].
    apply list_elem_of_singleton in H. now left.
Qed.

Lemma filter_insert_out jobs i x id :
  stored_id x = id ->
  (forall old, jobs !! i = Some old -> stored_id old = id) ->
  filter (fun j => stored_id j ≠ id) (<[i := x]> jobs)
  = filter (fun j => stored_id j ≠ id) jobs.
Proof.
  intros Hx. revert i. induction jobs as [|y jobs IH]; intros i Hold; [reflexivity|].
  destruct i as [|i]; cbn [insert list_insert].
  - rewrite !filter_cons. rewrite decide_False by (intros H; now apply H).
    rewrite decide_False; [reflexivity|].
    intros H. apply H. now apply Hold.
  - rewrite !filter_cons. rewrite IH; [reflexivity|]. intros old H. now apply Hold.
Qed.

Lemma filter_upsert jobs jobData :
  filter (fun j => stored_id j ≠ job_id jobData) (upsert jobs jobData)
  = filter (fun j => stored_id j ≠ job_id jobData) jobs.
Proof.
  destruct (upsert_cases jobs jobData)
    as [(k & old & Hk & Hid & _ & ->)|(Habs & ->)].
  - apply filter_insert_out; [reflexivity|]. intros old' H. congruence.
  - rewrite filter_app, filter_cons, decide_False by (intros H; now apply H).
    rewrite filter_nil. apply app_nil_r.
Qed.

Lemma ids_filter jobs id :
  ids (filter (fun j => stored_id j ≠ id) jobs)
  = filter (fun x => x ≠ id) (ids jobs).
Proof.
  unfold ids. induction jobs as [|y jobs IH]; [reflexivity|].
  rewrite fmap_cons, !filter_cons. destruct (decide (stored_id y ≠ id)).
  - rewrite fmap_cons. now f_equal.
  - exact IH.
Qed.

(** What a run of [handleJobDeleted] does to a readable file. *)
Lemma deleted_catalog io jobData s :
  write_succeeds io = true ->
  catalog (snd (handleJobDeleted io jobData s))
  = filter (fun j => stored_id j ≠ job_id jobData) (catalog s).
Proof.
  intros Hw. unfold handleJobDeleted, handleJobDeleted_try, catalog.
  destruct (jobs_json s) as [|jobs] eqn:E; cbn [fst snd].
  - now rewrite E.
  - rewrite Hw. reflexivity.
Qed.

Lemma deleted_failed io jobData s :
  write_succeeds io = false ->
  handleJobDeleted io jobData s = (Ret tt, s).
Proof.
  intros Hw. unfold handleJobDeleted, handleJobDeleted_try.
  destruct (jobs_json s) as [|jobs]; [reflexivity|]. now rewrite Hw.
Qed.

End CatalogMore.

(** X10: [handleJobCreatedOrUpdated] is idempotent: a second successful run
    with the same job leaves the file as the first run left it. *)
Theorem upsert_is_idempotent
    (io io' : Catalog.Io) (jobData : JobData) (s : Catalog.Site) :
  let run := Catalog.handleJobCreatedOrUpdated io jobData s in
  let run' := Catalog.handleJobCreatedOrUpdated io' jobData (snd run) in
  fst run = Ret tt -> fst run' = Ret tt ->
  Catalog.jobs_json (snd run') = Catalog.jobs_json (snd run).
Proof.
  cbv zeta. unfold Catalog.handleJobCreatedOrUpdated.
  destruct (Catalog.mkdir_succeeds io), (Catalog.write_succeeds io);
    cbn; try discriminate.
  destruct (Catalog.mkdir_succeeds io'), (Catalog.write_succeeds io');
    cbn; try discriminate.
  intros _ _. f_equal. apply upsert_again.
Qed.

Lemma upsert_is_idempotent_witness :
  let io := {| Catalog.mkdir_succeeds := true; Catalog.write_succeeds := true |} in
  let s := {| Catalog.jobs_json := Catalog.Unreadable; Catalog.revalidated := [] |} in
  let job := example_job (js "42") (js "Roof Repair") in
  let run := Catalog.handleJobCreatedOrUpdated io job s in
  let run' := Catalog.handleJobCreatedOrUpdated io job (snd run) in
  (fst run = Ret tt /\ fst run' = Ret tt)
  /\ Catalog.jobs_json (snd run') = Catalog.jobs_json (snd run).
Proof.
  cbv zeta. split; [split; reflexivity|].
  exact (upsert_is_idempotent
           {| Catalog.mkdir_succeeds := true; Catalog.write_succeeds := true |}
           {| Catalog.mkdir_succeeds := true; Catalog.write_succeeds := true |}
           (example_job (js "42") (js "Roof Repair"))
           {| Catalog.jobs_json := Catalog.Unreadable; Catalog.revalidated := [] |}
           eq_refl eq_refl).
Defined.

(** X11: a successful [handleJobCreatedOrUpdated] touches one record only:
    every record with another id stays at its position, and the catalog
    grows by one record when the id is new and keeps its length when it
    is known. *)
Theorem upsert_leaves_others
    (io : Catalog.Io) (jobData : JobData) (s : Catalog.Site) :
  let run := Catalog.handleJobCreatedOrUpdated io jobData s in
  fst run = Ret tt ->
  (forall i old,
      Catalog.catalog s !! i = Some old ->
      Catalog.stored_id old <> job_id jobData ->
      Catalog.catalog (snd run) !! i = Some old)
  /\ List.length (Catalog.catalog (snd run))
     = if bool_decide (job_id jobData ∈ Catalog.ids (Catalog.catalog s))
       then List.length (Catalog.catalog s)
       else S (List.length (Catalog.catalog s)).
Proof.
  cbv zeta. intros Hok. rewrite created_catalog by exact Hok. split.
  - intros i old. apply upsert_other.
  - apply upsert_length.
Qed.

Lemma upsert_leaves_others_witness :
  let io := {| Catalog.mkdir_succeeds := true; Catalog.write_succeeds := true |} in
  let s := {| Catalog.jobs_json :=
                Catalog.Holds [Catalog.stored (example_job (js "41") (js "Roof Repair"));
                               Catalog.stored (example_job (js "42") (js "Old title"))];
              Catalog.revalidated := [] |} in
  let job := example_job (js "42") (js "New Title") in
  let run := Catalog.handleJobCreatedOrUpdated io job s in
  fst run = Ret tt
  /\ ((forall i old,
          Catalog.catalog s !! i = Some old ->
          Catalog.stored_id old <> job_id job ->
          Catalog.catalog (snd run) !! i = Some old)
      /\ List.length (Catalog.catalog (snd run))
         = if bool_decide (job_id job ∈ Catalog.ids (Catalog.catalog s))
           then List.length (Catalog.catalog s)
           else S (List.length (Catalog.catalog s))).
Proof.
  cbv zeta. split; [reflexivity|].
  exact (upsert_leaves_others
           {| Catalog.mkdir_succeeds := true; Catalog.write_succeeds := true |}
           (example_job (js "42") (js "New Title"))
           {| Catalog.jobs_json :=
                Catalog.Holds [Catalog.stored (example_job (js "41") (js "Roof Repair"));
                               Catalog.stored (example_job (js "42") (js "Old title"))];
              Catalog.revalidated := [] |}
           eq_refl).
Defined.

(** X12: deleting what was just created or updated: after a successful
    [handleJobCreatedOrUpdated] and a [handleJobDeleted] whose write
    succeeds, for the same id, the catalog is the one before both without
    the records of that id; it is the one before both when the id was new. *)
Theorem create_then_delete
    (io io' : Catalog.Io) (jobData jobData' : JobData) (s : Catalog.Site) :
  let run := Catalog.handleJobCreatedOrUpdated io jobData s in
  let run' := Catalog.handleJobDeleted io' jobData' (snd run) in
  fst run = Ret tt -> Catalog.write_succeeds io' = true ->
  job_id jobData' = job_id jobData ->
  Catalog.catalog (snd run')
  = filter (fun j => Catalog.stored_id j ≠ job_id jobData) (Catalog.catalog s)
  /\ (job_id jobData ∉ Catalog.ids (Catalog.catalog s) ->
      Catalog.catalog (snd run') = Catalog.catalog s).
Proof.
  cbv zeta. intros Hok Hw Hid.
  rewrite deleted_catalog by exact Hw. rewrite created_catalog by exact Hok.
  rewrite Hid, filter_upsert. split; [reflexivity|].
  intros Habs. now apply filter_absent.
Qed.

Lemma create_then_delete_witness :
  let io := {| Catalog.mkdir_succeeds := true; Catalog.write_succeeds := true |} in
  let s := {| Catalog.jobs_json :=
                Catalog.Holds [Catalog.stored (example_job (js "41") (js "Roof Repair"))];
              Catalog.revalidated := [] |} in
  let job := example_job (js "42") (js "New Title") in
  let run := Catalog.handleJobCreatedOrUpdated io job s in
  let run' := Catalog.handleJobDeleted io job (snd run) in
  (fst run = Ret tt /\ Catalog.write_succeeds io = true /\ job_id job = job_id job)
  /\ (Catalog.catalog (snd run')
      = filter (fun j => Catalog.stored_id j ≠ job_id job) (Catalog.catalog s)
      /\ (job_id job ∉ Catalog.ids (Catalog.catalog s) ->
          Catalog.catalog (snd run') = Catalog.catalog s)).
Proof.
  cbv zeta. split; [repeat split|].
  exact (create_then_delete
           {| Catalog.mkdir_succeeds := true; Catalog.write_succeeds := true |}
           {| Catalog.mkdir_succeeds := true; Catalog.write_succeeds := true |}
           (example_job (js "42") (js "New Title"))
           (example_job (js "42") (js "New Title"))
           {| Catalog.jobs_json :=
                Catalog.Holds [Catalog.stored (example_job (js "41") (js "Roof Repair"))];
              Catalog.revalidated := [] |}
           eq_refl eq_refl eq_refl).
Defined.

(** X13: a [handleJobDeleted] whose write succeeds removes every record
    with the id, also when there are several, and nothing else: the ids
    left are the former ids without that one, in their order, and ids that
    were pairwise distinct stay so. *)
Theorem delete_removes_id
    (io : Catalog.Io) (jobData : JobData) (s : Catalog.Site) :
  Catalog.write_succeeds io = true ->
  let after := Catalog.catalog (snd (Catalog.handleJobDeleted io jobData s)) in
(job_id jobData ∉ Catalog.ids after)
  /\ Catalog.ids after
     = filter (fun x => x ≠ job_id jobData) (Catalog.ids (Catalog.catalog s))
  /\ (forall j, j ∈ after
                <-> j ∈ Catalog.catalog s /\ Catalog.stored_id j <> job_id jobData)
  /\ (NoDup (Catalog.ids (Catalog.catalog s)) -> NoDup (Catalog.ids after)).
Proof.
  intros Hw. cbv zeta. rewrite deleted_catalog by exact Hw.
  rewrite ids_filter. split; [|split; [reflexivity|split]].
  - intros H. apply list_elem_of_filter in H as [H _]. now apply H.
  - intros j. rewrite list_elem_of_filter. tauto.
  - apply NoDup_filter.
Qed.

Lemma delete_removes_id_witness :
  let io := {| Catalog.mkdir_succeeds := true; Catalog.write_succeeds := true |} in
  let s := {| Catalog.jobs_json :=
                Catalog.Holds [Catalog.stored (example_job (js "42") (js "Roof Repair"));
                               Catalog.stored (example_job (js "41") (js "Drain"));
                               Catalog.stored (example_job (js "42") (js "Copy"))];
              Catalog.revalidated := [] |} in
  let job := example_job (js "42") [] in
  let after := Catalog.catalog (snd (Catalog.handleJobDeleted io job s)) in
  Catalog.write_succeeds io = true
  /\ ((job_id job ∉ Catalog.ids after)
      /\ Catalog.ids after
         = filter (fun x => x ≠ job_id job) (Catalog.ids (Catalog.catalog s))
      /\ (forall j, j ∈ after
                    <-> j ∈ Catalog.catalog s /\ Catalog.stored_id j <> job_id job)
      /\ (NoDup (Catalog.ids (Catalog.catalog s)) -> NoDup (Catalog.ids after))).
Proof.
  cbv zeta. split; [reflexivity|].
  exact (delete_removes_id
           {| Catalog.mkdir_succeeds := true; Catalog.write_succeeds := true |}
           (example_job (js "42") [])
           {| Catalog.jobs_json :=
                Catalog.Holds [Catalog.stored (example_job (js "42") (js "Roof Repair"));
                               Catalog.stored (example_job (js "41") (js "Drain"));
                               Catalog.stored (example_job (js "42") (js "Copy"))];
              Catalog.revalidated := [] |}
           eq_refl).
Defined.


(** X15: both handlers keep the invariant that every stored job carries
    the slug of its title. *)
Theorem handlers_keep_slugs
    (io : Catalog.Io) (jobData : JobData) (s : Catalog.Site) :
  slugs_derived (Catalog.catalog s) ->
  slugs_derived (Catalog.catalog (snd (Catalog.handleJobCreatedOrUpdated io jobData s)))
  /\ slugs_derived (Catalog.catalog (snd (Catalog.handleJobDeleted io jobData s))).
Proof.
  unfold slugs_derived. intros H. split.
  - destruct (created_cases io jobData s) as [Hok|Hko]; [|now rewrite Hko].
    rewrite created_catalog by exact Hok.
    destruct (upsert_cases (Catalog.catalog s) jobData)
      as [(k & old & _ & _ & _ & ->)|(_ & ->)].
    + now apply Forall_insert.
    + apply Forall_app. split; [exact H|]. now apply Forall_singleton.
  - destruct (Catalog.write_succeeds io) eqn:Hw.
    + rewrite deleted_catalog by exact Hw.
      apply Forall_forall. intros j Hj. apply list_elem_of_filter in Hj as [_ Hj].
      rewrite Forall_forall in H. now apply H.
    + now rewrite deleted_failed.
Qed.

Lemma handlers_keep_slugs_witness :
  let io := {| Catalog.mkdir_succeeds := true; Catalog.write_succeeds := true |} in
  let s := {| Catalog.jobs_json :=
                Catalog.Holds [Catalog.stored (example_job (js "41") (js "Roof Repair"))];
              Catalog.revalidated := [] |} in
  let job := example_job (js "42") (js "New Title") in
  slugs_derived (Catalog.catalog s)
  /\ (slugs_derived (Catalog.catalog (snd (Catalog.handleJobCreatedOrUpdated io job s)))
      /\ slugs_derived (Catalog.catalog (snd (Catalog.handleJobDeleted io job s)))).
Proof.
  cbv zeta.
  assert (H : slugs_derived (Catalog.catalog
    {| Catalog.jobs_json :=
         Catalog.Holds [Catalog.stored (example_job (js "41") (js "Roof Repair"))];
       Catalog.revalidated := [] |})).
  { unfold slugs_derived. repeat constructor. }
  split; [exact H|].
  exact (handlers_keep_slugs
           {| Catalog.mkdir_succeeds := true; Catalog.write_succeeds := true |}
           (example_job (js "42") (js "New Title")) _ H).
Defined.

(** ** Reading the catalog *)

Section ReadersFacts.

Import Catalog Readers.

Implicit Types (jobs : list StoredJob) (s : Site) (sl : jsstring).

Lemma getAllJobs_catalog s : getAllJobs s = catalog s.
Proof. reflexivity. Qed.

(** [find] returns a job of the catalog with the slug asked for. *)
Lemma getJobBySlug_Some s sl job :
  getJobBySlug s sl = Some job -> job ∈ catalog s /\ slug job = sl.
Proof.
  unfold getJobBySlug. intros H. apply fmap_Some in H as ([i x] & H & ->).
  apply list_find_Some in H as (Hi & HP & _). split; [|exact HP].
  apply list_elem_of_lookup. now exists i.
Qed.

Lemma getJobBySlug_found s sl job :
  job ∈ catalog s -> slug job = sl -> is_Some (getJobBySlug s sl).
Proof.
  intros Hin Hsl. unfold getJobBySlug.
  destruct (list_find_elem_of (fun j => slug j = sl) (getAllJobs s) job Hin Hsl)
    as [[i x] ->].
  now eexists.
Qed.

(** Filtering keeps the first match when the match passes the filter. *)
Lemma list_find_filter (P Q : StoredJob -> Prop)
    {dP : forall x, Decision (P x)} {dQ : forall x, Decision (Q x)} jobs i x :
  list_find P jobs = Some (i, x) -> Q x ->
  exists i', list_find P (filter Q jobs) = Some (i', x).
Proof.
  revert i. induction jobs as [|y jobs IH]; intros i Hf HQ; [discriminate|].
  cbn [list_find] in Hf. rewrite filter_cons. destruct (decide (P y)) as [HP|HP].
  - injection Hf as <- <-. rewrite decide_True by exact HQ.
    exists 0%nat. cbn [list_find]. now rewrite decide_True.
  - destruct (list_find P jobs) as [[k z]|] eqn:E; [|discriminate].
    cbn in Hf. injection Hf as <- <-.
    destruct (IH k eq_refl HQ) as [i' Hi'].
    destruct (decide (Q y)).
    + exists (S i'). cbn [list_find]. rewrite decide_False by exact HP.
      now rewrite Hi'.
    + now exists i'.
Qed.

End ReadersFacts.

(** X16: every slug that [generateStaticParams] lists is found again:
    [getJobBySlug] returns a job of the catalog with that slug, and
    [generateMetadata] describes that job, never 'Job Not Found', with a
    description of 160 code units at most. *)
Theorem static_params_resolve (s : Catalog.Site) (p : Readers.params) :
  p ∈ Readers.generateStaticParams s ->
  exists job,
    Readers.getJobBySlug s (Readers.param_slug p) = Some job
    /\ job ∈ Readers.getAllJobs s
    /\ Catalog.slug job = Readers.param_slug p
    /\ Readers.title (Readers.generateMetadata s p)
       = job_title (Catalog.data job) ++ js " - " ++ job_city (Catalog.data job)
         ++ js ", " ++ job_state (Catalog.data job)
    /\ exists d, Readers.description (Readers.generateMetadata s p) = Some d
                 /\ (List.length d <= 160)%nat
                 /\ d = take 160 (job_description (Catalog.data job)).
Proof.
  unfold Readers.generateStaticParams, Readers.getAllJobSlugs.
  intros H. apply list_elem_of_fmap in H as (sl & -> & H).
  apply list_elem_of_fmap in H as (job0 & -> & Hin). cbn [Readers.param_slug].
  destruct (getJobBySlug_found s (Catalog.slug job0) job0 Hin eq_refl) as [job Hjob].
  destruct (getJobBySlug_Some s _ job Hjob) as [Hmem Hslug].
  exists job. unfold Readers.generateMetadata. cbn [Readers.param_slug].
  rewrite Hjob. cbn. repeat split; try assumption.
  eexists. split; [reflexivity|]. split; [|reflexivity].
  unfold Readers.substring0. rewrite length_take. lia.
Qed.

Lemma static_params_resolve_witness :
  let s := {| Catalog.jobs_json :=
                Catalog.Holds [Catalog.stored (example_job (js "41") (js "Roof Repair"))];
              Catalog.revalidated := [] |} in
  let p := {| Readers.param_slug := js "roof-repair" |} in
  p ∈ Readers.generateStaticParams s
  /\ exists job,
       Readers.getJobBySlug s (Readers.param_slug p) = Some job
       /\ job ∈ Readers.getAllJobs s
       /\ Catalog.slug job = Readers.param_slug p
       /\ Readers.title (Readers.generateMetadata s p)
          = job_title (Catalog.data job) ++ js " - " ++ job_city (Catalog.data job)
            ++ js ", " ++ job_state (Catalog.data job)
       /\ exists d, Readers.description (Readers.generateMetadata s p) = Some d
                    /\ (List.length d <= 160)%nat
                    /\ d = take 160 (job_description (Catalog.data job)).
Proof.
  cbv zeta.
  assert (H : {| Readers.param_slug := js "roof-repair" |}
              ∈ Readers.generateStaticParams
                  {| Catalog.jobs_json :=
                       Catalog.Holds
                         [Catalog.stored (example_job (js "41") (js "Roof Repair"))];
                     Catalog.revalidated := [] |}).
  { vm_compute. apply list_elem_of_here. }
  split; [exact H|].
  exact (static_params_resolve _ _ H).
Defined.

(** X17: after a successful [handleJobCreatedOrUpdated], in a catalog with
    pairwise distinct ids where no job of another id has the slug of the
    new title, [getJobBySlug] of that slug returns the job just stored. *)
Theorem upsert_then_lookup
    (io : Catalog.Io) (jobData : JobData) (s : Catalog.Site) :
  let run := Catalog.handleJobCreatedOrUpdated io jobData s in
  fst run = Ret tt ->
  NoDup (Catalog.ids (Catalog.catalog s)) ->
  (forall j, j ∈ Catalog.catalog s ->
             Catalog.slug j = createSlug (job_title jobData) ->
             Catalog.stored_id j = job_id jobData) ->
  Readers.getJobBySlug (snd run) (createSlug (job_title jobData))
  = Some (Catalog.stored jobData).
Proof.
  cbv zeta. intros Hok Hnd Hfresh.
  pose proof (created_catalog io jobData s Hok) as Hcat.
  destruct (upsert_lookup (Catalog.catalog s) jobData) as [i Hi].
  rewrite <- Hcat in Hi.
  assert (Hin : Catalog.stored jobData
                ∈ Catalog.catalog (snd (Catalog.handleJobCreatedOrUpdated io jobData s))).
  { apply list_elem_of_lookup. now exists i. }
  destruct (getJobBySlug_found _ (createSlug (job_title jobData)) _ Hin eq_refl)
    as [job Hjob].
  rewrite Hjob. f_equal.
  destruct (getJobBySlug_Some _ _ _ Hjob) as [Hmem Hslug].
  assert (Hid : Catalog.stored_id job = job_id jobData).
  { rewrite Hcat in Hmem. apply upsert_elem in Hmem as [->|Hmem]; [reflexivity|].
    now apply Hfresh. }
  assert (Hf : job ∈ filter (fun j => Catalog.stored_id j
                                      = Catalog.stored_id (Catalog.stored jobData))
                       (Catalog.catalog
                          (snd (Catalog.handleJobCreatedOrUpdated io jobData s)))).
  { apply list_elem_of_filter. split; [exact Hid|exact Hmem]. }
  rewrite (filter_unique _ i (Catalog.stored jobData)) in Hf.
  - now apply list_elem_of_singleton in Hf.
  - rewrite Hcat. now apply upsert_NoDup.
  - exact Hi.
Qed.

Lemma upsert_then_lookup_witness :
  let io := {| Catalog.mkdir_succeeds := true; Catalog.write_succeeds := true |} in
  let s := {| Catalog.jobs_json :=
                Catalog.Holds
                  [Catalog.stored (example_job (js "41") (js "Drain Cleaning"));
                   Catalog.stored (example_job (js "42") (js "Old Roof"))];
              Catalog.revalidated := [] |} in
  let job := example_job (js "42") (js "Roof Repair") in
  let run := Catalog.handleJobCreatedOrUpdated io job s in
  (fst run = Ret tt
   /\ NoDup (Catalog.ids (Catalog.catalog s))
   /\ (forall j, j ∈ Catalog.catalog s ->
                 Catalog.slug j = createSlug (job_title job) ->
                 Catalog.stored_id j = job_id job))
  /\ Readers.getJobBySlug (snd run) (js "roof-repair")
     = Some {| Catalog.data := job; Catalog.slug := js "roof-repair" |}.
Proof.
  cbv zeta.
  set (s := {| Catalog.jobs_json :=
                 Catalog.Holds
                   [Catalog.stored (example_job (js "41") (js "Drain Cleaning"));
                    Catalog.stored (example_job (js "42") (js "Old Roof"))];
               Catalog.revalidated := [] |}).
  set (job := example_job (js "42") (js "Roof Repair")).
  assert (H2 : NoDup (Catalog.ids (Catalog.catalog s))).
  { refine (bool_decide_unpack _ _). vm_compute. exact I. }
  assert (H3 : forall j, j ∈ Catalog.catalog s ->
                         Catalog.slug j = createSlug (job_title job) ->
                         Catalog.stored_id j = job_id job).
  { intros j Hj Hs. cbn [Catalog.catalog Catalog.jobs_json s] in Hj.
    apply elem_of_cons in Hj as [->|Hj].
    - vm_compute in Hs. discriminate Hs.
    - apply elem_of_cons in Hj as [->|Hj]; [reflexivity|].
      now apply elem_of_nil in Hj. }
  split; [split; [reflexivity|split; assumption]|].
  exact (upsert_then_lookup
           {| Catalog.mkdir_succeeds := true; Catalog.write_succeeds := true |}
           job s eq_refl H2 H3).
Defined.

(** X18: a new job whose slug is already taken is shadowed: after a
    successful [handleJobCreatedOrUpdated] for a new id, [getJobBySlug] of
    the new job's slug returns what it returned before, a job with another
    id. *)
Theorem colliding_slug_is_shadowed
    (io : Catalog.Io) (jobData : JobData) (s : Catalog.Site)
    (taken : Catalog.StoredJob) :
  let run := Catalog.handleJobCreatedOrUpdated io jobData s in
  let sl := createSlug (job_title jobData) in
  fst run = Ret tt ->
  job_id jobData ∉ Catalog.ids (Catalog.catalog s) ->
  taken ∈ Catalog.catalog s -> Catalog.slug taken = sl ->
  Readers.getJobBySlug (snd run) sl = Readers.getJobBySlug s sl
  /\ exists job, Readers.getJobBySlug (snd run) sl = Some job
                 /\ Catalog.stored_id job <> job_id jobData.
Proof.
  cbv zeta. intros Hok Habs Hin Hsl.
  destruct (getJobBySlug_found s _ taken Hin Hsl) as [job Hjob].
  assert (Heq : Readers.getJobBySlug
                  (snd (Catalog.handleJobCreatedOrUpdated io jobData s))
                  (createSlug (job_title jobData))
                = Readers.getJobBySlug s (createSlug (job_title jobData))).
  { unfold Readers.getJobBySlug in *. rewrite !getAllJobs_catalog in *.
    rewrite created_catalog by exact Hok. rewrite upsert_absent by exact Habs.
    apply fmap_Some in Hjob as ([i x] & Hfind & ->).
    change (Readers.getAllJobs s) with (Catalog.catalog s).
    rewrite Hfind. now rewrite (list_find_app_l _ _ _ i x Hfind). }
  split; [exact Heq|]. exists job. split; [now rewrite Heq|].
  apply getJobBySlug_Some in Hjob as [Hmem _]. intros E. apply Habs.
  rewrite <- E. unfold Catalog.ids. apply list_elem_of_fmap. now exists job.
Qed.

Lemma colliding_slug_is_shadowed_witness :
  let io := {| Catalog.mkdir_succeeds := true; Catalog.write_succeeds := true |} in
  let taken := Catalog.stored (example_job (js "41") (js "Roof Repair")) in
  let s := {| Catalog.jobs_json := Catalog.Holds [taken];
              Catalog.revalidated := [] |} in
  let job := example_job (js "42") (js "roof  repair!") in
  let run := Catalog.handleJobCreatedOrUpdated io job s in
  let sl := createSlug (job_title job) in
  (fst run = Ret tt
   /\ (job_id job ∉ Catalog.ids (Catalog.catalog s))
   /\ taken ∈ Catalog.catalog s /\ Catalog.slug taken = sl)
  /\ (Readers.getJobBySlug (snd run) sl = Readers.getJobBySlug s sl
      /\ exists found, Readers.getJobBySlug (snd run) sl = Some found
                       /\ Catalog.stored_id found <> job_id job).
Proof.
  cbv zeta.
  assert (H2 : job_id (example_job (js "42") (js "roof  repair!"))
               ∉ Catalog.ids (Catalog.catalog
                   {| Catalog.jobs_json :=
                        Catalog.Holds
                          [Catalog.stored (example_job (js "41") (js "Roof Repair"))];
                      Catalog.revalidated := [] |})).
  { refine (bool_decide_unpack _ _). vm_compute. exact I. }
  assert (H3 : Catalog.stored (example_job (js "41") (js "Roof Repair"))
               ∈ Catalog.catalog
                   {| Catalog.jobs_json :=
                        Catalog.Holds
                          [Catalog.stored (example_job (js "41") (js "Roof Repair"))];
                      Catalog.revalidated := [] |}).
  { cbn. apply list_elem_of_here. }
  assert (H4 : Catalog.slug (Catalog.stored (example_job (js "41") (js "Roof Repair")))
               = createSlug (job_title (example_job (js "42") (js "roof  repair!"))))
    by (vm_compute; reflexivity).
  split; [split; [reflexivity|split; [exact H2|split; assumption]]|].
  exact (colliding_slug_is_shadowed
           {| Catalog.mkdir_succeeds := true; Catalog.write_succeeds := true |}
           (example_job (js "42") (js "roof  repair!"))
           {| Catalog.jobs_json :=
                Catalog.Holds
                  [Catalog.stored (example_job (js "41") (js "Roof Repair"))];
              Catalog.revalidated := [] |}
           (Catalog.stored (example_job (js "41") (js "Roof Repair")))
           eq_refl H2 H3 H4).
Defined.

(** X19: after a [handleJobDeleted] whose write succeeds, [getJobBySlug]
    never returns a job with the deleted id, and a slug that resolved to a
    job with another id resolves to the same job. *)
Theorem delete_then_lookup
    (io : Catalog.Io) (jobData : JobData) (s : Catalog.Site) :
  Catalog.write_succeeds io = true ->
  let after := snd (Catalog.handleJobDeleted io jobData s) in
  (forall sl job, Readers.getJobBySlug after sl = Some job ->
                  Catalog.stored_id job <> job_id jobData)
  /\ (forall sl job, Readers.getJobBySlug s sl = Some job ->
                     Catalog.stored_id job <> job_id jobData ->
                     Readers.getJobBySlug after sl = Some job).
Proof.
  intros Hw. cbv zeta. split.
  - intros sl job H. apply getJobBySlug_Some in H as [Hmem _].
    rewrite deleted_catalog in Hmem by exact Hw.
    now apply list_elem_of_filter in Hmem as [Hne _].
  - intros sl job H Hne. unfold Readers.getJobBySlug in *.
    rewrite !getAllJobs_catalog in *. rewrite deleted_catalog by exact Hw.
    apply fmap_Some in H as ([i x] & Hfind & ->). cbn [snd] in Hne |- *.
    destruct (list_find_filter _ (fun j => Catalog.stored_id j ≠ job_id jobData)
                _ i x Hfind Hne) as [i' ->].
    reflexivity.
Qed.

Lemma delete_then_lookup_witness :
  let io := {| Catalog.mkdir_succeeds := true; Catalog.write_succeeds := true |} in
  let s := {| Catalog.jobs_json :=
                Catalog.Holds [Catalog.stored (example_job (js "42") (js "Roof Repair"));
                               Catalog.stored (example_job (js "41") (js "Drain"))];
              Catalog.revalidated := [] |} in
  let job := example_job (js "42") [] in
  let after := snd (Catalog.handleJobDeleted io job s) in
  Catalog.write_succeeds io = true
  /\ ((forall sl found, Readers.getJobBySlug after sl = Some found ->
                        Catalog.stored_id found <> job_id job)
      /\ (forall sl found, Readers.getJobBySlug s sl = Some found ->
                           Catalog.stored_id found <> job_id job ->
                           Readers.getJobBySlug after sl = Some found)).
Proof.
  cbv zeta. split; [reflexivity|].
  exact (delete_then_lookup
           {| Catalog.mkdir_succeeds := true; Catalog.write_succeeds := true |}
           (example_job (js "42") [])
           {| Catalog.jobs_json :=
                Catalog.Holds [Catalog.stored (example_job (js "42") (js "Roof Repair"));
                               Catalog.stored (example_job (js "41") (js "Drain"))];
              Catalog.revalidated := [] |}
           eq_refl).
Defined.

(** ** Image files *)

Section ImageMore.

Import Images ExtensionRules.

Implicit Types (env : Env) (d : Disk) (images : list jsstring).

Lemma extMap_values_allowed (ct v : jsstring) :
  assoc extMap ct = Some v -> In v allowed_extensions.
Proof.
  unfold extMap. cbn [assoc].
  repeat (case_bool_decide; [intros [= <-]; vm_compute; tauto|]). discriminate.
Qed.

(** The extension that the content type alone gives. *)
Lemma content_type_extension (contentType : option jsstring) :
  let fromContentType :=
    match contentType with
    | Some ct =>
        if truthy ct then
          match get extMap ct with
          | Some (Own v) => if truthy v then Own v else Own (js "jpg")
          | Some (Inherited name) => Inherited name
          | None => Own (js "jpg")
          end
        else Own (js "jpg")
    | None => Own (js "jpg")
    end in
  (exists ext, fromContentType = Own ext /\ In ext allowed_extensions)
  \/ (exists name, contentType = Some name /\ In name object_prototype_keys
                   /\ fromContentType = Inherited name).
Proof.
  assert (Hjpg : In (js "jpg") allowed_extensions) by (vm_compute; tauto).
  cbv zeta. destruct contentType as [ct|]; [|left; eauto].
  destruct (truthy ct); [|left; eauto].
  unfold get. destruct (assoc extMap ct) as [v|] eqn:Ha.
  - rewrite (extMap_values_truthy ct v Ha). left. exists v.
    split; [reflexivity|]. now apply (extMap_values_allowed ct).
  - destruct (includes object_prototype_keys ct) eqn:Hp; [|left; eauto].
    right. exists ct. split; [reflexivity|]. split; [|reflexivity].
    now apply includes_In.
Qed.

(** One download: the clock advances, nothing is removed, and a download
    that fails before it writes leaves the files as they were. *)
Lemma downloadImage_disk env (imageUrl jobId publicDir : jsstring) (index : nat) d :
  let after := snd (downloadImage env imageUrl jobId index publicDir d) in
  tick after = S (tick d)
  /\ dirs d ⊆ dirs after
  /\ dom (files d) ⊆ dom (files after).
Proof.
  unfold downloadImage, downloadImage_try, mkdir, writeFile.
  destruct (http_get env (tick d) imageUrl) as [resp|t]; [|now cbn].
  destruct (buffer_from (resp_data resp)) as [buffer|t]; [|now cbn].
  destruct (mkdir_ok env _ _); [|now cbn]. cbn [tick].
  destruct (writeFile_ok env _ _); cbn.
  - repeat split; [set_solver|]. rewrite dom_insert_L. set_solver.
  - repeat split; set_solver.
Qed.

Lemma disk_after_grows env (jobId publicDir : jsstring) images (i : nat) d :
  let after := disk_after env jobId publicDir images i d in
  tick after = (tick d + List.length images)%nat
  /\ dirs d ⊆ dirs after
  /\ dom (files d) ⊆ dom (files after).
Proof.
  cbv zeta. revert i d. induction images as [|u rest IH]; intros i d.
  - cbn. rewrite Nat.add_0_r. repeat split; set_solver.
  - cbn [disk_after List.length].
    destruct (downloadImage_disk env u jobId publicDir i d) as (Ht & Hd & Hf).
    destruct (IH (S i) (snd (downloadImage env u jobId i publicDir d)))
      as (Ht' & Hd' & Hf').
    rewrite Ht', Ht. repeat split; [lia|now transitivity (dirs (snd (downloadImage env u jobId i publicDir d)))|now transitivity (dom (files (snd (downloadImage env u jobId i publicDir d))))].
Qed.

Lemma downloadJobImages_disk env (jobData : JobData) (publicDir : jsstring) d :
  snd (downloadJobImages env jobData publicDir d)
  = disk_after env (job_id jobData) publicDir (job_images jobData) 0 d.
Proof.
  unfold downloadJobImages.
  destruct (job_images jobData) as [|u rest] eqn:E; [reflexivity|].
  cbn [List.length Nat.ltb Nat.leb]. now rewrite download_loop_split.
Qed.

(** With a server that never answers, a download gives the URL back. *)
Lemma downloadImage_offline env (imageUrl jobId publicDir : jsstring)
    (index : nat) d :
  (forall n u, exists t, http_get env n u = Throw t) ->
  downloadImage env imageUrl jobId index publicDir d = (imageUrl, next d).
Proof.
  intros H. unfold downloadImage, downloadImage_try.
  now destruct (H (tick d) imageUrl) as [t ->].
Qed.

Lemma offline_loop env (jobId publicDir : jsstring) images (i : nat) d :
  (forall n u, exists t, http_get env n u = Throw t) ->
  paths_of env jobId publicDir images i d = images
  /\ files (disk_after env jobId publicDir images i d) = files d
  /\ dirs (disk_after env jobId publicDir images i d) = dirs d.
Proof.
  intros H. revert i d. induction images as [|u rest IH]; intros i d; [easy|].
  cbn [paths_of disk_after]. rewrite downloadImage_offline by exact H.
  cbn [fst snd]. destruct (IH (S i) (next d)) as (-> & -> & ->). easy.
Qed.

(** *** File names *)

Lemma js_inj (s1 s2 : string) : js s1 = js s2 -> s1 = s2.
Proof.
  unfold js. intros H.
  rewrite <- (string_of_list_ascii_of_string s1),
          <- (string_of_list_ascii_of_string s2).
  f_equal. revert H. generalize (list_ascii_of_string s1) as l1.
  generalize (list_ascii_of_string s2) as l2.
  intros l2 l1. revert l2. induction l1 as [|a l1 IH]; intros [|b l2] H;
    try discriminate; [reflexivity|].
  cbn in H. injection H as Hab Hl. f_equal; [|now apply IH].
  rewrite <- (ascii_N_embedding a), <- (ascii_N_embedding b). now rewrite Hab.
Qed.

Lemma string_of_uint_inj (u v : Decimal.uint) :
  NilEmpty.string_of_uint u = NilEmpty.string_of_uint v -> u = v.
Proof.
  intros H. pose proof (NilEmpty.usu u) as Hu. rewrite H, NilEmpty.usu in Hu.
  congruence.
Qed.

Lemma decimal_inj (n m : N) : decimal n = decimal m -> n = m.
Proof.
  unfold decimal. intros H.
  now apply DecimalN.Unsigned.to_uint_inj, string_of_uint_inj, js_inj.
Qed.

Lemma decimal_no_dot (n : N) : Forall (fun c => c <> 46) (decimal n).
Proof.
  eapply Forall_impl; [apply decimal_digits|].
  intros c Hc ->. discriminate Hc.
Qed.

(** Two texts without [c], each followed by [c], start the same list only
    if they are the same. *)
Lemma app_until (c : N) (a b x y : jsstring) :
  Forall (fun u => u <> c) a -> Forall (fun u => u <> c) b ->
  a ++ c :: x = b ++ c :: y -> a = b.
Proof.
  intros Ha. revert b. induction Ha as [|u a Hu Ha IH]; intros b Hb H.
  - destruct Hb as [|v b Hv Hb]; [reflexivity|].
    cbn in H. injection H as E _. now destruct Hv.
  - destruct Hb as [|v b Hv Hb]; cbn in H.
    + injection H as E _. now destruct Hu.
    + injection H as -> H. f_equal. now apply IH.
Qed.

Lemma filename_of_index (jobId : jsstring) (i j : nat) (e1 e2 : property) :
  filename_of jobId i e1 = filename_of jobId j e2 -> i = j.
Proof.
  unfold filename_of. intros H.
  do 3 apply app_inv_head in H. change (js ".") with [46] in H. cbn [app] in H.
  apply app_until in H; [|apply decimal_no_dot..].
  apply decimal_inj in H. lia.
Qed.

End ImageMore.

(** X20: the extension of a downloaded file is one of the six allowed
    extensions, whatever the URL and the content type, but for a content
    type that names a member of [Object.prototype] on a URL whose own
    extension is not allowed: the extension is then that member, which
    the table inherits. *)
Theorem extension_is_allowed
    (imageUrl jobId : jsstring) (index : nat) (contentType : option jsstring) :
  (exists ext,
      Images.extension_of imageUrl contentType = Own ext
      /\ In ext Images.allowed_extensions
      /\ Images.filename_of jobId index (Images.extension_of imageUrl contentType)
         = js "job-" ++ jobId ++ js "-" ++ decimal (N.of_nat index) ++ js "." ++ ext)
  \/ (exists name,
         contentType = Some name /\ In name object_prototype_keys
         /\ ~ In (ExtensionRules.candidate imageUrl) Images.allowed_extensions
         /\ Images.extension_of imageUrl contentType = Inherited name).
Proof.
  pose proof (content_type_extension contentType) as Hct.
  pose proof (urlExtension_candidate imageUrl) as Hc.
  unfold Images.filename_of, Images.extension_of. cbv zeta in Hct |- *.
  destruct (Images.urlExtension imageUrl) as [e|]; [|discriminate].
  cbn in Hc. injection Hc as Hc. rewrite Hc.
  destruct (includes Images.allowed_extensions (ExtensionRules.candidate imageUrl))
    eqn:Hin.
  - assert (He : truthy e = true).
    { destruct e; [|reflexivity]. rewrite <- Hc in Hin. discriminate Hin. }
    rewrite He. cbn [andb]. left. eexists. split; [reflexivity|].
    split; [now apply includes_In|reflexivity].
  - rewrite andb_false_r. apply includes_not_In in Hin.
    destruct Hct as [(ext & -> & Hext)|(name & -> & Hname & Hval)].
    + left. exists ext. now repeat split.
    + right. exists name. now repeat split.
Qed.

(** X21: [downloadJobImages] removes nothing: every directory and every
    file of the disk it started on is still there when it returns, and it
    has made one download for each image of the job. *)
Theorem downloadJobImages_removes_nothing
    (env : Images.Env) (jobData : JobData) (publicDir : jsstring)
    (d : Images.Disk) :
  let after := snd (Images.downloadJobImages env jobData publicDir d) in
  Images.tick after = (Images.tick d + List.length (job_images jobData))%nat
  /\ Images.dirs d ⊆ Images.dirs after
  /\ dom (Images.files d) ⊆ dom (Images.files after).
Proof.
  cbv zeta. rewrite downloadJobImages_disk. apply disk_after_grows.
Qed.

(** X22: when no request gets an answer, [downloadJobImages] returns the
    URLs of the job as they are and leaves the files and directories of
    the disk untouched. *)
Theorem downloadJobImages_offline
    (env : Images.Env) (jobData : JobData) (publicDir : jsstring)
    (d : Images.Disk) :
  (forall n u, exists t, Images.http_get env n u = Throw t) ->
  let run := Images.downloadJobImages env jobData publicDir d in
  fst run = job_images jobData
  /\ Images.files (snd run) = Images.files d
  /\ Images.dirs (snd run) = Images.dirs d.
Proof.
  intros H. cbv zeta. rewrite downloadJobImages_paths, downloadJobImages_disk.
  now apply offline_loop.
Qed.

Lemma downloadJobImages_offline_witness :
  let env := {| Images.cwd := js "/app";
                Images.http_get := fun _ _ => Throw (ErrorObject (js "ECONNREFUSED"));
                Images.mkdir_ok := fun _ _ => true;
                Images.writeFile_ok := fun _ _ => true |} in
  let job := {| job_id := js "42"; job_title := []; job_description := [];
                job_city := []; job_state := []; job_date := [];
                job_created_at := [];
                job_images := [js "http://h/a.png"; js "http://h/b.png"];
                job_site := []; job_tags := []; job_categories := [];
                job_brand := []; job_service := []; job_zipcode := [];
                job_brands := []; job_services := []; job_street := [];
                employee := None |} in
  let run := Images.downloadJobImages env job (js "public/jobs")
               ExtensionRules.empty_disk in
  (forall n u, exists t, Images.http_get env n u = Throw t)
  /\ (fst run = job_images job
      /\ Images.files (snd run) = Images.files ExtensionRules.empty_disk
      /\ Images.dirs (snd run) = Images.dirs ExtensionRules.empty_disk).
Proof.
  cbv zeta.
  assert (H : forall (n : nat) (u : jsstring),
             exists t, Images.http_get
                         {| Images.cwd := js "/app";
                            Images.http_get :=
                              fun _ _ => Throw (ErrorObject (js "ECONNREFUSED"));
                            Images.mkdir_ok := fun _ _ => true;
                            Images.writeFile_ok := fun _ _ => true |} n u = Throw t).
  { intros n u. eexists. reflexivity. }
  split; [exact H|].
  exact (downloadJobImages_offline _ _ (js "public/jobs") ExtensionRules.empty_disk H).
Defined.

(** X23: two images of a job at different positions never get the same
    file name, nor the same public path, whatever their extensions. *)
Theorem file_names_differ_by_index
    (jobId publicDir : jsstring) (i j : nat) (e1 e2 : property) :
  i <> j ->
  Images.filename_of jobId i e1 <> Images.filename_of jobId j e2
  /\ Images.public_path publicDir (Images.filename_of jobId i e1)
     <> Images.public_path publicDir (Images.filename_of jobId j e2).
Proof.
  intros Hij. split; intros H; apply Hij.
  - now apply filename_of_index in H.
  - unfold Images.public_path in H. do 3 apply app_inv_head in H.
    now apply filename_of_index in H.
Qed.

Lemma file_names_differ_by_index_witness :
  (1 <> 11)%nat
  /\ (Images.filename_of (js "42") 1 (Own (js "png"))
      <> Images.filename_of (js "42") 11 (Own (js "png"))
      /\ Images.public_path (js "public/jobs")
           (Images.filename_of (js "42") 1 (Own (js "png")))
         <> Images.public_path (js "public/jobs")
              (Images.filename_of (js "42") 11 (Own (js "png")))).
Proof.
  assert (H : (1 <> 11)%nat) by lia.
  split; [exact H|].
  exact (file_names_differ_by_index (js "42") (js "public/jobs") 1 11
           (Own (js "png")) (Own (js "png")) H).
Defined.

(** ** Registration results *)

Section RegistrationMore.



End RegistrationMore.

(** X24: the result of [registerWebhook] and of [unregisterWebhook] is
    either a success without an error or a failure with an error and no
    webhook id.  [registerWebhook] succeeds exactly when the call resolves
    with data that is not nullish, and hands over the [webhook_id] of the
    data; [unregisterWebhook] succeeds exactly when the call resolves. *)
Theorem registration_result_shape
    (config : SDKConfig) (axios : request -> Exc response_data)
    (webhookUrl webhookId : jsstring) (evs : option (list jsstring)) :
  let registered := IndexTsClient.registerWebhook config axios webhookUrl evs in
  let unregistered := IndexTsClient.unregisterWebhook config axios webhookId in
  let shaped r :=
    (success r = true /\ reg_error r = None)
    \/ (success r = false /\ webhook_id r = None
        /\ exists t, reg_error r = Some t) in
  shaped registered /\ shaped unregistered
  /\ (success registered = true
      <-> exists id, axios (register_request config webhookUrl
                              (events_or_default evs)) = Ret (Object id)
                     /\ webhook_id registered = id)
  /\ (success unregistered = true
      <-> exists data, axios (unregister_request config webhookId) = Ret data).
Proof.
  cbv zeta.
  rewrite registerWebhook_outcomes, unregisterWebhook_outcomes.
  destruct (axios (register_request _ _ _)) as [[|id]|[e|m [r|]|m|]];
    destruct (axios (unregister_request _ _)) as [data|[e'|m' [r'|]|m'|]];
    cbn; (split; [eauto 6|]); (split; [eauto 6|]);
    split; split; try discriminate; try (intros (? & [=] & _); fail);
    try (intros (? & [=]); fail); eauto.
Qed.


(** ** Empty slugs *)

Section SlugEmpty.

Import SlugSteps.

Lemma alnum_cases (c : N) :
  is_alnum c = true <-> 48 <= c <= 57 \/ 65 <= c <= 90 \/ 97 <= c <= 122.
Proof.
  unfold is_alnum, is_digit, is_upper, is_lower.
  rewrite !orb_true_iff, !range_spec. tauto.
Qed.

(** Decides the tests on [c] that arithmetic settles. *)
Ltac settle c :=
  repeat match goal with
    | |- context [in_range ?lo ?hi c] =>
        first [ rewrite (proj2 (range_spec lo hi c)) by lia
              | rewrite (proj2 (range_false lo hi c)) by lia ]
    | |- context [c =? ?k] =>
        first [ rewrite (proj2 (N.eqb_eq c k)) by lia
              | rewrite (proj2 (N.eqb_neq c k)) by lia ]
    end.

Lemma alnum_not_separator (c : N) : is_alnum c = true -> is_separator c = false.
Proof.
  intros H. apply alnum_cases in H.
  unfold is_separator, is_space, is_hyphen, underscore, hyphen.
  destruct H as [H|[H|H]]; settle c; reflexivity.
Qed.

Lemma keeps_split (c : N) : keeps c = is_alnum c || is_separator c.
Proof.
  unfold keeps, is_word, is_separator.
  destruct (is_alnum c), (c =? underscore), (is_space c), (is_hyphen c);
    reflexivity.
Qed.

(** What is kept and is no separator is a letter or a digit. *)
Lemma filter_keeps_separators (s : jsstring) :
  forallb is_separator (List.filter keeps s)
  = forallb (fun c => negb (is_alnum c)) s.
Proof.
  induction s as [|c s IH]; [reflexivity|]. cbn [List.filter forallb].
  rewrite keeps_split. destruct (is_alnum c) eqn:Ha; cbn [orb negb andb].
  - cbn [forallb]. now rewrite (alnum_not_separator c Ha).
  - destruct (is_separator c) eqn:Hs; [|exact IH].
    cbn [forallb]. rewrite Hs. exact IH.
Qed.

Lemma collapse_all_hyphens (s : jsstring) (b : bool) :
  forallb is_hyphen (collapse is_separator b s) = forallb is_separator s.
Proof.
  revert b. induction s as [|c s IH]; intros b; [reflexivity|].
  cbn [collapse forallb]. destruct (is_separator c) eqn:Hs.
  - rewrite forallb_app, IH. now destruct b.
  - cbn [forallb]. now rewrite (hyphen_is_separator c Hs).
Qed.

Lemma strip_leading_all (p : N -> bool) (s : jsstring) :
  forallb p (strip_leading p s) = forallb p s.
Proof.
  induction s as [|c s IH]; [reflexivity|]. cbn [strip_leading].
  destruct (p c) eqn:Hc; [|reflexivity]. cbn [forallb]. now rewrite Hc.
Qed.

Lemma cut_final_run_empty (p : N -> bool) (s : jsstring) :
  cut_final_run p s = [] <-> forallb p s = true.
Proof.
  split; [apply cut_final_run_nil|].
  destruct s as [|c s]; [reflexivity|]. cbn [cut_final_run]. now intros ->.
Qed.

Lemma lower_unit_alnum (c : N) :
  forallb (fun u => negb (is_alnum u)) (lower_unit c) = negb (gives_alnum c).
Proof.
  unfold lower_unit, gives_alnum.
  destruct (is_upper c) eqn:Hu.
  - assert (Ha : is_alnum c = true).
    { unfold is_alnum. rewrite Hu. now rewrite orb_true_r. }
    rewrite Ha. cbn [orb negb forallb].
    assert (Hl : is_alnum (c + 32) = true).
    { apply range_spec in Hu. apply alnum_cases. lia. }
    now rewrite Hl.
  - destruct (N.eqb_spec c 304) as [->|H1]; [reflexivity|].
    destruct (N.eqb_spec c 8490) as [->|H2]; [reflexivity|].
    cbn [forallb]. now rewrite !orb_false_r, andb_true_r.
Qed.

Lemma toLowerCase_alnum (s : jsstring) :
  forallb (fun u => negb (is_alnum u)) (toLowerCase s)
  = forallb (fun c => negb (gives_alnum c)) s.
Proof.
  unfold toLowerCase. induction s as [|c s IH]; [reflexivity|].
  cbn [flat_map forallb]. now rewrite forallb_app, lower_unit_alnum, IH.
Qed.

Lemma createSlug_empty (title : jsstring) :
  createSlug title = [] <-> forallb (fun c => negb (gives_alnum c)) title = true.
Proof.
  rewrite createSlug_cut, cut_final_run_empty, strip_leading_all,
    collapse_all_hyphens, filter_keeps_separators, toLowerCase_alnum.
  reflexivity.
Qed.

End SlugEmpty.

(** X26: the slug of a title is empty exactly when the title holds no
    Basic Latin letter or digit, no U+0130 and no Kelvin sign; a slug that
    is not empty holds a unit other than the hyphen. *)
Theorem createSlug_empty_iff (title : jsstring) :
  (createSlug title = []
   <-> forall c, In c title -> is_alnum c = false /\ c <> 304 /\ c <> 8490)
  /\ (createSlug title <> [] ->
      exists c, In c (createSlug title) /\ is_hyphen c = false).
Proof.
  split.
  - rewrite createSlug_empty, forallb_forall. unfold gives_alnum.
    split; intros H c Hc; specialize (H c Hc).
    + apply negb_true_iff in H. apply orb_false_iff in H as [H H3].
      apply orb_false_iff in H as [H1 H2].
      apply N.eqb_neq in H2, H3. now repeat split.
    + destruct H as (H1 & H2 & H3). apply N.eqb_neq in H2, H3.
      now rewrite H1, H2, H3.
  - intros Hne. pose proof (createSlug_shape title) as Hs. unfold is_slug in Hs.
    apply andb_prop in Hs as [Hs _]. apply andb_prop in Hs as [Hs _].
    apply andb_prop in Hs as [_ Hf].
    destruct (createSlug title) as [|c s]; [now destruct Hne|].
    exists c. split; [now left|]. cbn in Hf. now apply negb_true_iff in Hf.
Qed.

(** ** The handler, again *)

Ltac settle_reply :=
  first [ discriminate | congruence | tauto
        | repeat intro;
          repeat match goal with
            | H : _ /\ _ |- _ => destruct H
            | H : exists _, _ |- _ => destruct H
            end;
          first [ congruence | solve [eauto]
                | match goal with H : ~ _ |- _ => now destruct H end
                | split; [assumption|]; eauto 6 ] ].

(** X27: [createWebhookHandler] answers 405 exactly to what is no POST,
    400 exactly to a POST without a signature header or with an empty one,
    500 exactly when [JSON.stringify] throws on the body of a signed POST,
    and 401 exactly when the signed POST fails verification: a failed
    verification never gives 500, and the 401 carries an error text that
    is not empty. *)
Theorem createWebhookHandler_codes
    (sdk : SDKConfig) (config : Handler.WebhookConfig) (req : Handler.request) :
  let reply := Handler.createWebhookHandler sdk config req in
  let signed := exists signature, Handler.signature_header req = Some signature
                                  /\ signature <> [] in
  (Handler.code_of reply = 405 <-> Handler.method req <> js "POST")
  /\ (Handler.code_of reply = 400
      <-> Handler.method req = js "POST" /\ ~ signed)
  /\ (Handler.code_of reply = 500
      <-> Handler.method req = js "POST" /\ signed
          /\ exists t, Handler.stringified req = Throw t)
  /\ (Handler.code_of reply = 401
      <-> Handler.method req = js "POST"
          /\ exists signature body,
               Handler.signature_header req = Some signature /\ signature <> []
               /\ Handler.stringified req = Ret body
               /\ isValid (IndexTs.verifyWebhook sdk body signature
                             (Handler.secret config)) = false)
  /\ (forall code e, reply = Handler.Failed code e -> e <> Text []).
Proof.
  cbv zeta. unfold Handler.createWebhookHandler.
  case_bool_decide as Hm; cbn [negb].
  2:{ cbn. repeat split; try solve [settle_reply]. }
  destruct (Handler.signature_header req) as [signature|] eqn:Hsig; cbn [try_catch].
  2:{ cbn. repeat split; try solve [settle_reply]. }
  destruct signature as [|c sig]; cbn [truthy negb try_catch].
  { cbn. repeat split; try solve [settle_reply]. }
  assert (Hsigned : exists s, Some (c :: sig) = Some s /\ s <> [])
    by (exists (c :: sig); split; [reflexivity|discriminate]).
  destruct (Handler.stringified req) as [body|t] eqn:Hbody;
    cbn [mbind Exc_bind bind try_catch].
  2:{ cbn. repeat split; try solve [settle_reply]. }
  destruct (isValid (IndexTs.verifyWebhook sdk body (c :: sig) (Handler.secret config)))
    eqn:Hv; cbn [negb try_catch].
  - cbn. repeat split; try solve [settle_reply].
  - cbn. repeat split; try solve [settle_reply].
    + exists (c :: sig), body. repeat split; try assumption. discriminate.
    + intros code e [= <- <-]. unfold Handler.error_or_default.
      destruct (error _) as [[[|u s]|r]|]; cbn; discriminate.
Qed.

Lemma verifyWebhook_same_copy (config : SDKConfig) (body signature : jsstring)
    (secret_arg : option jsstring) :
  SecondCopy.verifyWebhook config body signature secret_arg
  = IndexTs.verifyWebhook config body signature secret_arg.
Proof.
  unfold IndexTs.verifyWebhook, IndexTs.verifyWebhook_try,
    SecondCopy.verifyWebhook, SecondCopy.no_secret, message_or.
  destruct (or_else secret_arg (secret config)) as [key|]; [|reflexivity].
  destruct (truthy key); cbn [negb]; [|reflexivity].
  destruct (timingSafeEqual _ _) as [[|]|t]; cbn; try reflexivity.
  all: destruct (Json.parse body); reflexivity.
Qed.

(** X28: the [createWebhookHandler] of the second copy gives the reply of
    the one in [src/index.ts] to every request, under every configuration. *)
Theorem createWebhookHandler_copies_agree
    (sdk : SDKConfig) (config : Handler.WebhookConfig) (req : Handler.request) :
  SecondCopyHandler.createWebhookHandler sdk config req
  = Handler.createWebhookHandler sdk config req.
Proof.
  unfold SecondCopyHandler.createWebhookHandler, Handler.createWebhookHandler.
  destruct (negb _); [reflexivity|].
  destruct (Handler.signature_header req) as [signature|]; [|reflexivity].
  destruct (negb (truthy signature)); [reflexivity|].
  destruct (Handler.stringified req) as [body|t]; [|reflexivity].
  cbn [mbind Exc_bind bind]. now rewrite verifyWebhook_same_copy.
Qed.
